(** * Flick-Out: the embedded GIF stream decoder (class [GifClass])

    A shallow embedding of the decoder of [Flick-Out.ino]: the buffered
    stream reader, the container parser and the LZW frame decompressor,
    followed by the properties of the decoder that are settled on it. *)

From Stdlib Require Import ZArith List Lia Bool.
From Stdlib.Strings Require Import Byte.
Import ListNotations.
Open Scope Z_scope.

(** ** Machine integers

    The sketch uses [uint8_t], [uint16_t] and [int16_t]; values are carried
    as [Z] and every store into a narrower type writes its wrap-around out. *)

Definition u8 (z : Z) : Z := z mod 256.
Definition u16 (z : Z) : Z := z mod 65536.
Definition s16 (z : Z) : Z := (z + 32768) mod 65536 - 32768.

Definition byte_to_Z (b : byte) : Z := Z.of_N (Byte.to_N b).

Definition byte_of_Z (z : Z) : byte :=
  match Byte.of_N (Z.to_N (u8 z)) with
  | Some b => b
  | None => x00
  end.

(** ** Arrays indexed by a C integer *)

Definition zin (i n : Z) : bool := (0 <=? i) && (i <? n).

Definition znth {A : Type} (i : Z) (l : list A) (d : A) : A :=
  nth (Z.to_nat i) l d.

Fixpoint upd_nat {A : Type} (n : nat) (v : A) (l : list A) : list A :=
  match l with
  | [] => []
  | x :: t =>
      match n with
      | O => v :: t
      | S n' => x :: upd_nat n' v t
      end
  end.

Definition zupd {A : Type} (i : Z) (v : A) (l : list A) : list A :=
  if i <? 0 then l else upd_nat (Z.to_nat i) v l.

(** ** Outcomes

    [Undef] marks the points at which the C++ code leaves defined behaviour
    (an index outside an array, a store outside the caller's frame buffer);
    [NoFuel] is the model's loop budget running out on a [while (1)]. *)

Inductive outcome (A : Type) : Type :=
| Ok (a : A)
| Undef
| NoFuel.

Arguments Ok {A} a.
Arguments Undef {A}.
Arguments NoFuel {A}.

(** ** The byte source

    [File] is the Arduino file-system handle.  [File_read f buf n] copies up
    to [n] bytes from the current offset to the front of [buf], leaves the
    rest of [buf] as it was and returns the number of bytes copied (0 at end
    of file); [File_seek] positions the handle at an absolute offset and fails,
    leaving the handle where it was, on a negative one. *)

Record File : Type := mkFile {
  content : list byte;
  fpos : Z
}.

Definition File_read (f : File) (buf : list byte) (n : Z)
  : Z * list byte * File :=
  let chunk := firstn (Z.to_nat n) (skipn (Z.to_nat (fpos f)) (content f)) in
  let k := Z.of_nat (length chunk) in
  (k, chunk ++ skipn (length chunk) buf, mkFile (content f) (fpos f + k)).

Definition File_seek (f : File) (pos : Z) : File :=
  if pos <? 0 then f else mkFile (content f) pos.

(** ** The stream reader (private state of [GifClass]) *)

Definition GIF_BUF_SIZE : Z := 1024.

Record GifClass : Type := mkGifClass {
  fd : File;
  gif_buf : list byte;
  gif_buf_last_idx : Z;
  gif_buf_idx : Z;
  file_pos : Z
}.

Definition M (A : Type) : Type := GifClass -> outcome (A * GifClass).

Definition mret {A : Type} (a : A) : M A := fun w => Ok (a, w).

Definition lift {A : Type} (o : outcome A) : M A := fun w =>
  match o with
  | Ok a => Ok (a, w)
  | Undef => Undef
  | NoFuel => NoFuel
  end.

Definition bind {A B : Type} (m : M A) (k : A -> M B) : M B :=
  fun w =>
    match m w with
    | Ok (a, w') => k a w'
    | Undef => Undef
    | NoFuel => NoFuel
    end.

Definition undef {A : Type} : M A := fun _ => Undef.
Definition nofuel {A : Type} : M A := fun _ => NoFuel.

Notation "x <- m ;; k" := (bind m (fun x => k))
  (at level 61, m at next level, right associativity).
Notation "m ;;; k" := (bind m (fun _ => k))
  (at level 61, right associativity).

(** [gif_buf_seek]: skip [len] bytes.  The seek branch positions the file at
    [file_pos + len - (gif_buf_last_idx - gif_buf_idx)] with [SeekSet]. *)
Definition gif_buf_seek (len : Z) : M bool := fun w =>
  let remaining := gif_buf_last_idx w - gif_buf_idx w in
  let w1 :=
    if remaining <? len
    then mkGifClass (File_seek (fd w) (file_pos w + len - remaining))
                    (gif_buf w) (gif_buf_last_idx w) (gif_buf_last_idx w)
                    (file_pos w)
    else mkGifClass (fd w) (gif_buf w) (gif_buf_last_idx w)
                    (s16 (gif_buf_idx w + len)) (file_pos w) in
  Ok (true, mkGifClass (fd w1) (gif_buf w1) (gif_buf_last_idx w1)
                       (gif_buf_idx w1) (s16 (file_pos w1 + len))).

(** The refill at the head of both [gif_buf_read] overloads. *)
Definition refill (w : GifClass) : GifClass :=
  if gif_buf_idx w =? gif_buf_last_idx w
  then let '(k, buf, f) := File_read (fd w) (gif_buf w) GIF_BUF_SIZE in
       mkGifClass f buf (s16 k) 0 (file_pos w)
  else w.

(** [uint8_t gif_buf_read(File *fd)]; the body of the loop of the
    three-argument overload is the same statement sequence, so a call
    [gif_buf_read(fd, &x, 1)] is this function as well. *)
Definition gif_buf_read : M Z := fun w =>
  let w1 := refill w in
  let i := gif_buf_idx w1 in
  if zin i GIF_BUF_SIZE
  then Ok (byte_to_Z (znth i (gif_buf w1) x00),
           mkGifClass (fd w1) (gif_buf w1) (gif_buf_last_idx w1)
                      (s16 (i + 1)) (s16 (file_pos w1 + 1)))
  else Undef.

(** [gif_buf_read(fd, dest, len)]: [len] single-byte reads into [dest]. *)
Fixpoint gif_buf_read_into (len : nat) : M (list Z) :=
  match len with
  | O => mret []
  | S n => b <- gif_buf_read ;; t <- gif_buf_read_into n ;; mret (b :: t)
  end.

(** [gif_buf_read16]: the low byte is the first one read (the operands of
    the sum are taken in the order they are written). *)
Definition gif_buf_read16 : M Z :=
  lo <- gif_buf_read ;; hi <- gif_buf_read ;; mret (u16 (lo + Z.shiftl hi 8)).

(** ** Palettes *)

Record gd_Palette : Type := mkPalette {
  pal_len : Z;
  colors : list Z
}.

Definition rgb565 (r g b : Z) : Z :=
  u16 (Z.lor (Z.lor (Z.shiftl (Z.land r 0xF8) 8) (Z.shiftl (Z.land g 0xFC) 3))
             (Z.shiftr (Z.land b 0xF8) 3)).

Fixpoint read_palette_loop (n : nat) (i : Z) (dest : gd_Palette)
  : M gd_Palette :=
  match n with
  | O => mret dest
  | S n' =>
      r <- gif_buf_read ;;
      g <- gif_buf_read ;;
      b <- gif_buf_read ;;
      if zin i 256
      then read_palette_loop n' (i + 1)
             (mkPalette (pal_len dest) (zupd i (rgb565 r g b) (colors dest)))
      else undef
  end.

Definition read_palette (dest : gd_Palette) (num_colors : Z) : M gd_Palette :=
  read_palette_loop (Z.to_nat num_colors) 0
    (mkPalette (s16 num_colors) (colors dest)).

Notation "' pat <- m ;; k" := (bind m (fun pat => k))
  (at level 61, pat pattern, m at next level, right associativity).

(** ** Session data ([gd_GCE], [gd_Entry], [gd_Table], [gd_GIF]) *)

Record gd_GCE : Type := mkGCE {
  delay : Z;
  tindex : Z;
  disposal : Z;
  input : Z;
  transparency : Z
}.

Record gd_Entry : Type := mkEntry {
  len : Z;
  prefix : Z;
  suffix : Z
}.

Record gd_Table : Type := mkTable {
  nentries : Z;
  entries : list gd_Entry
}.

(** [gif->palette] points at one of the two palettes of the session. *)
Inductive palette_ref : Type := Gct | Lct.

(** The three hook pointers of [gd_GIF] are zeroed by [calloc] and assigned
    nowhere in the sketch; the embedding follows the branches taken when
    they are null and leaves the fields out.  [gif->fd] is the file of the
    reader state. *)
Record gd_GIF : Type := mkGIF {
  anim_start : Z;
  width : Z;
  height : Z;
  depth : Z;
  loop_count : Z;
  gce : gd_GCE;
  palette : palette_ref;
  lct : gd_Palette;
  gct : gd_Palette;
  fx : Z;
  fy : Z;
  fw : Z;
  fh : Z;
  bgindex : Z;
  table : gd_Table;
  processed_first_frame : bool
}.

Definition set_gce (g : gd_GIF) (c : gd_GCE) : gd_GIF :=
  mkGIF (anim_start g) (width g) (height g) (depth g) (loop_count g) c
        (palette g) (lct g) (gct g) (fx g) (fy g) (fw g) (fh g) (bgindex g)
        (table g) (processed_first_frame g).

Definition set_loop_count (g : gd_GIF) (n : Z) : gd_GIF :=
  mkGIF (anim_start g) (width g) (height g) (depth g) n (gce g)
        (palette g) (lct g) (gct g) (fx g) (fy g) (fw g) (fh g) (bgindex g)
        (table g) (processed_first_frame g).

Definition set_rect (g : gd_GIF) (x y w h : Z) : gd_GIF :=
  mkGIF (anim_start g) (width g) (height g) (depth g) (loop_count g) (gce g)
        (palette g) (lct g) (gct g) x y w h (bgindex g)
        (table g) (processed_first_frame g).

Definition set_palette (g : gd_GIF) (r : palette_ref) (l : gd_Palette)
  : gd_GIF :=
  mkGIF (anim_start g) (width g) (height g) (depth g) (loop_count g) (gce g)
        r l (gct g) (fx g) (fy g) (fw g) (fh g) (bgindex g)
        (table g) (processed_first_frame g).

Definition set_table (g : gd_GIF) (t : gd_Table) : gd_GIF :=
  mkGIF (anim_start g) (width g) (height g) (depth g) (loop_count g) (gce g)
        (palette g) (lct g) (gct g) (fx g) (fy g) (fw g) (fh g) (bgindex g)
        t (processed_first_frame g).

Definition set_processed (g : gd_GIF) (b : bool) : gd_GIF :=
  mkGIF (anim_start g) (width g) (height g) (depth g) (loop_count g) (gce g)
        (palette g) (lct g) (gct g) (fx g) (fy g) (fw g) (fh g) (bgindex g)
        (table g) b.

(** ** Container parser: extension blocks *)

(** [discard_sub_blocks]: [do { read len; seek len } while (len)]. *)
Fixpoint discard_sub_blocks (fuel : nat) : M unit :=
  match fuel with
  | O => nofuel
  | S fuel' =>
      n <- gif_buf_read ;;
      gif_buf_seek n ;;;
      if n =? 0 then mret tt else discard_sub_blocks fuel'
  end.

Definition read_plain_text_ext (fuel : nat) (gif : gd_GIF) : M gd_GIF :=
  gif_buf_seek 13 ;;;
  discard_sub_blocks fuel ;;;
  mret gif.

Definition read_graphic_control_ext (gif : gd_GIF) : M gd_GIF :=
  gif_buf_seek 1 ;;;
  rdit <- gif_buf_read ;;
  d <- gif_buf_read16 ;;
  t <- gif_buf_read ;;
  gif_buf_seek 1 ;;;
  mret (set_gce gif
         (mkGCE d t (Z.land (Z.shiftr rdit 2) 3) (Z.land rdit 2)
                (Z.land rdit 1))).

Definition read_comment_ext (fuel : nat) (gif : gd_GIF) : M gd_GIF :=
  discard_sub_blocks fuel ;;;
  mret gif.

Definition NETSCAPE : list Z := [78; 69; 84; 83; 67; 65; 80; 69].

Definition read_application_ext (fuel : nat) (gif : gd_GIF) : M gd_GIF :=
  gif_buf_seek 1 ;;;
  app_id <- gif_buf_read_into 8 ;;
  app_auth_code <- gif_buf_read_into 3 ;;
  if list_eq_dec Z.eq_dec app_id NETSCAPE
  then gif_buf_seek 2 ;;;
       n <- gif_buf_read16 ;;
       gif_buf_seek 1 ;;;
       mret (set_loop_count gif n)
  else discard_sub_blocks fuel ;;;
       mret gif.

Definition read_ext (fuel : nat) (gif : gd_GIF) : M gd_GIF :=
  label <- gif_buf_read ;;
  if label =? 0x01 then read_plain_text_ext fuel gif
  else if label =? 0xF9 then read_graphic_control_ext gif
  else if label =? 0xFE then read_comment_ext fuel gif
  else if label =? 0xFF then read_application_ext fuel gif
  else mret gif.

(** ** The dictionary table *)

Definition TABLE_SIZE : Z := 4096.

Definition zero_entry : gd_Entry := mkEntry 0 0 0.

(** [new_table]: the block comes from [malloc], so the 4096 entries hold
    whatever the heap held ([heap], padded to the size of the block). *)
Definition new_table (heap : list gd_Entry) : gd_Table :=
  mkTable 0 (firstn (Z.to_nat TABLE_SIZE)
                    (heap ++ repeat zero_entry (Z.to_nat TABLE_SIZE))).

Fixpoint reset_table_loop (n : nat) (key : Z) (es : list gd_Entry)
  : list gd_Entry :=
  match n with
  | O => es
  | S n' =>
      reset_table_loop n' (key + 1) (zupd key (mkEntry 1 0xFFF (u8 key)) es)
  end.

(** [reset_table]: for a key size above 12 the loop stores past the end of
    the 4096 entries. *)
Definition reset_table (t : gd_Table) (key_size : Z) : outcome gd_Table :=
  if 12 <? key_size then Undef
  else Ok (mkTable (s16 (Z.shiftl 1 key_size + 2))
                   (reset_table_loop (Z.to_nat (Z.shiftl 1 key_size)) 0
                                     (entries t))).

Definition add_entry (t : gd_Table) (l : Z) (p : Z) (s : Z)
  : outcome (Z * gd_Table) :=
  let n := nentries t in
  if zin n TABLE_SIZE
  then let n' := s16 (n + 1) in
       Ok (if Z.land n' (n' - 1) =? 0 then 1 else 0,
           mkTable n' (zupd n (mkEntry l (u16 p) (u8 s)) (entries t)))
  else Undef.

(** ** The code reader *)

Fixpoint get_key_loop (n : nat) (key_size bits_read key sub_len shift byte_ : Z)
  : M (Z * Z * Z) :=
  match n with
  | O => nofuel
  | S n' =>
      if bits_read <? key_size
      then
        let rpad := Z.rem (shift + bits_read) 8 in
        '(sub_len', byte') <-
           (if rpad =? 0
            then sl <- (if sub_len =? 0 then gif_buf_read else mret sub_len) ;;
                 b <- gif_buf_read ;;
                 mret (u8 (sl - 1), b)
            else mret (sub_len, byte_)) ;;
        let frag_size := Z.min (key_size - bits_read) (8 - rpad) in
        let key' :=
          u16 (Z.lor key (Z.shiftl (u16 (Z.shiftr byte' rpad)) bits_read)) in
        get_key_loop n' key_size (bits_read + frag_size) key' sub_len' shift
                     byte'
      else mret (key, sub_len, byte_)
  end.

(** [get_key] returns the key and the updated [sub_len], [shift], [byte].
    [1 << key_size] is outside [int] from key size 31 on. *)
Definition get_key (key_size sub_len shift byte_ : Z) : M (Z * Z * Z * Z) :=
  if 30 <? key_size then undef
  else
    '(key, sub_len', byte') <-
       get_key_loop (S (Z.to_nat key_size)) key_size 0 0 sub_len shift byte_ ;;
    mret (u16 (Z.land key (Z.shiftl 1 key_size - 1)), sub_len',
          u8 (Z.rem (shift + key_size) 8), byte').

(** ** Interlacing *)

Definition interlaced_line_index (h y : Z) : Z :=
  let p := s16 (Z.quot (h - 1) 8 + 1) in
  if y <? p then s16 (y * 8)
  else
    let y := s16 (y - p) in
    let p := s16 (Z.quot (h - 5) 8 + 1) in
    if y <? p then s16 (y * 8 + 4)
    else
      let y := s16 (y - p) in
      let p := s16 (Z.quot (h - 3) 4 + 1) in
      if y <? p then s16 (y * 4 + 2)
      else
        let y := s16 (y - p) in
        s16 (y * 2 + 1).

(** ** The LZW frame decompressor

    [int32_t] values ([frm_off], [p], [x], [y], [str_len]) are carried
    exactly.  The caller's buffer [frame] is a list of bytes; a store outside
    it is [Undef]. *)

(** The destination of the pixel at linear position [p] of the frame. *)
Definition frame_index (gif : gd_GIF) (interlace p : Z) : Z :=
  let x := Z.rem p (fw gif) in
  let y := Z.quot p (fw gif) in
  let y := if interlace =? 0 then y
           else interlaced_line_index (s16 (fh gif)) (s16 y) in
  (fy gif + y) * width gif + fx gif + x.

(** The guarded store of the inner loop, for the pixel of index [sfx] at
    linear position [p]. *)
Definition store_pixel (gif : gd_GIF) (interlace tidx p sfx : Z)
           (frame : list Z) : outcome (list Z) :=
  if fw gif =? 0 then Undef
  else if negb (processed_first_frame gif) || negb (tidx =? sfx)
  then let i := frame_index gif interlace p in
       if zin i (Z.of_nat (length frame)) then Ok (zupd i sfx frame)
       else Undef
  else Ok frame.

Record locals : Type := mkLocals {
  key : Z;
  key_size : Z;
  sub_len : Z;
  shift : Z;
  byte_ : Z;
  table_is_full : bool;
  ret : Z;
  entry : gd_Entry;
  str_len : Z;
  frm_off : Z
}.

(** The head of the outer loop: a clear code resets key size and entry
    count, any other key adds an entry while the table is not full. *)
Definition update_table (init_key_size clear : Z) (l : locals) (t : gd_Table)
  : outcome (locals * gd_Table) :=
  if key l =? clear
  then Ok (mkLocals (key l) init_key_size (sub_len l) (shift l) (byte_ l)
                    false (ret l) (entry l) (str_len l) (frm_off l),
           mkTable (s16 (Z.shiftl 1 (init_key_size - 1) + 2)) (entries t))
  else if negb (table_is_full l)
  then match add_entry t (str_len l + 1) (key l) (suffix (entry l)) with
       | Ok (r, t') =>
           if nentries t' =? 0x1000
           then Ok (mkLocals (key l) (key_size l) (sub_len l) (shift l)
                             (byte_ l) true 0 (entry l) (str_len l)
                             (frm_off l), t')
           else Ok (mkLocals (key l) (key_size l) (sub_len l) (shift l)
                             (byte_ l) (table_is_full l) r (entry l)
                             (str_len l) (frm_off l), t')
       | Undef => Undef
       | NoFuel => NoFuel
       end
  else Ok (l, t).

(** [entries[nentries - 1].suffix = entry.suffix] at the foot of the loop. *)
Definition patch_suffix (k : Z) (full : bool) (e : gd_Entry) (t : gd_Table)
  : outcome gd_Table :=
  if (k <? nentries t - 1) && negb full
  then let i := nentries t - 1 in
       if zin i TABLE_SIZE
       then let old := znth i (entries t) zero_entry in
            Ok (mkTable (nentries t)
                  (zupd i (mkEntry (len old) (prefix old) (suffix e))
                        (entries t)))
       else Undef
  else Ok t.

(** What one turn of the outer [while (1)] ends in. *)
Inductive turn (F : Type) : Type :=
| Continue (gif : gd_GIF) (l : locals) (frame : F)
| Break (gif : gd_GIF) (l : locals) (frame : F).

Arguments Continue {F} gif l frame.
Arguments Break {F} gif l frame.

(** The decoder touches the caller's buffer in one statement only, the
    guarded store.  The loops are written once, over that store: [store] is
    [store_pixel] on the caller's buffer in the decoder itself, and the
    recording [log_pixel] where a property speaks of the pixels a bitstream
    emits. *)
Section Decoder.

Variable F : Type.
Variable store : gd_GIF -> Z -> Z -> Z -> Z -> F -> outcome F.

(** The inner [while (1)]: the string of [entry] is stored back to front
    along its prefix chain; the entry the walk ends on is returned. *)
Fixpoint emit_string_with (fuel : nat) (gif : gd_GIF)
         (interlace tidx frm_off : Z) (entry : gd_Entry) (frame : F)
  : outcome (gd_Entry * F) :=
  match fuel with
  | O => NoFuel
  | S fuel' =>
      match store gif interlace tidx (frm_off + len entry - 1)
                  (suffix entry) frame with
      | Ok frame' =>
          if prefix entry =? 0xFFF then Ok (entry, frame')
          else if zin (prefix entry) TABLE_SIZE
          then emit_string_with fuel' gif interlace tidx frm_off
                 (znth (prefix entry) (entries (table gif)) zero_entry)
                 frame'
          else Undef
      | Undef => Undef
      | NoFuel => NoFuel
      end
  end.

(** One turn of the outer [while (1)]; [fuel] bounds the inner loop. *)
Definition lzw_step_with (fuel : nat) (interlace init_key_size clear stop : Z)
           (gif : gd_GIF) (l : locals) (frame : F) : M (turn F) :=
  ' (l1, t1) <- lift (update_table init_key_size clear l (table gif)) ;;
  let gif1 := set_table gif t1 in
  ' (k, sl, sh, b) <- get_key (key_size l1) (sub_len l1) (shift l1)
                              (byte_ l1) ;;
  let l2 := mkLocals k (key_size l1) sl sh b (table_is_full l1) (ret l1)
                     (entry l1) (str_len l1) (frm_off l1) in
  if k =? clear then mret (Continue gif1 l2 frame)
  else if k =? stop then mret (Break gif1 l2 frame)
  else
    let ks := if ret l2 =? 1 then u16 (key_size l2 + 1) else key_size l2 in
    if zin k TABLE_SIZE
    then
      let e := znth k (entries t1) zero_entry in
      ' (e', frame') <- lift (emit_string_with fuel gif1 interlace
                                (tindex (gce gif1)) (frm_off l2) e frame) ;;
      t2 <- lift (patch_suffix k (table_is_full l2) e' t1) ;;
      mret (Continue (set_table gif1 t2)
              (mkLocals k ks sl sh b (table_is_full l2) (ret l2) e'
                        (len e) (frm_off l2 + len e))
              frame')
    else undef.

(** The outer [while (1)]; the locals at the [break] are returned along
    with the session and the buffer. *)
Fixpoint lzw_loop_with (fuel : nat) (interlace init_key_size clear stop : Z)
         (gif : gd_GIF) (l : locals) (frame : F)
  : M (gd_GIF * locals * F) :=
  match fuel with
  | O => nofuel
  | S fuel' =>
      t <- lzw_step_with fuel' interlace init_key_size clear stop gif l
                         frame ;;
      match t with
      | Continue gif' l' frame' =>
          lzw_loop_with fuel' interlace init_key_size clear stop gif' l'
                        frame'
      | Break gif' l' frame' => mret (gif', l', frame')
      end
  end.

(** The set-up of [read_image_data], up to the first key. *)
Definition lzw_init (gif : gd_GIF) : M (Z * Z * Z * gd_GIF * locals) :=
  b <- gif_buf_read ;;
  let clear := u16 (Z.shiftl 1 b) in
  let stop := u16 (clear + 1) in
  t <- lift (reset_table (table gif) b) ;;
  let init_key_size := u16 (b + 1) in
  ' (k, sl, sh, b') <- get_key init_key_size 0 0 b ;;
  mret (init_key_size, clear, stop, set_table gif t,
        mkLocals k init_key_size sl sh b' false 0 zero_entry 0 0).

Definition read_image_data_with (fuel : nat) (gif : gd_GIF) (interlace : Z)
           (frame : F) : M (Z * gd_GIF * F) :=
  ' (init_key_size, clear, stop, gif0, l0) <- lzw_init gif ;;
  ' (gif', _, frame') <-
     lzw_loop_with fuel interlace init_key_size clear stop gif0 l0 frame ;;
  gif_buf_read ;;;
  mret (0, set_processed gif' true, frame').

Definition read_image_with (fuel : nat) (gif : gd_GIF) (frame : F)
  : M (Z * gd_GIF * F) :=
  x <- gif_buf_read16 ;;
  y <- gif_buf_read16 ;;
  w <- gif_buf_read16 ;;
  h <- gif_buf_read16 ;;
  fisrz <- gif_buf_read ;;
  let gif1 := set_rect gif x y w h in
  let interlace := Z.land fisrz 0x40 in
  gif2 <- (if Z.land fisrz 0x80 =? 0
           then mret (set_palette gif1 Gct (lct gif1))
           else p <- read_palette (lct gif1)
                       (Z.shiftl 1 (Z.land fisrz 0x07 + 1)) ;;
                mret (set_palette gif1 Lct p)) ;;
  read_image_data_with fuel gif2 interlace frame.

(** [gd_get_frame]: 1 for a decoded frame, 0 at the trailer, -1
    otherwise. *)
Fixpoint gd_get_frame_with (fuel : nat) (gif : gd_GIF) (frame : F)
  : M (Z * gd_GIF * F) :=
  match fuel with
  | O => nofuel
  | S fuel' =>
      sep <- gif_buf_read ;;
      sep <- (if sep =? 0 then gif_buf_read else mret sep) ;;
      if sep =? 44 then
        ' (r, gif', frame') <- read_image_with fuel' gif frame ;;
        if r =? -1 then mret (-1, gif', frame') else mret (1, gif', frame')
      else if sep =? 59 then mret (0, gif, frame)
      else if sep =? 33 then
        gif' <- read_ext fuel' gif ;;
        gd_get_frame_with fuel' gif' frame
      else mret (-1, gif, frame)
  end.

End Decoder.

Arguments emit_string_with {F} store fuel gif interlace tidx frm_off entry
  frame.
Arguments lzw_step_with {F} store fuel interlace init_key_size clear stop gif l
  frame.
Arguments lzw_loop_with {F} store fuel interlace init_key_size clear stop gif l
  frame.
Arguments read_image_data_with {F} store fuel gif interlace frame.
Arguments read_image_with {F} store fuel gif frame.
Arguments gd_get_frame_with {F} store fuel gif frame.

(** The decoder proper: the loops over the store into the caller's
    buffer. *)
Definition emit_string := emit_string_with store_pixel.
Definition lzw_step := lzw_step_with store_pixel.
Definition lzw_loop := lzw_loop_with store_pixel.
Definition read_image_data := read_image_data_with store_pixel.
Definition read_image := read_image_with store_pixel.

(** ** The public operations *)

Definition gd_get_frame := gd_get_frame_with store_pixel.

(** The pixels a bitstream emits, in the order of emission: linear position
    and index of each, whether or not its store is skipped. *)
Definition log_pixel (gif : gd_GIF) (interlace tidx p sfx : Z)
           (tr : list (Z * Z)) : outcome (list (Z * Z)) :=
  Ok (tr ++ [(p, sfx)]).

Definition emitted_pixels (fuel : nat) (gif : gd_GIF) (interlace : Z)
  : M (Z * gd_GIF * list (Z * Z)) :=
  read_image_data_with log_pixel fuel gif interlace [].

Definition zero_palette : gd_Palette := mkPalette 0 (repeat 0 256).

(** [gd_open_gif fd]: [None] is the [NULL] result.  The session is zeroed
    by [calloc]; [heap] is the content of the block [new_table] obtains. *)
Definition gd_open_gif (f : File) (heap : list gd_Entry)
  : M (option gd_GIF) := fun w0 =>
  let w := mkGifClass f (gif_buf w0) GIF_BUF_SIZE GIF_BUF_SIZE 0 in
  (sig <- gif_buf_read_into 3 ;;
   if negb (if list_eq_dec Z.eq_dec sig [71; 73; 70] then true else false)
   then mret None
   else
     ver <- gif_buf_read_into 3 ;;
     if negb (if list_eq_dec Z.eq_dec ver [56; 57; 97] then true else false)
     then mret None
     else
       wd <- gif_buf_read16 ;;
       ht <- gif_buf_read16 ;;
       fdsz <- gif_buf_read ;;
       if Z.land fdsz 0x80 =? 0 then mret None
       else
         let dp := Z.land (Z.shiftr fdsz 4) 7 + 1 in
         let gct_sz := Z.shiftl 1 (Z.land fdsz 0x07 + 1) in
         bgidx <- gif_buf_read ;;
         aspect <- gif_buf_read ;;
         g <- read_palette zero_palette gct_sz ;;
         fun w1 =>
           Ok (Some (mkGIF (file_pos w1) wd ht dp 0 (mkGCE 0 0 0 0 0) Gct
                           zero_palette g 0 0 0 0 bgidx (new_table heap)
                           false), w1)) w.



(** ** Vocabulary of the properties *)

(** The effect of one guarded store that succeeds. *)
Definition put (gif : gd_GIF) (interlace tidx : Z) (frame : list Z)
           (px : Z * Z) : list Z :=
  if negb (processed_first_frame gif) || negb (tidx =? snd px)
  then zupd (frame_index gif interlace (fst px)) (snd px) frame
  else frame.

(** The buffer after a sequence of emitted pixels. *)
Definition replay (gif : gd_GIF) (interlace tidx : Z) (tr : list (Z * Z))
           (frame : list Z) : list Z :=
  fold_left (put gif interlace tidx) tr frame.

(** The fields of the session a store depends on. *)
Definition same_view (g g' : gd_GIF) : Prop :=
  width g' = width g /\ fx g' = fx g /\ fy g' = fy g /\ fw g' = fw g
  /\ fh g' = fh g /\ gce g' = gce g
  /\ processed_first_frame g' = processed_first_frame g.

(** Buffer index [q] lies in the placement rectangle of the session. *)
Definition in_rect (gif : gd_GIF) (q : Z) : Prop :=
  exists x y, 0 <= x < fw gif /\ 0 <= y < fh gif
              /\ q = (fy gif + y) * width gif + fx gif + x.

Definition turn_gif {F : Type} (t : turn F) : gd_GIF :=
  match t with Continue g _ _ | Break g _ _ => g end.

Definition turn_frame {F : Type} (t : turn F) : F :=
  match t with Continue _ _ f | Break _ _ f => f end.

Definition with_frame {F G : Type} (t : turn F) (f : G) : turn G :=
  match t with
  | Continue g l _ => Continue g l f
  | Break g l _ => Break g l f
  end.

(** The byte that introduces a block: the two reads at the head of the loop
    of [gd_get_frame]. *)
Definition block_byte : M Z :=
  sep <- gif_buf_read ;; if sep =? 0 then gif_buf_read else mret sep.

(** The first [n] turns of the outer loop of [read_image_data] (fewer when
    the loop breaks before). *)
Fixpoint lzw_turns (n fuel : nat) (interlace init_key_size clear stop : Z)
         (gif : gd_GIF) (l : locals) (frame : list Z) : M (turn (list Z)) :=
  match n with
  | O => mret (Continue gif l frame)
  | S n' =>
      t <- lzw_step fuel interlace init_key_size clear stop gif l frame ;;
      match t with
      | Continue gif' l' frame' =>
          lzw_turns n' fuel interlace init_key_size clear stop gif' l' frame'
      | Break _ _ _ => mret t
      end
  end.

(** [safe c w]: the reader either refills at its next read or has its index
    within the first [c] bytes of the buffer. *)
Definition safe (c : Z) (w : GifClass) : Prop :=
  gif_buf_idx w = gif_buf_last_idx w \/ 0 <= gif_buf_idx w <= c.

(** The reader as [gd_open_gif] sets it up on [f]. *)
Definition reader_at_open (f : File) (w0 : GifClass) : GifClass :=
  mkGifClass f (gif_buf w0) GIF_BUF_SIZE GIF_BUF_SIZE 0.

Definition turn_locals {F : Type} (t : turn F) : locals :=
  match t with Continue _ l _ | Break _ l _ => l end.

(** The entry count is within the table, and below its end while the table
    is not marked full. *)
Definition table_inv (l : locals) (t : gd_Table) : Prop :=
  nentries t <= 4096 /\ (table_is_full l = false -> nentries t < 4096).

(** The rows of a frame of height [h], top to bottom. *)
Definition rows (h : Z) : list Z := map Z.of_nat (seq 0 (Z.to_nat h)).

(** The four-pass interlace order of the rows of a frame, written from its
    description: the rows congruent to 0 modulo 8, then those congruent to
    4 modulo 8, then those congruent to 2 modulo 4, then the odd rows. *)
Definition four_pass_order (h : Z) : list Z :=
  filter (fun r => r mod 8 =? 0) (rows h)
  ++ filter (fun r => r mod 8 =? 4) (rows h)
  ++ filter (fun r => r mod 4 =? 2) (rows h)
  ++ filter (fun r => r mod 2 =? 1) (rows h).

(** [interlaced_line_index] over all linear rows of a frame of height [h],
    compared with the four-pass order. *)
Definition interlace_agrees (h : Z) : bool :=
  if list_eq_dec Z.eq_dec (map (interlaced_line_index h) (rows h))
                 (four_pass_order h)
  then true else false.

(** ** Vocabulary of the reader on buffered bytes *)

(** The reader [n] bytes further on in its buffer. *)
Definition advance (n : Z) (w : GifClass) : GifClass :=
  mkGifClass (fd w) (gif_buf w) (gif_buf_last_idx w) (gif_buf_idx w + n)
             (s16 (file_pos w + n)).

(** [buffered bs w]: the bytes the reader serves next are [bs], and the
    buffer holds all of them already; the position counter, an [int16_t],
    is in its range. *)
Definition buffered (bs : list Z) (w : GifClass) : Prop :=
  -32768 <= file_pos w < 32768
  /\ 0 <= gif_buf_idx w
  /\ gif_buf_idx w + Z.of_nat (length bs) <= gif_buf_last_idx w
  /\ gif_buf_last_idx w <= GIF_BUF_SIZE
  /\ map byte_to_Z
         (firstn (length bs) (skipn (Z.to_nat (gif_buf_idx w)) (gif_buf w)))
     = bs.

(** A chain of data sub-blocks as it lies in the stream: each block is its
    size byte followed by its bytes, and a zero size byte ends the chain. *)
Fixpoint sub_blocks (blocks : list (list Z)) : list Z :=
  match blocks with
  | [] => [0]
  | d :: t => Z.of_nat (length d) :: d ++ sub_blocks t
  end.

(** The labels [read_ext] dispatches on. *)
Definition known_label (label : Z) : bool :=
  (label =? 0x01) || (label =? 0xF9) || (label =? 0xFE) || (label =? 0xFF).

(** ** Vocabulary of the dictionary *)

(** The entry [reset_table] stores for the pixel index [k]: a string of
    length one with no prefix. *)
Definition root_entry (k : Z) : gd_Entry := mkEntry 1 0xFFF (u8 k).

(** [roots m t]: the table has its 4096 entries, the first [2^m] of them
    are the single-pixel entries and the entry count is beyond the clear
    and stop codes. *)
Definition roots (m : Z) (t : gd_Table) : Prop :=
  length (entries t) = 4096%nat
  /\ 2 ^ m + 2 <= nentries t
  /\ forall k, 0 <= k < 2 ^ m -> znth k (entries t) zero_entry = root_entry k.

(** ** Vocabulary of the code reader *)

(** The statement of [get_key] that loads the next data byte: at the end
    of a sub-block the size byte of the next one is read first.  The
    result is the updated [sub_len] and the byte. *)
Definition next_data_byte (sub_len : Z) : M (Z * Z) :=
  sl <- (if sub_len =? 0 then gif_buf_read else mret sub_len) ;;
  b <- gif_buf_read ;;
  mret (u8 (sl - 1), b).

(** The next [n] data bytes, and [sub_len] after them. *)
Fixpoint data_bytes (n : nat) (sub_len : Z) : M (list Z * Z) :=
  match n with
  | O => mret ([], sub_len)
  | S n' =>
      ' (sl, b) <- next_data_byte sub_len ;;
      ' (ds, sl') <- data_bytes n' sl ;;
      mret (b :: ds, sl')
  end.

(** The number a list of bytes stands for, least significant byte
    first. *)
Fixpoint le_value (bs : list Z) : Z :=
  match bs with
  | [] => 0
  | b :: t => b + 256 * le_value t
  end.

(** The bits of the current byte a key can still take: none when [shift]
    is 0 (the byte is used up, or none was loaded yet), else those from
    bit [shift] on. *)
Definition bits_available (shift : Z) : Z :=
  if shift =? 0 then 0 else 8 - shift.

(** The data bytes a key of [key_size] bits has to load. *)
Definition bytes_needed (key_size shift : Z) : nat :=
  Z.to_nat ((key_size - bits_available shift + 7) / 8).

(** The unread bits as a number: those left of the current byte, then the
    bytes [ds] that follow it. *)
Definition bits_left (shift byte_ : Z) (ds : list Z) : Z :=
  if shift =? 0 then le_value ds
  else byte_ / 2 ^ shift + 2 ^ (8 - shift) * le_value ds.

(** ** The player ([playGif])

    What is outside the sketch is a parameter of the embedding: the node
    [LittleFS.open] finds under the file name, the block [malloc] returns
    for the frame buffer ([None] when it fails, else what the block holds)
    and the size of the display.  The calls to the display driver and to
    [delay] are recorded in the order they are made. *)







(** The part of the session that is fixed when it is opened. *)
Definition same_canvas (g g' : gd_GIF) : Prop :=
  width g' = width g /\ height g' = height g /\ depth g' = depth g
  /\ bgindex g' = bgindex g /\ anim_start g' = anim_start g
  /\ gct g' = gct g.

(** * Concrete inputs

    Streams and reader states on which the properties below are evaluated. *)

Definition bytes (l : list Z) : list byte := map byte_of_Z l.

(** The reader of a [GifClass] object that has read nothing yet: the object
    is static, so its buffer starts zeroed. *)
Definition fresh_GifClass : GifClass :=
  mkGifClass (mkFile [] 0) (repeat x00 1024) 0 0 0.

(** A reader about to refill from [f], as [gd_open_gif] sets it up. *)
Definition reader_on (f : list byte) : GifClass :=
  mkGifClass (mkFile f 0) (repeat x00 1024) 1024 1024 0.

(** Black and white, as two palette entries. *)
Definition bw_table : list byte := bytes [0; 0; 0; 255; 255; 255].

Definition bw_palette : gd_Palette :=
  mkPalette 2 ([0; 65535] ++ repeat 0 254).

Definition after_bw_table : GifClass :=
  Eval vm_compute in
    match read_palette zero_palette 2 (reader_on bw_table) with
    | Ok (_, w) => w
    | _ => fresh_GifClass
    end.

(** A 2x2 canvas with the global table [black; white]. *)
Definition gif_header : list Z :=
  [71; 73; 70; 56; 57; 97; 2; 0; 2; 0; 0x80; 0; 0; 0; 0; 0; 255; 255; 255].

(** An image block covering the canvas, minimum code size 2, with the
    sub-block bytes [d] as its data. *)
Definition image_block (d : list Z) : list Z :=
  [0x2C; 0; 0; 0; 0; 2; 0; 2; 0; 0; 2] ++ d.

(** Codes clear, 0, 1, 1, 0, stop: the pixels [0; 1; 1; 0]. *)
Definition data_0110 : list Z := [3; 0x44; 0x02; 0x05; 0].

(** Codes clear, 1, 0, 0, 1, stop: the pixels [1; 0; 0; 1]. *)
Definition data_1001 : list Z := [3; 0x0C; 0x10; 0x05; 0].

Definition one_frame : list byte :=
  bytes (gif_header ++ image_block data_0110 ++ [0x3B]).


(** Two frames and no graphic control extension at all. *)
Definition two_frames_plain : list byte :=
  bytes (gif_header ++ image_block data_0110 ++ image_block data_1001
         ++ [0x3B]).

Definition zero_GIF : gd_GIF :=
  mkGIF 0 0 0 0 0 (mkGCE 0 0 0 0 0) Gct zero_palette zero_palette 0 0 0 0 0
        (mkTable 0 []) false.


(** [one_frame] cut after the first byte of its image data. *)
Definition truncated : list byte := firstn 32 one_frame.

(** [one_frame] opened: the session and the reader before the first
    [gd_get_frame]. *)
Definition opened : gd_GIF * GifClass :=
  Eval vm_compute in
    match gd_open_gif (mkFile one_frame 0) [] fresh_GifClass with
    | Ok (Some g, w) => (g, w)
    | _ => (zero_GIF, fresh_GifClass)
    end.

(** ... and after the first [gd_get_frame] into [[9; 9; 9; 9]]. *)
Definition first_pulled : gd_GIF * GifClass :=
  Eval vm_compute in
    match gd_get_frame 100 (fst opened) [9; 9; 9; 9] (snd opened) with
    | Ok (_, g, _, w) => (g, w)
    | _ => (zero_GIF, fresh_GifClass)
    end.


(** [two_frames_plain] opened. *)
Definition plain_opened : gd_GIF * GifClass :=
  Eval vm_compute in
    match gd_open_gif (mkFile two_frames_plain 0) [] fresh_GifClass with
    | Ok (Some g, w) => (g, w)
    | _ => (zero_GIF, fresh_GifClass)
    end.

(** ... its first frame pulled and the image descriptor of the second
    read: the entry state of the second [read_image_data]. *)
Definition plain_at_second : gd_GIF * GifClass :=
  Eval vm_compute in
    match gd_get_frame 100 (fst plain_opened) [9; 9; 9; 9]
                       (snd plain_opened) with
    | Ok (_, g, _, w) =>
        match gif_buf_read_into 10 w with
        | Ok (_, w1) => (set_palette (set_rect g 0 0 2 2) Gct (lct g), w1)
        | _ => (zero_GIF, fresh_GifClass)
        end
    | _ => (zero_GIF, fresh_GifClass)
    end.

Definition plain_after_second : gd_GIF * GifClass :=
  Eval vm_compute in
    match read_image_data 100 (fst plain_at_second) 0 [0; 1; 1; 0]
                          (snd plain_at_second) with
    | Ok (_, g, _, w) => (g, w)
    | _ => (zero_GIF, fresh_GifClass)
    end.

(** Codes clear, 0, 1, clear, 1, 0, stop, three bits each: the pixels
    [0; 1; 1; 0] written with a clear code after every two codes, so that
    the dictionary never holds eight entries. *)
Definition data_cleared : list Z := [3; 0x44; 0x18; 0x14; 0].

Definition cleared_frame : list byte :=
  bytes (gif_header ++ image_block data_cleared ++ [0x3B]).

(** [cleared_frame] opened and the image descriptor read. *)
Definition cleared_at_data : gd_GIF * GifClass :=
  Eval vm_compute in
    match gd_open_gif (mkFile cleared_frame 0) [] fresh_GifClass with
    | Ok (Some g, w) =>
        match gif_buf_read_into 10 w with
        | Ok (_, w1) => (set_palette (set_rect g 0 0 2 2) Gct (lct g), w1)
        | _ => (zero_GIF, fresh_GifClass)
        end
    | _ => (zero_GIF, fresh_GifClass)
    end.

(** The key just read, the key size and the entry count after [n] turns of
    the decode of [cleared_frame]. *)
Definition cleared_after (n : nat) : option (Z * Z * Z) :=
  match lzw_init (fst cleared_at_data) (snd cleared_at_data) with
  | Ok (iks, clear, stop, g, l, w) =>
      match lzw_turns n 100 0 iks clear stop g l [9; 9; 9; 9] w with
      | Ok (Continue g' l' _, _) =>
          Some (key l', key_size l', nentries (table g'))
      | _ => None
      end
  | _ => None
  end.

(** A file whose byte at offset [i] is [i mod 256]. *)
Definition ramp (n : nat) : list byte :=
  map (fun i => byte_of_Z (Z.of_nat i)) (seq 0 n).


(** ** Further concrete inputs *)

(** A reader that has just filled its buffer from a file holding the bytes
    [l]. *)
Definition loaded (l : list Z) : GifClass := refill (reader_on (bytes l)).




(** An extension with a label the decoder does not know. *)
Definition unknown_block : list Z := [33; 0x55; 2; 7; 7; 0; 59].


(** The decode of [cleared_frame] set up, and its first turn: the key read
    is the literal 0. *)
Definition literal_turn_start : gd_GIF * locals * GifClass :=
  Eval vm_compute in
    match lzw_init (fst cleared_at_data) (snd cleared_at_data) with
    | Ok (_, _, _, g, l, w) => (g, l, w)
    | _ => (zero_GIF, mkLocals 0 0 0 0 0 false 0 zero_entry 0 0,
            fresh_GifClass)
    end.

Definition literal_turn_end : turn (list Z) * GifClass :=
  Eval vm_compute in
    match lzw_step 100 0 3 4 5 (fst (fst literal_turn_start))
                   (snd (fst literal_turn_start)) [9; 9; 9; 9]
                   (snd literal_turn_start) with
    | Ok r => r
    | _ => (Break zero_GIF (snd (fst literal_turn_start)) [], fresh_GifClass)
    end.



(** * Properties *)

(** ** Arrays *)

Lemma upd_nat_length {A : Type} (n : nat) (v : A) (l : list A) :
  length (upd_nat n v l) = length l.
Proof.
  revert n; induction l as [|x t IH]; intros [|n]; simpl; auto.
Qed.

Lemma zupd_length {A : Type} (i : Z) (v : A) (l : list A) :
  length (zupd i v l) = length l.
Proof.
  unfold zupd; destruct (i <? 0); auto using upd_nat_length.
Qed.

Lemma nth_upd_nat_same {A : Type} (n : nat) (v d : A) (l : list A) :
  (n < length l)%nat -> nth n (upd_nat n v l) d = v.
Proof.
  revert n; induction l as [|x t IH]; intros [|n] H; simpl in *;
    try lia; auto.
  apply IH; lia.
Qed.

Lemma nth_upd_nat_other {A : Type} (n m : nat) (v d : A) (l : list A) :
  n <> m -> nth m (upd_nat n v l) d = nth m l d.
Proof.
  revert n m; induction l as [|x t IH]; intros [|n] [|m] H; simpl;
    try congruence; auto.
Qed.

Lemma znth_zupd_same {A : Type} (i : Z) (v d : A) (l : list A) :
  0 <= i < Z.of_nat (length l) -> znth i (zupd i v l) d = v.
Proof.
  intros H; unfold znth, zupd.
  destruct (Z.ltb_spec i 0); [lia|].
  apply nth_upd_nat_same; lia.
Qed.

Lemma znth_zupd_other {A : Type} (i j : Z) (v d : A) (l : list A) :
  0 <= j -> i <> j -> znth j (zupd i v l) d = znth j l d.
Proof.
  intros Hj H; unfold znth, zupd.
  destruct (Z.ltb_spec i 0); auto.
  apply nth_upd_nat_other; lia.
Qed.

Lemma zin_spec (i n : Z) : zin i n = true <-> 0 <= i < n.
Proof.
  unfold zin; rewrite andb_true_iff, Z.leb_le, Z.ltb_lt; tauto.
Qed.

(** ** The monad *)

Lemma bind_Ok {A B : Type} (m : M A) (k : A -> M B) (w : GifClass)
      (r : B * GifClass) :
  bind m k w = Ok r -> exists a w1, m w = Ok (a, w1) /\ k a w1 = Ok r.
Proof.
  unfold bind; destruct (m w) as [[a w1]| |]; try discriminate; eauto.
Qed.

Lemma bind_run {A B : Type} (m : M A) (k : A -> M B) (w w1 : GifClass)
      (a : A) :
  m w = Ok (a, w1) -> bind m k w = k a w1.
Proof. intros H; unfold bind; rewrite H; reflexivity. Qed.

Lemma lift_Ok {A : Type} (o : outcome A) (w : GifClass) (r : A * GifClass) :
  lift o w = Ok r -> o = Ok (fst r) /\ snd r = w.
Proof.
  unfold lift; destruct o; try discriminate.
  intros H; inversion H; auto.
Qed.

Lemma mret_Ok {A : Type} (a : A) (w : GifClass) (r : A * GifClass) :
  mret a w = Ok r -> r = (a, w).
Proof. unfold mret; congruence. Qed.

(** Invert one monadic step of a hypothesis [H : (x <- m ;; k) w = Ok r]. *)
Ltac step H :=
  let a := fresh "a" in
  let w := fresh "w" in
  let E := fresh "E" in
  apply bind_Ok in H; destruct H as (a & w & E & H).

(** ** Machine integers *)

Lemma s16_small (z : Z) : -32768 <= z < 32768 -> s16 z = z.
Proof. intros H; unfold s16; rewrite Z.mod_small; lia. Qed.

(** ** Bytes *)

Lemma byte_to_Z_range (b : byte) : 0 <= byte_to_Z b < 256.
Proof.
  unfold byte_to_Z; pose proof (Byte.to_N_bounded b); lia.
Qed.

Lemma gif_buf_read_range (w w' : GifClass) (b : Z) :
  gif_buf_read w = Ok (b, w') -> 0 <= b < 256.
Proof.
  unfold gif_buf_read.
  destruct (zin _ _); [|discriminate].
  intros H; inversion H; apply byte_to_Z_range.
Qed.

(** ** The reader *)

Lemma gif_buf_read_into_cons (n : nat) (w w1 w2 : GifClass) (b : Z)
      (bs : list Z) :
  gif_buf_read w = Ok (b, w1) ->
  gif_buf_read_into n w1 = Ok (bs, w2) ->
  gif_buf_read_into (S n) w = Ok (b :: bs, w2).
Proof.
  intros H1 H2; simpl; unfold bind; rewrite H1, H2; reflexivity.
Qed.

Lemma gif_buf_read_safe (c : Z) (w : GifClass) :
  0 <= c < 1024 -> safe c w ->
  exists b w', gif_buf_read w = Ok (b, w') /\ safe (c + 1) w'.
Proof.
  intros Hc Hs; unfold gif_buf_read, refill.
  destruct (Z.eqb_spec (gif_buf_idx w) (gif_buf_last_idx w)) as [E|E].
  - destruct (File_read _ _ _) as [[k buf] f']; simpl.
    do 2 eexists; split; [reflexivity|].
    right; simpl; rewrite s16_small; lia.
  - destruct Hs as [Hs|Hs]; [contradiction|].
    replace (zin (gif_buf_idx w) GIF_BUF_SIZE) with true
      by (symmetry; apply zin_spec; unfold GIF_BUF_SIZE; lia).
    do 2 eexists; split; [reflexivity|].
    right; simpl; rewrite s16_small; lia.
Qed.

Lemma gif_buf_read_into_safe (n : nat) :
  forall (c : Z) (w : GifClass),
    0 <= c -> c + Z.of_nat n <= 1024 -> safe c w ->
    exists bs w', gif_buf_read_into n w = Ok (bs, w')
                  /\ safe (c + Z.of_nat n) w'.
Proof.
  induction n as [|n IH]; intros c w Hc Hn Hs.
  - exists [], w; split; [reflexivity|].
    replace (c + Z.of_nat 0) with c by lia; exact Hs.
  - destruct (gif_buf_read_safe c w ltac:(lia) Hs) as (b & w1 & E1 & S1).
    destruct (IH (c + 1) w1 ltac:(lia) ltac:(lia) S1) as (bs & w2 & E2 & S2).
    exists (b :: bs), w2; split.
    + eapply gif_buf_read_into_cons; eauto.
    + replace (c + Z.of_nat (S n)) with (c + 1 + Z.of_nat n) by lia.
      exact S2.
Qed.

Lemma read_palette_loop_safe (n : nat) :
  forall (i c : Z) (dest : gd_Palette) (w : GifClass),
    0 <= c -> c + 3 * Z.of_nat n <= 1024 ->
    0 <= i -> i + Z.of_nat n <= 256 ->
    safe c w ->
    exists pal w', read_palette_loop n i dest w = Ok (pal, w')
                   /\ safe (c + 3 * Z.of_nat n) w'.
Proof.
  induction n as [|n IH]; intros i c dest w Hc Hn Hi Hin Hs.
  - exists dest, w; split; [reflexivity|].
    replace (c + 3 * Z.of_nat 0) with c by lia; exact Hs.
  - destruct (gif_buf_read_safe c w ltac:(lia) Hs) as (r & w1 & E1 & S1).
    destruct (gif_buf_read_safe (c + 1) w1 ltac:(lia) S1)
      as (g & w2 & E2 & S2).
    destruct (gif_buf_read_safe (c + 1 + 1) w2 ltac:(lia) S2)
      as (b & w3 & E3 & S3).
    destruct (IH (i + 1) (c + 1 + 1 + 1)
                 (mkPalette (pal_len dest)
                            (zupd i (rgb565 r g b) (colors dest)))
                 w3 ltac:(lia) ltac:(lia) ltac:(lia) ltac:(lia) S3)
      as (pal & w4 & E4 & S4).
    exists pal, w4; split.
    + simpl.
      rewrite (bind_run _ _ _ _ _ E1), (bind_run _ _ _ _ _ E2),
        (bind_run _ _ _ _ _ E3).
      replace (zin i 256) with true by (symmetry; apply zin_spec; lia).
      exact E4.
    + replace (c + 3 * Z.of_nat (S n)) with (c + 1 + 1 + 1 + 3 * Z.of_nat n)
        by lia.
      exact S4.
Qed.

Lemma skipn_nth_cons {A : Type} (d : A) (l : list A) :
  forall i, (i < length l)%nat -> skipn i l = nth i l d :: skipn (S i) l.
Proof.
  induction l as [|x t IH]; intros [|i] H; simpl in *; try lia; auto.
  apply IH; lia.
Qed.

(** Reads served from the buffer, with no refill on the way, return its
    bytes in order. *)
Lemma gif_buf_read_into_buffered (n : nat) :
  forall (w : GifClass),
    0 <= gif_buf_idx w ->
    gif_buf_idx w + Z.of_nat n <= gif_buf_last_idx w
    \/ gif_buf_last_idx w < gif_buf_idx w ->
    gif_buf_idx w + Z.of_nat n <= 1024 ->
    gif_buf_idx w + Z.of_nat n <= Z.of_nat (length (gif_buf w)) ->
    exists fp,
      gif_buf_read_into n w
      = Ok (map byte_to_Z
                (firstn n (skipn (Z.to_nat (gif_buf_idx w)) (gif_buf w))),
            mkGifClass (fd w) (gif_buf w) (gif_buf_last_idx w)
                       (gif_buf_idx w + Z.of_nat n) fp).
Proof.
  induction n as [|n IH]; intros w H0 H1 H2 H3.
  - exists (file_pos w); simpl; rewrite Z.add_0_r; destruct w; reflexivity.
  - assert (E : gif_buf_read w
                = Ok (byte_to_Z (znth (gif_buf_idx w) (gif_buf w) x00),
                      mkGifClass (fd w) (gif_buf w) (gif_buf_last_idx w)
                                 (gif_buf_idx w + 1) (s16 (file_pos w + 1)))).
    { unfold gif_buf_read, refill.
      destruct (Z.eqb_spec (gif_buf_idx w) (gif_buf_last_idx w)); [lia|].
      replace (zin (gif_buf_idx w) GIF_BUF_SIZE) with true
        by (symmetry; apply zin_spec; unfold GIF_BUF_SIZE; lia).
      rewrite s16_small by lia; reflexivity. }
    destruct (IH (mkGifClass (fd w) (gif_buf w) (gif_buf_last_idx w)
                             (gif_buf_idx w + 1) (s16 (file_pos w + 1))))
      as (fp & E'); [simpl; lia|simpl; lia|simpl; lia|simpl; lia|].
    exists fp.
    rewrite (skipn_nth_cons x00) by lia.
    rewrite firstn_cons; simpl map.
    eapply gif_buf_read_into_cons; [exact E|].
    simpl in E'; replace (Z.to_nat (gif_buf_idx w + 1))
      with (S (Z.to_nat (gif_buf_idx w))) in E' by lia.
    replace (gif_buf_idx w + Z.of_nat (S n))
      with (gif_buf_idx w + 1 + Z.of_nat n) by lia.
    exact E'.
Qed.

Lemma gif_buf_read_into_inv (n : nat) (w w' : GifClass) (l : list Z) :
  gif_buf_read_into (S n) w = Ok (l, w') ->
  exists b bs w1,
    l = b :: bs /\ gif_buf_read w = Ok (b, w1)
    /\ gif_buf_read_into n w1 = Ok (bs, w').
Proof.
  simpl; intros H.
  apply bind_Ok in H; destruct H as (b1 & w1 & E1 & H).
  apply bind_Ok in H; destruct H as (t & w2 & E2 & H).
  apply mret_Ok in H; injection H as -> ->; eauto 6.
Qed.

Lemma gif_buf_read_into_app (a : nat) :
  forall (b : nat) (w w1 w2 : GifClass) (xs ys : list Z),
    gif_buf_read_into a w = Ok (xs, w1) ->
    gif_buf_read_into b w1 = Ok (ys, w2) ->
    gif_buf_read_into (a + b) w = Ok (xs ++ ys, w2).
Proof.
  induction a as [|a IH]; intros b w w1 w2 xs ys H1 H2.
  - apply mret_Ok in H1; injection H1 as -> ->; exact H2.
  - apply gif_buf_read_into_inv in H1.
    destruct H1 as (x & t & w0 & -> & E & H1).
    simpl app; change (S a + b)%nat with (S (a + b)).
    eapply gif_buf_read_into_cons; [exact E|]; eapply IH; eauto.
Qed.

Lemma gif_buf_read_byte (w w' : GifClass) (b : Z) :
  gif_buf_read w = Ok (b, w') -> exists x : byte, b = byte_to_Z x.
Proof.
  unfold gif_buf_read; destruct (zin _ _); [|discriminate].
  intros H; injection H as <- _; eauto.
Qed.

Lemma gif_buf_read_refill (w : GifClass) :
  refill (refill w) = refill w -> gif_buf_read (refill w) = gif_buf_read w.
Proof. intros H; unfold gif_buf_read; rewrite H; reflexivity. Qed.

Lemma gif_buf_read_into_refill (n : nat) (w : GifClass) :
  refill (refill w) = refill w ->
  gif_buf_read_into (S n) (refill w) = gif_buf_read_into (S n) w.
Proof.
  intros H; simpl; unfold bind at 1 3.
  rewrite (gif_buf_read_refill _ H); reflexivity.
Qed.


(** The first refill after [gd_open_gif] has set the reader up. *)
Lemma refill_at_open (f : File) (w0 : GifClass) :
  fpos f = 0 ->
  refill (reader_at_open f w0)
  = mkGifClass
      (mkFile (content f)
              (Z.of_nat (length (firstn (Z.to_nat GIF_BUF_SIZE) (content f)))))
      (firstn (Z.to_nat GIF_BUF_SIZE) (content f)
       ++ skipn (length (firstn (Z.to_nat GIF_BUF_SIZE) (content f)))
                (gif_buf w0))
      (Z.of_nat (length (firstn (Z.to_nat GIF_BUF_SIZE) (content f)))) 0 0.
Proof.
  intros Hp.
  unfold refill, reader_at_open, File_read; simpl gif_buf_idx;
    simpl gif_buf_last_idx; rewrite Z.eqb_refl; simpl fd; simpl gif_buf.
  rewrite Hp; change (skipn (Z.to_nat 0) (content f)) with (content f).
  rewrite s16_small; [reflexivity|].
  pose proof (firstn_le_length (Z.to_nat GIF_BUF_SIZE) (content f)) as H.
  assert (E : Z.to_nat GIF_BUF_SIZE = 1024%nat) by reflexivity.
  rewrite E in *; lia.
Qed.

(** The first eleven bytes [gd_open_gif] reads from a stream that has
    them are the first eleven bytes of the stream. *)
Lemma reader_at_open_reads (f : File) (w0 : GifClass) :
  fpos f = 0 -> (11 <= length (content f))%nat ->
  exists w',
    gif_buf_read_into 11 (reader_at_open f w0)
    = Ok (map byte_to_Z (firstn 11 (content f)), w')
    /\ safe 11 w'.
Proof.
  intros Hp Hl.
  pose proof (refill_at_open f w0 Hp) as Er.
  set (chunk := firstn (Z.to_nat GIF_BUF_SIZE) (content f)) in *.
  assert (Hc : (11 <= length chunk <= 1024)%nat).
  { unfold chunk; rewrite length_firstn.
    change (Z.to_nat GIF_BUF_SIZE) with 1024%nat; lia. }
  assert (Ei : refill (refill (reader_at_open f w0))
               = refill (reader_at_open f w0)).
  { rewrite Er; unfold refill; cbn [gif_buf_idx gif_buf_last_idx].
    destruct (Z.eqb_spec 0 (Z.of_nat (length chunk))); [lia|reflexivity]. }
  destruct (gif_buf_read_into_buffered 11 (refill (reader_at_open f w0)))
    as (fp & E);
    try (rewrite Er; simpl; rewrite ?length_app; lia).
  rewrite gif_buf_read_into_refill in E by exact Ei.
  rewrite Er in E; cbn [gif_buf_idx gif_buf fd gif_buf_last_idx] in E.
  eexists; split.
  - rewrite E; apply (f_equal2 (fun a b => Ok (a, b))); [|reflexivity].
    change (Z.to_nat 0) with 0%nat; simpl skipn.
    rewrite firstn_app.
    replace (11 - length chunk)%nat with 0%nat by lia.
    rewrite firstn_O, app_nil_r; unfold chunk; rewrite firstn_firstn.
    replace (Nat.min 11 (Z.to_nat GIF_BUF_SIZE)) with 11%nat
      by (change (Z.to_nat GIF_BUF_SIZE) with 1024%nat; lia).
    reflexivity.
  - right; simpl; lia.
Qed.

(** On a stream of one to ten bytes the reader runs out before the
    eleventh read, refills nothing, and goes on from the start of its
    buffer, which holds the stream followed by what it held before. *)
Lemma reader_at_open_wraps (f : File) (w0 : GifClass) :
  fpos f = 0 -> (1 <= length (content f) <= 10)%nat ->
  length (gif_buf w0) = 1024%nat ->
  exists w',
    gif_buf_read_into 11 (reader_at_open f w0)
    = Ok (map byte_to_Z
            (content f
             ++ firstn (11 - length (content f))
                       (content f
                        ++ skipn (length (content f)) (gif_buf w0))), w')
    /\ safe 11 w'.
Proof.
  intros Hp Hl Hb.
  pose proof (refill_at_open f w0 Hp) as Er.
  assert (Hc : firstn (Z.to_nat GIF_BUF_SIZE) (content f) = content f).
  { apply firstn_all2; change (Z.to_nat GIF_BUF_SIZE) with 1024%nat; lia. }
  rewrite Hc in Er.
  set (L := length (content f)) in *.
  set (B := content f ++ skipn L (gif_buf w0)) in *.
  assert (HB : length B = 1024%nat).
  { unfold B; rewrite length_app, length_skipn; fold L; lia. }
  assert (Ei : refill (refill (reader_at_open f w0))
               = refill (reader_at_open f w0)).
  { rewrite Er; unfold refill; cbn [gif_buf_idx gif_buf_last_idx].
    destruct (Z.eqb_spec 0 (Z.of_nat L)); [lia|reflexivity]. }
  (* the bytes of the stream *)
  destruct (gif_buf_read_into_buffered L (refill (reader_at_open f w0)))
    as (fp1 & E1); try (rewrite Er; simpl; lia).
  rewrite Er in E1; cbn [gif_buf_idx gif_buf fd gif_buf_last_idx] in E1.
  change (Z.to_nat 0) with 0%nat in E1; simpl skipn in E1.
  assert (HfL : firstn L B = content f).
  { unfold B; rewrite firstn_app; fold L.
    rewrite Nat.sub_diag, firstn_O, app_nil_r; apply firstn_all. }
  rewrite HfL in E1.
  (* the read that finds the file exhausted *)
  set (w1 := mkGifClass (mkFile (content f) (Z.of_nat L)) B (Z.of_nat L)
                        (0 + Z.of_nat L) fp1) in *.
  assert (E2 : gif_buf_read w1
               = Ok (byte_to_Z (znth 0 B x00),
                     mkGifClass (mkFile (content f) (Z.of_nat L + 0)) B 0 1
                                (s16 (fp1 + 1)))).
  { unfold gif_buf_read, refill, w1, File_read;
      cbn [gif_buf_idx gif_buf fd gif_buf_last_idx file_pos fpos content].
    rewrite Z.add_0_l, Z.eqb_refl, Nat2Z.id.
    rewrite skipn_all2 by (unfold L; lia).
    rewrite firstn_nil; reflexivity. }
  (* the reads from the start of the buffer *)
  destruct (gif_buf_read_into_buffered (10 - L)
              (mkGifClass (mkFile (content f) (Z.of_nat L + 0)) B 0 1
                          (s16 (fp1 + 1))))
    as (fp3 & E3);
    try (cbn [gif_buf_idx gif_buf gif_buf_last_idx]; lia).
  cbn [gif_buf_idx gif_buf fd gif_buf_last_idx] in E3.
  pose proof (gif_buf_read_into_cons _ _ _ _ _ _ E2 E3) as E23.
  assert (E0 : gif_buf_read_into L (reader_at_open f w0)
               = Ok (map byte_to_Z (content f), w1)).
  { destruct L as [|L'] eqn:EL; [lia|].
    rewrite <- gif_buf_read_into_refill by exact Ei.
    rewrite Er; exact E1. }
  pose proof (gif_buf_read_into_app _ _ _ _ _ _ _ E0 E23) as E.
  replace (L + S (10 - L))%nat with 11%nat in E by lia.
  eexists; split.
  - rewrite E; apply (f_equal2 (fun a b => Ok (a, b))); [|reflexivity].
    rewrite map_app; f_equal.
    replace (11 - L)%nat with (S (10 - L)) by lia.
    destruct B as [|x t]; [discriminate|reflexivity].
  - unfold safe; right; cbn [gif_buf_idx]; lia.
Qed.

(** ** Palette conversion *)

Section Palette.

Lemma log2_below (a n : Z) : 0 < n -> 0 <= a < 2 ^ n -> Z.log2 a < n.
Proof.
  intros Hn [H0 H1].
  destruct (Z.eq_dec a 0) as [->|Hne]; [simpl; lia|].
  apply Z.log2_lt_pow2; lia.
Qed.

Lemma below_log2 (a n : Z) : 0 < n -> 0 <= a -> Z.log2 a < n -> a < 2 ^ n.
Proof.
  intros Hn H0 H1.
  destruct (Z.eq_dec a 0) as [->|Hne]; [apply Z.pow_pos_nonneg; lia|].
  apply Z.log2_lt_pow2; lia.
Qed.

Lemma lor_below (a b n : Z) :
  0 < n -> 0 <= a < 2 ^ n -> 0 <= b < 2 ^ n -> 0 <= Z.lor a b < 2 ^ n.
Proof.
  intros Hn Ha Hb; split; [apply Z.lor_nonneg; lia|].
  apply below_log2; [lia|apply Z.lor_nonneg; lia|].
  rewrite Z.log2_lor by lia.
  pose proof (log2_below a n Hn Ha); pose proof (log2_below b n Hn Hb); lia.
Qed.

Lemma land_below (a m n : Z) :
  0 < n -> 0 <= a -> 0 <= m < 2 ^ n -> 0 <= Z.land a m < 2 ^ n.
Proof.
  intros Hn Ha Hm; split; [apply Z.land_nonneg; lia|].
  apply below_log2; [lia|apply Z.land_nonneg; lia|].
  pose proof (Z.log2_land a m Ha ltac:(lia)).
  pose proof (log2_below m n Hn Hm); lia.
Qed.

(** The value stored by [read_palette] is the 5-6-5 expression itself:
    the store into [uint16_t] truncates nothing. *)
Lemma rgb565_exact (r g b : Z) :
  0 <= r < 256 -> 0 <= g < 256 -> 0 <= b < 256 ->
  rgb565 r g b =
    Z.lor (Z.lor (Z.shiftl (Z.land r 0xF8) 8) (Z.shiftl (Z.land g 0xFC) 3))
          (Z.shiftr (Z.land b 0xF8) 3)
  /\ 0 <= rgb565 r g b < 65536.
Proof.
  intros Hr Hg Hb.
  assert (Br : 0 <= Z.land r 0xF8 < 2 ^ 8) by (apply land_below; lia).
  assert (Bg : 0 <= Z.land g 0xFC < 2 ^ 8) by (apply land_below; lia).
  assert (Bb : 0 <= Z.land b 0xF8 < 2 ^ 8) by (apply land_below; lia).
  assert (B : 0 <= Z.lor (Z.lor (Z.shiftl (Z.land r 0xF8) 8)
                                (Z.shiftl (Z.land g 0xFC) 3))
                         (Z.shiftr (Z.land b 0xF8) 3) < 2 ^ 16).
  { apply lor_below; [lia| |].
    - apply lor_below; [lia| |]; rewrite Z.shiftl_mul_pow2 by lia.
      + change (2 ^ 8) with 256 in *; change (2 ^ 16) with 65536; lia.
      + change (2 ^ 8) with 256 in *; change (2 ^ 3) with 8;
          change (2 ^ 16) with 65536; lia.
    - rewrite Z.shiftr_div_pow2 by lia.
      change (2 ^ 3) with 8; change (2 ^ 8) with 256 in *;
        change (2 ^ 16) with 65536.
      pose proof (Z.div_pos (Z.land b 248) 8 ltac:(lia) ltac:(lia)).
      pose proof (Z.div_le_upper_bound (Z.land b 248) 8 256
                    ltac:(lia) ltac:(lia)).
      lia. }
  change (2 ^ 16) with 65536 in B.
  unfold rgb565, u16; rewrite Z.mod_small by exact B; split; [reflexivity|].
  exact B.
Qed.

(** The loop of [read_palette] consumes three bytes per entry and stores
    their [rgb565] at the entry's index. *)
Lemma read_palette_loop_spec (n : nat) :
  forall (i : Z) (dest pal : gd_Palette) (w w' : GifClass),
    0 <= i -> i + Z.of_nat n <= 256 ->
    length (colors dest) = 256%nat ->
    read_palette_loop n i dest w = Ok (pal, w') ->
    exists bs,
      gif_buf_read_into (3 * n) w = Ok (bs, w')
      /\ length bs = (3 * n)%nat
      /\ (forall x, In x bs -> 0 <= x < 256)
      /\ length (colors pal) = 256%nat
      /\ pal_len pal = pal_len dest
      /\ (forall j, 0 <= j < i ->
            znth j (colors pal) 0 = znth j (colors dest) 0)
      /\ (forall j, 0 <= j < Z.of_nat n ->
            znth (i + j) (colors pal) 0 =
              rgb565 (znth (3 * j) bs 0) (znth (3 * j + 1) bs 0)
                     (znth (3 * j + 2) bs 0)).
Proof.
  induction n as [|n IH]; intros i dest pal w w' Hi Hn Hl H.
  - simpl in H; apply mret_Ok in H; inversion H; subst.
    exists []; simpl.
    split; [|split; [|split; [|split; [|split; [|split]]]]];
      auto; try tauto; intros; lia.
  - simpl in H.
    apply bind_Ok in H; destruct H as (r & w1 & Er & H).
    apply bind_Ok in H; destruct H as (g & w2 & Eg & H).
    apply bind_Ok in H; destruct H as (b & w3 & Eb & H).
    destruct (zin i 256) eqn:Ez; [|discriminate].
    apply IH in H; [|lia|simpl; lia|simpl; rewrite zupd_length; exact Hl].
    destruct H as (bs & Hbs & Hlen & Hrng & Hl' & Hpl & Hlow & Hhigh).
    exists (r :: g :: b :: bs).
    replace (3 * S n)%nat with (S (S (S (3 * n)))) by lia.
    split; [|split; [|split; [|split; [|split; [|split]]]]].
    + eapply gif_buf_read_into_cons; [exact Er|].
      eapply gif_buf_read_into_cons; [exact Eg|].
      eapply gif_buf_read_into_cons; [exact Eb|exact Hbs].
    + simpl; lia.
    + apply gif_buf_read_range in Er, Eg, Eb.
      intros x [<-|[<-|[<-|Hx]]]; auto.
    + exact Hl'.
    + exact Hpl.
    + intros j Hj; rewrite Hlow by lia; simpl.
      apply znth_zupd_other; lia.
    + intros j Hj.
      destruct (Z.eq_dec j 0) as [->|Hne].
      * rewrite Z.add_0_r, Hlow by lia; simpl colors.
        rewrite znth_zupd_same by lia. reflexivity.
      * replace (i + j) with (i + 1 + (j - 1)) by lia.
        rewrite Hhigh by lia.
        unfold znth.
        replace (Z.to_nat (3 * j)) with (S (S (S (Z.to_nat (3 * (j - 1))))))
          by lia.
        replace (Z.to_nat (3 * j + 1))
          with (S (S (S (Z.to_nat (3 * (j - 1) + 1))))) by lia.
        replace (Z.to_nat (3 * j + 2))
          with (S (S (S (Z.to_nat (3 * (j - 1) + 2))))) by lia.
        reflexivity.
Qed.

End Palette.

(** C9.  Whatever palette [read_palette] fills (the global one at open, a
    local one per image block), entry [i] is computed from the [i]-th byte
    triple [(r, g, b)] of the stream, each channel in 0..255, and the 16-bit
    value stored is exactly
    [((r & 0xF8) << 8) | ((g & 0xFC) << 3) | ((b & 0xF8) >> 3)]; black is
    stored as 0x0000 and white as 0xFFFF. *)
Theorem read_palette_rgb565 :
  forall (dest pal : gd_Palette) (num_colors : Z) (w w' : GifClass),
    0 <= num_colors <= 256 ->
    length (colors dest) = 256%nat ->
    read_palette dest num_colors w = Ok (pal, w') ->
    (exists bs,
        gif_buf_read_into (3 * Z.to_nat num_colors) w = Ok (bs, w')
        /\ forall i, 0 <= i < num_colors ->
             let r := znth (3 * i) bs 0 in
             let g := znth (3 * i + 1) bs 0 in
             let b := znth (3 * i + 2) bs 0 in
             0 <= r < 256 /\ 0 <= g < 256 /\ 0 <= b < 256
             /\ znth i (colors pal) 0 =
                  Z.lor (Z.lor (Z.shiftl (Z.land r 0xF8) 8)
                               (Z.shiftl (Z.land g 0xFC) 3))
                        (Z.shiftr (Z.land b 0xF8) 3))
    /\ rgb565 0 0 0 = 0x0000
    /\ rgb565 255 255 255 = 0xFFFF.
Proof.
  intros dest pal n w w' Hn Hl H.
  split; [|split; reflexivity].
  unfold read_palette in H.
  apply read_palette_loop_spec in H; [|lia|lia|exact Hl].
  destruct H as (bs & Hbs & Hlen & Hrng & _ & _ & _ & Hhigh).
  exists bs; split; [exact Hbs|].
  intros i Hi r g b.
  assert (In_bs : forall k, 0 <= k < 3 * n -> 0 <= znth k bs 0 < 256).
  { intros k Hk; apply Hrng; unfold znth; apply nth_In; lia. }
  assert (Hr : 0 <= r < 256) by (apply In_bs; lia).
  assert (Hg : 0 <= g < 256) by (apply In_bs; lia).
  assert (Hb : 0 <= b < 256) by (apply In_bs; lia).
  repeat split; try lia.
  specialize (Hhigh i ltac:(lia)); rewrite Z.add_0_l in Hhigh.
  rewrite Hhigh.
  apply (proj1 (rgb565_exact r g b Hr Hg Hb)).
Qed.

Lemma read_palette_rgb565_witness :
  (exists bs,
      gif_buf_read_into (3 * Z.to_nat 2) (reader_on bw_table)
        = Ok (bs, after_bw_table)
      /\ forall i, 0 <= i < 2 ->
           let r := znth (3 * i) bs 0 in
           let g := znth (3 * i + 1) bs 0 in
           let b := znth (3 * i + 2) bs 0 in
           0 <= r < 256 /\ 0 <= g < 256 /\ 0 <= b < 256
           /\ znth i (colors bw_palette) 0 =
                Z.lor (Z.lor (Z.shiftl (Z.land r 0xF8) 8)
                             (Z.shiftl (Z.land g 0xFC) 3))
                      (Z.shiftr (Z.land b 0xF8) 3))
  /\ rgb565 0 0 0 = 0x0000
  /\ rgb565 255 255 255 = 0xFFFF.
Proof.
  apply (read_palette_rgb565 zero_palette bw_palette 2 (reader_on bw_table)
                             after_bw_table);
    [lia | reflexivity | vm_compute; reflexivity].
Defined.

(** ** Interlacing *)

(** From height 5 on (and for a single row) the row returned for a linear
    row of the frame is a row of the frame. *)
Lemma interlaced_line_index_range (h y : Z) :
  h = 1 \/ 5 <= h < 32768 -> 0 <= y < h ->
  0 <= interlaced_line_index h y < h.
Proof.
  intros Hh Hy; unfold interlaced_line_index; cbv zeta.
  destruct Hh as [->|Hh].
  { assert (y = 0) by lia; subst; vm_compute.
    split; [discriminate|reflexivity]. }
  rewrite !Z.quot_div_nonneg by lia.
  rewrite (s16_small ((h - 1) / 8 + 1))
    by (pose proof (Z.div_pos (h - 1) 8); Z.div_mod_to_equations; lia).
  destruct (Z.ltb_spec y ((h - 1) / 8 + 1)).
  { rewrite s16_small by (Z.div_mod_to_equations; lia).
    Z.div_mod_to_equations; lia. }
  rewrite (s16_small (y - _)) by (Z.div_mod_to_equations; lia).
  rewrite (s16_small ((h - 5) / 8 + 1)) by (Z.div_mod_to_equations; lia).
  destruct (Z.ltb_spec (y - ((h - 1) / 8 + 1)) ((h - 5) / 8 + 1)).
  { rewrite s16_small by (Z.div_mod_to_equations; lia).
    Z.div_mod_to_equations; lia. }
  rewrite (s16_small (y - _ - _)) by (Z.div_mod_to_equations; lia).
  rewrite (s16_small ((h - 3) / 4 + 1)) by (Z.div_mod_to_equations; lia).
  destruct (Z.ltb_spec (y - ((h - 1) / 8 + 1) - ((h - 5) / 8 + 1))
                       ((h - 3) / 4 + 1)).
  { rewrite s16_small by (Z.div_mod_to_equations; lia).
    Z.div_mod_to_equations; lia. }
  rewrite (s16_small (y - _ - _ - _)) by (Z.div_mod_to_equations; lia).
  rewrite s16_small by (Z.div_mod_to_equations; lia).
  Z.div_mod_to_equations; lia.
Qed.

(** ** The stores of a frame decode *)

Lemma same_view_refl (g : gd_GIF) : same_view g g.
Proof. unfold same_view; tauto. Qed.

Lemma same_view_trans (g1 g2 g3 : gd_GIF) :
  same_view g1 g2 -> same_view g2 g3 -> same_view g1 g3.
Proof.
  unfold same_view; intros (?&?&?&?&?&?&?) (?&?&?&?&?&?&?).
  repeat split; congruence.
Qed.

Lemma same_view_set_table (g : gd_GIF) (t : gd_Table) :
  same_view g (set_table g t).
Proof. unfold same_view; simpl; tauto. Qed.

Lemma frame_index_view (g g' : gd_GIF) (interlace p : Z) :
  same_view g g' -> frame_index g' interlace p = frame_index g interlace p.
Proof.
  unfold same_view, frame_index; intros (->&->&->&->&->&_&_); reflexivity.
Qed.

Lemma put_view (g g' : gd_GIF) (interlace tidx : Z) (frame : list Z)
      (px : Z * Z) :
  same_view g g' ->
  put g' interlace tidx frame px = put g interlace tidx frame px.
Proof.
  intros V; unfold put; rewrite (frame_index_view _ _ _ _ V).
  destruct V as (_&_&_&_&_&_&->); reflexivity.
Qed.

Lemma store_pixel_view (g g' : gd_GIF) (interlace tidx p sfx : Z)
      (frame : list Z) :
  same_view g g' ->
  store_pixel g' interlace tidx p sfx frame
  = store_pixel g interlace tidx p sfx frame.
Proof.
  intros V; unfold store_pixel; rewrite (frame_index_view _ _ _ _ V).
  destruct V as (_&_&_&->&_&_&->); reflexivity.
Qed.

Lemma store_pixel_Ok (gif : gd_GIF) (interlace tidx p sfx : Z)
      (frame frame' : list Z) :
  store_pixel gif interlace tidx p sfx frame = Ok frame' ->
  frame' = put gif interlace tidx frame (p, sfx)
  /\ length frame' = length frame.
Proof.
  unfold store_pixel, put; simpl.
  destruct (fw gif =? 0); [discriminate|].
  destruct (negb (processed_first_frame gif) || negb (tidx =? sfx)).
  - destruct (zin _ _); [|discriminate].
    intros H; inversion H; subst; split; [reflexivity|apply zupd_length].
  - intros H; inversion H; auto.
Qed.

Lemma replay_app (gif : gd_GIF) (interlace tidx : Z) (a b : list (Z * Z))
      (frame : list Z) :
  replay gif interlace tidx (a ++ b) frame
  = replay gif interlace tidx b (replay gif interlace tidx a frame).
Proof. unfold replay; apply fold_left_app. Qed.

Lemma replay_view (g g' : gd_GIF) (interlace tidx : Z) (tr : list (Z * Z)) :
  same_view g g' ->
  forall frame,
    replay g' interlace tidx tr frame = replay g interlace tidx tr frame.
Proof.
  intros V; unfold replay; induction tr as [|px tr IH]; intros frame; simpl.
  - reflexivity.
  - rewrite (put_view _ _ _ _ _ _ V); apply IH.
Qed.

(** The inner loop on the caller's buffer and on the record of emitted
    pixels: same walk, and the buffer is the replay of what was recorded. *)
Lemma emit_string_log (fuel : nat) :
  forall (gif : gd_GIF) (interlace tidx fo : Z) (e e' : gd_Entry)
         (frame frame' : list Z),
    emit_string fuel gif interlace tidx fo e frame = Ok (e', frame') ->
    exists new,
      (forall tr, emit_string_with log_pixel fuel gif interlace tidx fo e tr
                  = Ok (e', tr ++ new))
      /\ frame' = replay gif interlace tidx new frame
      /\ length frame' = length frame.
Proof.
  unfold emit_string.
  induction fuel as [|fuel IH];
    intros gif interlace tidx fo e e' frame frame' H.
  - discriminate.
  - simpl in H.
    destruct (store_pixel _ _ _ _ _ _) as [f1| |] eqn:Es; try discriminate.
    apply store_pixel_Ok in Es; destruct Es as [-> Hl].
    destruct (prefix e =? 0xFFF) eqn:Ep.
    + injection H as He Hf; subst e' frame'.
      exists [(fo + len e - 1, suffix e)]; split; [|split]; auto.
      intros tr; simpl; rewrite Ep; reflexivity.
    + destruct (zin (prefix e) TABLE_SIZE) eqn:Ez; [|discriminate].
      apply IH in H; destruct H as (new & Hlog & -> & Hl').
      exists ((fo + len e - 1, suffix e) :: new); split; [|split].
      * intros tr; simpl; rewrite Ep, Ez, Hlog, <- app_assoc; reflexivity.
      * reflexivity.
      * congruence.
Qed.

(** One turn of the outer loop on the caller's buffer and on the record. *)
Lemma lzw_step_log (fuel : nat) (interlace iks clear stop : Z) (gif : gd_GIF)
      (l : locals) (frame : list Z) (w w' : GifClass) (t : turn (list Z)) :
  lzw_step fuel interlace iks clear stop gif l frame w = Ok (t, w') ->
  exists new,
    (forall tr, lzw_step_with log_pixel fuel interlace iks clear stop gif l
                               tr w
                = Ok (with_frame t (tr ++ new), w'))
    /\ turn_frame t = replay gif interlace (tindex (gce gif)) new frame
    /\ length (turn_frame t) = length frame
    /\ same_view gif (turn_gif t).
Proof.
  unfold lzw_step, lzw_step_with, bind, lift; intros H.
  destruct (update_table iks clear l (table gif)) as [[l1 t1]| |] eqn:Eu;
    try discriminate.
  destruct (get_key _ _ _ _ w) as [[[[[k sl] sh] b] w2]| |] eqn:Eg;
    try discriminate.
  destruct (k =? clear) eqn:Ec.
  { injection H as <- <-; exists []; simpl; repeat split; auto.
    intros tr; rewrite app_nil_r; reflexivity. }
  destruct (k =? stop) eqn:Est.
  { injection H as <- <-; exists []; simpl; repeat split; auto.
    intros tr; rewrite app_nil_r; reflexivity. }
  cbv beta iota zeta in H |- *.
  cbn [table_is_full frm_off ret key_size] in H |- *.
  destruct (zin k TABLE_SIZE) eqn:Ez; [|discriminate].
  destruct (emit_string_with store_pixel _ _ _ _ _ _ _) as [[e' f']| |] eqn:Ee;
    try discriminate.
  apply emit_string_log in Ee; destruct Ee as (new & Hlog & -> & Hl).
  cbv beta iota zeta in H.
  destruct (patch_suffix _ _ _ _) as [t2| |] eqn:Ep; try discriminate.
  injection H as <- <-.
  exists new; split; [|split; [|split]].
  - intros tr; rewrite Hlog; cbv beta iota zeta; rewrite Ep.
    reflexivity.
  - simpl; apply replay_view, same_view_set_table.
  - simpl; exact Hl.
  - simpl; unfold same_view; simpl; tauto.
Qed.

(** The outer loop on the caller's buffer and on the record. *)
Lemma lzw_loop_log (interlace iks clear stop : Z) (fuel : nat) :
  forall (gif gif' : gd_GIF) (l l' : locals) (frame frame' : list Z)
         (w w' : GifClass),
    lzw_loop fuel interlace iks clear stop gif l frame w
    = Ok (gif', l', frame', w') ->
    exists new,
      (forall tr, lzw_loop_with log_pixel fuel interlace iks clear stop gif l
                                tr w
                  = Ok (gif', l', tr ++ new, w'))
      /\ frame' = replay gif interlace (tindex (gce gif)) new frame
      /\ length frame' = length frame
      /\ same_view gif gif'.
Proof.
  induction fuel as [|fuel IH]; intros gif gif' l l' frame frame' w w' H.
  - discriminate.
  - unfold lzw_loop in H; simpl in H.
    apply bind_Ok in H; destruct H as (t & w1 & Et & H).
    apply lzw_step_log in Et; destruct Et as (new1 & Hlog1 & Hf1 & Hl1 & V1).
    destruct t as [g1 l1 f1|g1 l1 f1]; simpl in Hf1, Hl1, V1.
    + apply IH in H; destruct H as (new2 & Hlog2 & Hf2 & Hl2 & V2).
      exists (new1 ++ new2); split; [|split; [|split]].
      * intros tr; simpl.
        rewrite (bind_run _ _ _ _ _ (Hlog1 tr)); simpl.
        rewrite Hlog2, app_assoc; reflexivity.
      * rewrite replay_app, <- Hf1, Hf2.
        rewrite (replay_view _ _ _ _ _ V1).
        destruct V1 as (_&_&_&_&_&->&_); reflexivity.
      * congruence.
      * eapply same_view_trans; eauto.
    + apply mret_Ok in H; injection H as <- <- <- <-.
      exists new1; split; [|split; [|split]]; auto.
      intros tr; simpl.
      rewrite (bind_run _ _ _ _ _ (Hlog1 tr)); reflexivity.
Qed.

(** A frame decode leaves in the caller's buffer the replay of the pixels
    its bitstream emits, and changes nothing of the session that a store
    depends on but the first-frame flag, which it sets. *)
Lemma read_image_data_log (fuel : nat) (gif gif' : gd_GIF) (interlace r : Z)
      (frame frame' : list Z) (w w' : GifClass) :
  read_image_data fuel gif interlace frame w = Ok (r, gif', frame', w') ->
  exists tr,
    emitted_pixels fuel gif interlace w = Ok (r, gif', tr, w')
    /\ frame' = replay gif interlace (tindex (gce gif)) tr frame
    /\ length frame' = length frame
    /\ r = 0
    /\ processed_first_frame gif' = true
    /\ same_view gif (set_processed gif' (processed_first_frame gif)).
Proof.
  unfold read_image_data, emitted_pixels, read_image_data_with; intros H.
  apply bind_Ok in H; destruct H as ([[[[k c] s] g0] l0] & w1 & Ei & H).
  apply bind_Ok in H; destruct H as ([[g1 l1] f1] & w2 & El & H).
  apply bind_Ok in H; destruct H as (b & w3 & Eb & H).
  apply mret_Ok in H; injection H as -> -> -> ->.
  assert (V0 : same_view gif g0).
  { unfold lzw_init in Ei.
    apply bind_Ok in Ei; destruct Ei as (b0 & w4 & _ & Ei).
    apply bind_Ok in Ei; destruct Ei as (t & w5 & _ & Ei).
    apply bind_Ok in Ei; destruct Ei as ([[[k0 sl] sh] b1] & w6 & _ & Ei).
    apply mret_Ok in Ei; injection Ei as _ _ _ -> _.
    apply same_view_set_table. }
  apply lzw_loop_log in El; destruct El as (tr & Hlog & Hf & Hl & V).
  exists tr; split; [|split; [|split; [|split; [|split]]]]; auto.
  - rewrite (bind_run _ _ _ _ _ Ei); cbv beta iota.
    rewrite (bind_run _ _ _ _ _ (Hlog [])); cbv beta iota.
    rewrite (bind_run _ _ _ _ _ Eb); reflexivity.
  - rewrite Hf, (replay_view _ _ _ _ _ V0).
    destruct V0 as (_&_&_&_&_&->&_); reflexivity.
  - pose proof (same_view_trans _ _ _ V0 V) as V1.
    unfold same_view in *; simpl; tauto.
Qed.

Lemma fold_left_same {A B : Type} (f g : A -> B -> A) (l : list B) :
  (forall a b, f a b = g a b) ->
  forall a, fold_left f l a = fold_left g l a.
Proof.
  intros E; induction l as [|b l IH]; intros a; simpl; auto.
  rewrite E; apply IH.
Qed.

Lemma replay_guard (gif : gd_GIF) (interlace tidx : Z) (tr : list (Z * Z)) :
  forall frame,
    replay gif interlace tidx tr frame
    = fold_left
        (fun f px =>
           if processed_first_frame gif && (tidx =? snd px) then f
           else zupd (frame_index gif interlace (fst px)) (snd px) f)
        tr frame.
Proof.
  unfold replay; induction tr as [|px tr IH]; intros frame; simpl.
  - reflexivity.
  - rewrite <- IH; f_equal; unfold put.
    destruct (processed_first_frame gif), (tidx =? snd px); reflexivity.
Qed.

(** ** The bytes a frame decode leaves alone *)

Lemma znth_put_other (gif : gd_GIF) (interlace tidx q : Z) (frame : list Z)
      (px : Z * Z) :
  0 <= q ->
  (frame_index gif interlace (fst px) = q ->
   processed_first_frame gif = true /\ snd px = tidx) ->
  znth q (put gif interlace tidx frame px) 0 = znth q frame 0.
Proof.
  intros Hq Hs; unfold put.
  destruct (negb (processed_first_frame gif) || negb (tidx =? snd px)) eqn:G;
    [|reflexivity].
  apply znth_zupd_other; [exact Hq|].
  intros E; destruct (Hs E) as [Hp Ht].
  rewrite Hp, Ht, Z.eqb_refl in G; discriminate.
Qed.

Lemma replay_untouched (gif : gd_GIF) (interlace tidx q : Z)
      (tr : list (Z * Z)) :
  0 <= q ->
  forall frame,
    (forall px, In px tr -> frame_index gif interlace (fst px) = q ->
                processed_first_frame gif = true /\ snd px = tidx) ->
    znth q (replay gif interlace tidx tr frame) 0 = znth q frame 0.
Proof.
  intros Hq; unfold replay; induction tr as [|px tr IH]; intros frame Hs; simpl.
  - reflexivity.
  - rewrite IH by (intros; apply Hs; simpl; auto).
    apply znth_put_other; [exact Hq|]. apply Hs; simpl; auto.
Qed.

(** A linear position below [fw * fh] is stored inside the placement
    rectangle. *)
Lemma frame_index_in_rect (gif : gd_GIF) (interlace p : Z) :
  interlace = 0 \/ fh gif = 1 \/ 5 <= fh gif < 32768 ->
  0 <= fw gif ->
  0 <= p < fw gif * fh gif ->
  in_rect gif (frame_index gif interlace p).
Proof.
  intros Hi Hw0 Hp.
  assert (Hw : 0 < fw gif).
  { destruct (Z.eq_dec (fw gif) 0) as [E|]; [rewrite E in Hp|]; lia. }
  assert (Hx : 0 <= Z.rem p (fw gif) < fw gif).
  { rewrite Z.rem_mod_nonneg by lia. apply Z.mod_pos_bound; lia. }
  assert (Hy : 0 <= Z.quot p (fw gif) < fh gif).
  { rewrite Z.quot_div_nonneg by lia. split.
    - apply Z.div_pos; lia.
    - apply Z.div_lt_upper_bound; lia. }
  unfold in_rect, frame_index.
  destruct (interlace =? 0) eqn:E.
  - exists (Z.rem p (fw gif)), (Z.quot p (fw gif)); auto.
  - apply Z.eqb_neq in E.
    assert (Hh : fh gif = 1 \/ 5 <= fh gif < 32768) by tauto.
    exists (Z.rem p (fw gif)),
           (interlaced_line_index (s16 (fh gif)) (s16 (Z.quot p (fw gif)))).
    split; [exact Hx|split; [|reflexivity]].
    rewrite (s16_small (fh gif)) by lia.
    rewrite (s16_small (Z.quot p (fw gif))) by lia.
    apply interlaced_line_index_range; auto.
Qed.

(** A replay changes no byte outside the placement rectangle when every
    pixel is at a linear position below [fw * fh]. *)
Lemma replay_outside_rect (gif : gd_GIF) (interlace tidx q : Z)
      (tr : list (Z * Z)) (frame : list Z) :
  interlace = 0 \/ fh gif = 1 \/ 5 <= fh gif < 32768 ->
  0 <= fw gif ->
  Forall (fun px => 0 <= fst px < fw gif * fh gif) tr ->
  0 <= q -> ~ in_rect gif q ->
  znth q (replay gif interlace tidx tr frame) 0 = znth q frame 0.
Proof.
  intros Hi Hw Hp Hq Hout; apply replay_untouched; auto.
  intros px Hin E; exfalso; apply Hout; rewrite <- E.
  apply frame_index_in_rect; [exact Hi|exact Hw|].
  rewrite Forall_forall in Hp; apply Hp; exact Hin.
Qed.

(** The bytes a frame decode leaves alone. *)
Lemma read_image_data_leaves_alone :
  forall (fuel : nat) (gif gif' : gd_GIF) (interlace r : Z)
         (frame frame' : list Z) (w w' : GifClass),
    read_image_data fuel gif interlace frame w = Ok (r, gif', frame', w') ->
    exists tr,
      emitted_pixels fuel gif interlace w = Ok (r, gif', tr, w')
      /\ length frame' = length frame
      /\ (forall q, 0 <= q ->
            (forall px, In px tr ->
               frame_index gif interlace (fst px) = q ->
               processed_first_frame gif = true
               /\ snd px = tindex (gce gif)) ->
            znth q frame' 0 = znth q frame 0)
      /\ (interlace = 0 \/ fh gif = 1 \/ 5 <= fh gif < 32768 ->
          0 <= fw gif ->
          Forall (fun px => 0 <= fst px < fw gif * fh gif) tr ->
          forall q, 0 <= q -> ~ in_rect gif q ->
                    znth q frame' 0 = znth q frame 0).
Proof.
  intros fuel gif gif' interlace r frame frame' w w' H.
  apply read_image_data_log in H.
  destruct H as (tr & Hlog & Hf & Hl & _).
  exists tr; split; [exact Hlog|split; [exact Hl|split]].
  - intros q Hq Hs; rewrite Hf; apply replay_untouched; auto.
  - intros Hi Hw Hp q Hq Hout; rewrite Hf; apply replay_outside_rect; auto.
Qed.

(** ** Stores after the first frame *)

Lemma upd_nat_beyond {A : Type} (n : nat) (v : A) (l : list A) :
  (length l <= n)%nat -> upd_nat n v l = l.
Proof.
  revert n; induction l as [|x t IH]; intros [|n] H; simpl in *;
    try lia; auto.
  rewrite IH by lia; reflexivity.
Qed.

Lemma znth_zupd_cases {A : Type} (i q : Z) (v d : A) (l : list A) :
  0 <= q ->
  znth q (zupd i v l) d = v \/ znth q (zupd i v l) d = znth q l d.
Proof.
  intros Hq.
  destruct (Z.eq_dec i q) as [->|Hne].
  - destruct (Z.lt_ge_cases q (Z.of_nat (length l))).
    + left; apply znth_zupd_same; lia.
    + right; unfold zupd.
      destruct (q <? 0); [reflexivity|].
      rewrite upd_nat_beyond by lia; reflexivity.
  - right; apply znth_zupd_other; auto.
Qed.

(** Once a frame has been decoded, no store of a replay leaves the
    transparent index in the buffer. *)
Lemma replay_keeps_or_differs (gif : gd_GIF) (interlace tidx q : Z)
      (tr : list (Z * Z)) :
  processed_first_frame gif = true -> 0 <= q ->
  forall frame,
    znth q (replay gif interlace tidx tr frame) 0 = znth q frame 0
    \/ znth q (replay gif interlace tidx tr frame) 0 <> tidx.
Proof.
  intros Hp Hq; induction tr as [|px tr IH] using rev_ind; intros frame.
  - left; reflexivity.
  - rewrite replay_app; unfold replay at 1; simpl; unfold put.
    rewrite Hp; simpl.
    destruct (Z.eqb_spec tidx (snd px)) as [E|E]; simpl; [apply IH|].
    destruct (znth_zupd_cases (frame_index gif interlace (fst px)) q
                (snd px) 0 (replay gif interlace tidx tr frame) Hq)
      as [-> | ->]; [right; congruence|apply IH].
Qed.

Lemma replay_length (gif : gd_GIF) (interlace tidx : Z) (tr : list (Z * Z)) :
  forall frame, length (replay gif interlace tidx tr frame) = length frame.
Proof.
  unfold replay; induction tr as [|px tr IH]; intros frame; simpl; auto.
  rewrite IH; unfold put.
  destruct (_ || _); [apply zupd_length|reflexivity].
Qed.

(** ** Blocks between frames *)

Lemma read_graphic_control_ext_keeps (gif gif' : gd_GIF) (w w' : GifClass) :
  read_graphic_control_ext gif w = Ok (gif', w') ->
  exists c, gif' = set_gce gif c.
Proof.
  unfold read_graphic_control_ext; intros H.
  step H. step H. step H. step H. step H.
  apply mret_Ok in H; injection H as -> _; eauto.
Qed.

Lemma read_application_ext_keeps (fuel : nat) (gif gif' : gd_GIF)
      (w w' : GifClass) :
  read_application_ext fuel gif w = Ok (gif', w') ->
  gif' = gif \/ exists n, gif' = set_loop_count gif n.
Proof.
  unfold read_application_ext; intros H.
  step H. step H. step H.
  destruct (list_eq_dec _ _ _).
  - step H. step H. step H.
    apply mret_Ok in H; injection H as -> _; eauto.
  - step H. apply mret_Ok in H; injection H as -> _; auto.
Qed.

(** An extension block leaves the first-frame flag alone, and the graphic
    control state too unless it is a graphic control extension. *)
Lemma read_ext_keeps (fuel : nat) (gif gif' : gd_GIF) (w w' : GifClass) :
  read_ext fuel gif w = Ok (gif', w') ->
  processed_first_frame gif' = processed_first_frame gif
  /\ (gce gif' = gce gif
      \/ exists w1, gif_buf_read w = Ok (0xF9, w1)
                    /\ read_graphic_control_ext gif w1 = Ok (gif', w')).
Proof.
  unfold read_ext; intros H.
  apply bind_Ok in H; destruct H as (label & w1 & El & H).
  destruct (label =? 0x01) eqn:E1.
  { unfold read_plain_text_ext in H. step H. step H.
    apply mret_Ok in H; injection H as -> _; auto. }
  destruct (Z.eqb_spec label 0xF9) as [->|E2].
  { split; [|right; eauto].
    apply read_graphic_control_ext_keeps in H; destruct H as (c & ->).
    reflexivity. }
  destruct (label =? 0xFE) eqn:E3.
  { unfold read_comment_ext in H. step H.
    apply mret_Ok in H; injection H as -> _; auto. }
  destruct (label =? 0xFF) eqn:E4.
  { apply read_application_ext_keeps in H.
    destruct H as [->|(n & ->)]; auto. }
  apply mret_Ok in H; injection H as -> _; auto.
Qed.

(** An image block: the decode reports 0 whenever it returns, sets the
    first-frame flag, keeps the graphic control state, and after the first
    frame stores nothing equal to the transparent index. *)
Lemma read_image_effect (fuel : nat) (gif gif' : gd_GIF) (r : Z)
      (frame frame' : list Z) (w w' : GifClass) :
  read_image fuel gif frame w = Ok (r, gif', frame', w') ->
  r = 0
  /\ processed_first_frame gif' = true
  /\ gce gif' = gce gif
  /\ length frame' = length frame
  /\ (processed_first_frame gif = true ->
      forall q, 0 <= q ->
        znth q frame' 0 = znth q frame 0
        \/ znth q frame' 0 <> tindex (gce gif)).
Proof.
  unfold read_image, read_image_with; intros H.
  apply bind_Ok in H; destruct H as (x & w1 & _ & H).
  apply bind_Ok in H; destruct H as (y & w2 & _ & H).
  apply bind_Ok in H; destruct H as (wd & w3 & _ & H).
  apply bind_Ok in H; destruct H as (ht & w4 & _ & H).
  apply bind_Ok in H; destruct H as (fisrz & w5 & _ & H).
  apply bind_Ok in H; destruct H as (gif2 & w6 & Hg2 & H).
  assert (V : processed_first_frame gif2 = processed_first_frame gif
              /\ gce gif2 = gce gif).
  { destruct (Z.land fisrz 128 =? 0).
    - apply mret_Ok in Hg2; injection Hg2 as -> _; auto.
    - apply bind_Ok in Hg2; destruct Hg2 as (pal & w7 & _ & Hg2).
      apply mret_Ok in Hg2; injection Hg2 as -> _; auto. }
  destruct V as [Vp Vg].
  apply read_image_data_log in H.
  destruct H as (tr & _ & Hf & Hl & Hr & Hp & V).
  split; [exact Hr|split; [exact Hp|split; [|split; [exact Hl|]]]].
  - destruct V as (_&_&_&_&_&Hg&_); simpl in Hg; congruence.
  - intros Hpf q Hq; rewrite Hf, <- Vg.
    apply replay_keeps_or_differs; congruence.
Qed.

(** ** Pulling a frame *)

(** One turn of the loop of [gd_get_frame]. *)
Lemma gd_get_frame_inv (fuel : nat) (gif : gd_GIF) (frame : list Z)
      (w : GifClass) (res : Z * gd_GIF * list Z * GifClass) :
  gd_get_frame (S fuel) gif frame w = Ok res ->
  exists sep w1,
    block_byte w = Ok (sep, w1)
    /\ ((sep = 44
         /\ exists gif' frame' w',
              read_image fuel gif frame w1 = Ok (0, gif', frame', w')
              /\ res = (1, gif', frame', w'))
        \/ (sep = 59 /\ res = (0, gif, frame, w1))
        \/ (sep = 33
            /\ exists gif1 w2,
                 read_ext fuel gif w1 = Ok (gif1, w2)
                 /\ gd_get_frame fuel gif1 frame w2 = Ok res)
        \/ (sep <> 44 /\ sep <> 59 /\ sep <> 33
            /\ res = (-1, gif, frame, w1))).
Proof.
  unfold gd_get_frame; simpl; intros H.
  apply bind_Ok in H; destruct H as (s0 & w0 & E0 & H).
  apply bind_Ok in H; destruct H as (sep & w1 & E1 & H).
  exists sep, w1; split.
  { unfold block_byte; rewrite (bind_run _ _ _ _ _ E0); exact E1. }
  destruct (Z.eqb_spec sep 44) as [->|N44].
  { left; split; [reflexivity|].
    apply bind_Ok in H; destruct H as ([[r g'] f'] & w2 & Ei & H).
    pose proof (read_image_effect _ _ _ _ _ _ _ _ Ei) as (-> & _).
    simpl in H; apply mret_Ok in H; subst res; eauto. }
  destruct (Z.eqb_spec sep 59) as [->|N59].
  { right; left; split; [reflexivity|]. apply mret_Ok in H; exact H. }
  destruct (Z.eqb_spec sep 33) as [->|N33].
  { right; right; left; split; [reflexivity|].
    apply bind_Ok in H; destruct H as (g1 & w2 & Ee & H); eauto. }
  right; right; right; apply mret_Ok in H; auto.
Qed.


Lemma byte_bit6 (b : byte) :
  Z.land (byte_to_Z b) 0x40 = 0 \/ Z.land (byte_to_Z b) 0x40 = 64.
Proof. destruct b; vm_compute; auto. Qed.

(** An image block on the caller's buffer and on the record of emitted
    pixels; [interlace] is the interlace flag of its descriptor. *)
Lemma read_image_log (fuel : nat) (gif gif' : gd_GIF) (r : Z)
      (frame frame' : list Z) (w w' : GifClass) :
  read_image fuel gif frame w = Ok (r, gif', frame', w') ->
  exists tr interlace,
    read_image_with log_pixel fuel gif [] w = Ok (r, gif', tr, w')
    /\ (interlace = 0 \/ interlace = 64)
    /\ frame' = replay (set_processed gif' (processed_first_frame gif))
                       interlace (tindex (gce gif')) tr frame
    /\ length frame' = length frame.
Proof.
  unfold read_image, read_image_with; intros H.
  apply bind_Ok in H; destruct H as (x & w1 & E1 & H).
  apply bind_Ok in H; destruct H as (y & w2 & E2 & H).
  apply bind_Ok in H; destruct H as (wd & w3 & E3 & H).
  apply bind_Ok in H; destruct H as (ht & w4 & E4 & H).
  apply bind_Ok in H; destruct H as (fisrz & w5 & E5 & H).
  apply bind_Ok in H; destruct H as (gif2 & w6 & Hg2 & H).
  assert (Vp : processed_first_frame gif2 = processed_first_frame gif).
  { destruct (Z.land fisrz 128 =? 0).
    - apply mret_Ok in Hg2; injection Hg2 as -> _; auto.
    - apply bind_Ok in Hg2; destruct Hg2 as (pal & w7 & _ & Hg2).
      apply mret_Ok in Hg2; injection Hg2 as -> _; auto. }
  apply read_image_data_log in H.
  destruct H as (tr & Hlog & Hf & Hl & _ & _ & V).
  exists tr, (Z.land fisrz 64); split; [|split; [|split; [|exact Hl]]].
  2:{ destruct (gif_buf_read_byte _ _ _ E5) as (b & ->); apply byte_bit6. }
  - rewrite (bind_run _ _ _ _ _ E1), (bind_run _ _ _ _ _ E2),
      (bind_run _ _ _ _ _ E3), (bind_run _ _ _ _ _ E4),
      (bind_run _ _ _ _ _ E5), (bind_run _ _ _ _ _ Hg2).
    exact Hlog.
  - rewrite Hf, <- Vp, (replay_view _ _ _ _ _ V).
    destruct V as (_&_&_&_&_&Hg&_); simpl in Hg; rewrite Hg; reflexivity.
Qed.

(** A call of [gd_get_frame] on the caller's buffer and on the record of
    emitted pixels: the buffer is the replay of the pixels of the frame the
    call decodes, if it decodes one. *)
Lemma gd_get_frame_log (fuel : nat) :
  forall (gif gif' : gd_GIF) (r : Z) (frame frame' : list Z)
         (w w' : GifClass),
    gd_get_frame fuel gif frame w = Ok (r, gif', frame', w') ->
    exists tr interlace,
      gd_get_frame_with log_pixel fuel gif [] w = Ok (r, gif', tr, w')
      /\ (interlace = 0 \/ interlace = 64)
      /\ frame' = replay (set_processed gif' (processed_first_frame gif))
                         interlace (tindex (gce gif')) tr frame
      /\ length frame' = length frame.
Proof.
  induction fuel as [|fuel IH]; intros gif gif' r frame frame' w w' H.
  - discriminate.
  - unfold gd_get_frame in H; simpl in H |- *.
    apply bind_Ok in H; destruct H as (s0 & w0 & E0 & H).
    apply bind_Ok in H; destruct H as (sep & w1 & E1 & H).
    rewrite (bind_run _ _ _ _ _ E0), (bind_run _ _ _ _ _ E1).
    destruct (sep =? 44).
    { apply bind_Ok in H; destruct H as ([[r0 g'] f'] & w2 & Ei & H).
      destruct (read_image_log _ _ _ _ _ _ _ _ Ei)
        as (tr & il & Hlog & Hil & Hf & Hl).
      exists tr, il; rewrite (bind_run _ _ _ _ _ Hlog).
      destruct (r0 =? -1); apply mret_Ok in H;
        injection H as -> -> -> ->; auto. }
    destruct (sep =? 59).
    { apply mret_Ok in H; injection H as -> -> -> ->.
      exists [], 0; auto. }
    destruct (sep =? 33).
    { apply bind_Ok in H; destruct H as (g1 & w2 & Ee & H).
      rewrite (bind_run _ _ _ _ _ Ee).
      destruct (IH _ _ _ _ _ _ _ H) as (tr & il & Hlog & Hil & Hf & Hl).
      exists tr, il; split; [exact Hlog|split; [exact Hil|split; [|exact Hl]]].
      apply read_ext_keeps in Ee; destruct Ee as (<- & _); exact Hf. }
    apply mret_Ok in H; injection H as -> -> -> ->.
    exists [], 0; auto.
Qed.








(** C4 (as amended).  [gd_get_frame] returns -1 only when the byte that
    introduces a block (after an optional zero byte) is none of [','],
    [';'] and ['!'], and the buffer is then untouched.  The decode of an
    image block reports no error: whenever it returns, it returns 0 and
    [gd_get_frame] returns 1, whatever the bitstream held. *)
Theorem gd_get_frame_results :
  forall (fuel : nat) (gif gif' : gd_GIF) (r : Z) (frame frame' : list Z)
         (w w' : GifClass),
    gd_get_frame fuel gif frame w = Ok (r, gif', frame', w') ->
    (r = 1
     /\ exists fuel1 gif1 w1 w2,
          block_byte w1 = Ok (44, w2)
          /\ read_image fuel1 gif1 frame w2 = Ok (0, gif', frame', w'))
    \/ (r = 0 /\ frame' = frame /\ exists w1, block_byte w1 = Ok (59, w'))
    \/ (r = -1 /\ frame' = frame
        /\ exists w1 sep,
             block_byte w1 = Ok (sep, w')
             /\ sep <> 44 /\ sep <> 59 /\ sep <> 33).
Proof.
  induction fuel as [|fuel IH]; intros gif gif' r frame frame' w w' H.
  - discriminate.
  - apply gd_get_frame_inv in H.
    destruct H as (sep & w1 & Eb & [H|[H|[H|H]]]).
    + destruct H as (-> & g & f & w2 & Ei & E); injection E as -> -> -> ->.
      left; split; [reflexivity|]. exists fuel, gif, w, w1; auto.
    + destruct H as (-> & E); injection E as -> -> -> ->.
      right; left; eauto.
    + destruct H as (_ & g1 & w2 & _ & H); eapply IH; exact H.
    + destruct H as (N1 & N2 & N3 & E); injection E as -> -> -> ->.
      right; right; split; [reflexivity|split; [reflexivity|]].
      exists w, sep; auto.
Qed.

Lemma gd_get_frame_results_witness :
  (1 = 1
   /\ exists fuel1 gif1 w1 w2,
        block_byte w1 = Ok (44, w2)
        /\ read_image fuel1 gif1 [9; 9; 9; 9] w2
           = Ok (0, fst first_pulled, [0; 1; 1; 0], snd first_pulled))
  \/ (1 = 0 /\ [0; 1; 1; 0] = [9; 9; 9; 9]
      /\ exists w1, block_byte w1 = Ok (59, snd first_pulled))
  \/ (1 = -1 /\ [0; 1; 1; 0] = [9; 9; 9; 9]
      /\ exists w1 sep,
           block_byte w1 = Ok (sep, snd first_pulled)
           /\ sep <> 44 /\ sep <> 59 /\ sep <> 33).
Proof.
  apply (gd_get_frame_results 100 (fst opened) (fst first_pulled) 1
           [9; 9; 9; 9] [0; 1; 1; 0] (snd opened) (snd first_pulled)).
  vm_compute; reflexivity.
Defined.

(** C4, as stated, fails on [truncated]: the file ends after the first
    byte of the image data, before any stop code; the reader goes on
    through the bytes left in its buffer, which happen to hold a stop code,
    and [gd_get_frame] returns 1 with one pixel stored. *)
Lemma truncated_frame_reported_decoded :
  exists g0 w0 g1 w1,
    (length truncated < length one_frame)%nat
    /\ gd_open_gif (mkFile truncated 0) [] fresh_GifClass = Ok (Some g0, w0)
    /\ gd_get_frame 100 g0 [9; 9; 9; 9] w0 = Ok (1, g1, [0; 9; 9; 9], w1)
    /\ 1 <> -1.
Proof.
  do 4 eexists.
  split; [vm_compute; lia|].
  split; [vm_compute; reflexivity|].
  split; [vm_compute; reflexivity|discriminate].
Qed.

(** ** Rewinding *)




(** ** The session as opened *)

Lemma gd_open_gif_session (f : File) (heap : list gd_Entry)
      (w0 w : GifClass) (gif : gd_GIF) :
  gd_open_gif f heap w0 = Ok (Some gif, w) ->
  gce gif = mkGCE 0 0 0 0 0
  /\ processed_first_frame gif = false
  /\ anim_start gif = file_pos w.
Proof.
  unfold gd_open_gif; intros H.
  apply bind_Ok in H; destruct H as (sig & w1 & _ & H).
  destruct (negb _); [apply mret_Ok in H; discriminate|].
  apply bind_Ok in H; destruct H as (ver & w2 & _ & H).
  destruct (negb _); [apply mret_Ok in H; discriminate|].
  apply bind_Ok in H; destruct H as (wd & w3 & _ & H).
  apply bind_Ok in H; destruct H as (ht & w4 & _ & H).
  apply bind_Ok in H; destruct H as (fdsz & w5 & _ & H).
  destruct (Z.land fdsz 128 =? 0); [apply mret_Ok in H; discriminate|].
  apply bind_Ok in H; destruct H as (bg & w6 & _ & H).
  apply bind_Ok in H; destruct H as (asp & w7 & _ & H).
  apply bind_Ok in H; destruct H as (g & w8 & _ & H).
  injection H as <- <-; simpl; auto.
Qed.

(** C10.  A session is opened with a zeroed graphic control state, so with
    transparent index 0 and the transparency flag clear; that state changes
    only when a graphic control extension is read (no other extension and
    no image block touches it).  While it is as opened, every frame decoded
    after the first leaves the byte of an emitted pixel of index 0 as it
    was: the buffer is the replay of the emitted pixels with those of index
    0 left out, and no byte that changes becomes 0. *)
Theorem default_transparent_index :
  forall (f : File) (heap : list gd_Entry) (w0 w1 : GifClass) (g0 : gd_GIF),
    gd_open_gif f heap w0 = Ok (Some g0, w1) ->
    tindex (gce g0) = 0 /\ transparency (gce g0) = 0
    /\ (forall fuel gif gif' w w',
           read_ext fuel gif w = Ok (gif', w') ->
           gce gif' = gce gif
           \/ exists wx, gif_buf_read w = Ok (0xF9, wx)
                         /\ read_graphic_control_ext gif wx = Ok (gif', w'))
    /\ (forall fuel gif gif' r frame frame' w w',
           read_image fuel gif frame w = Ok (r, gif', frame', w') ->
           gce gif' = gce gif)
    /\ (forall fuel gif gif' interlace r frame frame' w w',
           gce gif = gce g0 ->
           processed_first_frame gif = true ->
           read_image_data fuel gif interlace frame w
           = Ok (r, gif', frame', w') ->
           exists tr,
             emitted_pixels fuel gif interlace w = Ok (r, gif', tr, w')
             /\ frame' =
                  fold_left
                    (fun fr px =>
                       if snd px =? 0 then fr
                       else zupd (frame_index gif interlace (fst px))
                                 (snd px) fr)
                    tr frame
             /\ forall q, 0 <= q ->
                  znth q frame' 0 <> znth q frame 0 -> znth q frame' 0 <> 0).
Proof.
  intros f heap w0 w1 g0 Ho.
  apply gd_open_gif_session in Ho; destruct Ho as (Hg & _ & _).
  rewrite Hg; simpl.
  split; [reflexivity|split; [reflexivity|split; [|split]]].
  - intros fuel gif gif' w w' H; apply read_ext_keeps in H; tauto.
  - intros fuel gif gif' r frame frame' w w' H.
    apply read_image_effect in H; tauto.
  - intros fuel gif gif' interlace r frame frame' w w' Hgce Hp H.
    apply read_image_data_log in H.
    destruct H as (tr & Hlog & Hf & _).
    rewrite Hgce in Hf; simpl in Hf.
    exists tr; split; [exact Hlog|split].
    + rewrite Hf, replay_guard, Hp.
      apply fold_left_same; intros fr px.
      rewrite andb_true_l, (Z.eqb_sym 0 (snd px)); reflexivity.
    + intros q Hq Hne.
      destruct (replay_keeps_or_differs gif interlace 0 q tr Hp Hq frame)
        as [E|E]; rewrite <- Hf in E; [congruence|exact E].
Qed.

Lemma default_transparent_index_witness :
  tindex (gce (fst plain_opened)) = 0
  /\ transparency (gce (fst plain_opened)) = 0
  /\ exists tr,
       emitted_pixels 100 (fst plain_at_second) 0 (snd plain_at_second)
       = Ok (0, fst plain_after_second, tr, snd plain_after_second)
       /\ [1; 1; 1; 1] =
            fold_left
              (fun fr px =>
                 if snd px =? 0 then fr
                 else zupd (frame_index (fst plain_at_second) 0 (fst px))
                           (snd px) fr)
              tr [0; 1; 1; 0]
       /\ forall q, 0 <= q ->
            znth q [1; 1; 1; 1] 0 <> znth q [0; 1; 1; 0] 0 ->
            znth q [1; 1; 1; 1] 0 <> 0.
Proof.
  destruct (default_transparent_index (mkFile two_frames_plain 0) []
              fresh_GifClass (snd plain_opened) (fst plain_opened))
    as (H1 & H2 & _ & _ & H5); [vm_compute; reflexivity|].
  split; [exact H1|split; [exact H2|]].
  apply (H5 100%nat (fst plain_at_second) (fst plain_after_second) 0 0
            [0; 1; 1; 0] [1; 1; 1; 1] (snd plain_at_second)
            (snd plain_after_second)); vm_compute; reflexivity.
Defined.

(** ** Opening *)

Lemma byte_bit7 (b : byte) :
  (Z.land (byte_to_Z b) 0x80 =? 0) = negb (Z.testbit (byte_to_Z b) 7).
Proof. destruct b; reflexivity. Qed.

Lemma gct_size_bound (b : byte) :
  0 <= Z.shiftl 1 (Z.land (byte_to_Z b) 0x07 + 1) <= 256.
Proof. destruct b; vm_compute; split; discriminate. Qed.

(** What [gd_open_gif] returns is decided by the first eleven bytes it
    reads. *)
Lemma gd_open_gif_by_header (f : File) (heap : list gd_Entry)
      (w0 w11 : GifClass) (hd : list Z) :
  gif_buf_read_into 11 (reader_at_open f w0) = Ok (hd, w11) ->
  safe 11 w11 ->
  exists r w,
    gd_open_gif f heap w0 = Ok (r, w)
    /\ (r <> None <->
        firstn 6 hd = [71; 73; 70; 56; 57; 97]
        /\ Z.testbit (nth 10 hd 0) 7 = true).
Proof.
  intros E11 S11.
  apply gif_buf_read_into_inv in E11;
    destruct E11 as (c0 & l0 & w1 & -> & R0 & E11).
  apply gif_buf_read_into_inv in E11;
    destruct E11 as (c1 & l1 & w2 & -> & R1 & E11).
  apply gif_buf_read_into_inv in E11;
    destruct E11 as (c2 & l2 & w3 & -> & R2 & E11).
  apply gif_buf_read_into_inv in E11;
    destruct E11 as (c3 & l3 & w4 & -> & R3 & E11).
  apply gif_buf_read_into_inv in E11;
    destruct E11 as (c4 & l4 & w5 & -> & R4 & E11).
  apply gif_buf_read_into_inv in E11;
    destruct E11 as (c5 & l5 & w6 & -> & R5 & E11).
  apply gif_buf_read_into_inv in E11;
    destruct E11 as (c6 & l6 & w7 & -> & R6 & E11).
  apply gif_buf_read_into_inv in E11;
    destruct E11 as (c7 & l7 & w8 & -> & R7 & E11).
  apply gif_buf_read_into_inv in E11;
    destruct E11 as (c8 & l8 & w9 & -> & R8 & E11).
  apply gif_buf_read_into_inv in E11;
    destruct E11 as (c9 & l9 & w10 & -> & R9 & E11).
  apply gif_buf_read_into_inv in E11;
    destruct E11 as (c10 & l10 & wl & -> & R10 & E11).
  apply mret_Ok in E11; injection E11 as -> ->.
  destruct (gif_buf_read_byte _ _ _ R10) as (b10 & ->).
  simpl firstn; simpl nth.
  assert (Hsig : gif_buf_read_into 3 (reader_at_open f w0)
                 = Ok ([c0; c1; c2], w3)).
  { repeat (eapply gif_buf_read_into_cons; [eassumption|]). reflexivity. }
  assert (Hver : gif_buf_read_into 3 w3 = Ok ([c3; c4; c5], w6)).
  { repeat (eapply gif_buf_read_into_cons; [eassumption|]). reflexivity. }
  assert (Hwd : gif_buf_read16 w6 = Ok (u16 (c6 + Z.shiftl c7 8), w8)).
  { unfold gif_buf_read16.
    rewrite (bind_run _ _ _ _ _ R6), (bind_run _ _ _ _ _ R7); reflexivity. }
  assert (Hht : gif_buf_read16 w8 = Ok (u16 (c8 + Z.shiftl c9 8), w10)).
  { unfold gif_buf_read16.
    rewrite (bind_run _ _ _ _ _ R8), (bind_run _ _ _ _ _ R9); reflexivity. }
  unfold gd_open_gif; unfold reader_at_open in Hsig.
  rewrite (bind_run _ _ _ _ _ Hsig).
  destruct (list_eq_dec Z.eq_dec _ [71; 73; 70]) as [Es|Ns];
    cbv beta iota delta [negb].
  2:{ exists None, w3; split; [reflexivity|].
      split; [congruence|]. intros [Hm _]; exfalso; apply Ns; congruence. }
  rewrite (bind_run _ _ _ _ _ Hver).
  destruct (list_eq_dec Z.eq_dec _ [56; 57; 97]) as [Ev|Nv];
    cbv beta iota delta [negb].
  2:{ exists None, w6; split; [reflexivity|].
      split; [congruence|]. intros [Hm _]; exfalso; apply Nv; congruence. }
  rewrite (bind_run _ _ _ _ _ Hwd), (bind_run _ _ _ _ _ Hht),
    (bind_run _ _ _ _ _ R10).
  rewrite byte_bit7.
  destruct (Z.testbit (byte_to_Z b10) 7) eqn:E7;
    cbv beta iota delta [negb].
  2:{ exists None, wl; split; [reflexivity|].
      split; [congruence|]. intros [_ Hb]; discriminate. }
  destruct (gif_buf_read_safe 11 wl ltac:(lia) S11) as (bg & w12 & Rb & S12).
  destruct (gif_buf_read_safe (11 + 1) w12 ltac:(lia) S12)
    as (asp & w13 & Ra & S13).
  pose proof (gct_size_bound b10) as Hg.
  destruct (read_palette_loop_safe
              (Z.to_nat (Z.shiftl 1 (Z.land (byte_to_Z b10) 0x07 + 1))) 0
              (11 + 1 + 1)
              (mkPalette
                 (s16 (Z.shiftl 1 (Z.land (byte_to_Z b10) 0x07 + 1)))
                 (colors zero_palette))
              w13 ltac:(lia) ltac:(lia) ltac:(lia) ltac:(lia) S13)
    as (pal & w14 & Rp & _).
  rewrite (bind_run _ _ _ _ _ Rb), (bind_run _ _ _ _ _ Ra).
  unfold read_palette at 1; rewrite (bind_run _ _ _ _ _ Rp).
  do 2 eexists; split; [reflexivity|].
  split; [|discriminate].
  intros _; split; [congruence|reflexivity].
Qed.

(** C5 (as amended).  On every stream that is not empty, read with a
    reader whose buffer has its 1024 bytes, [gd_open_gif] returns, and it
    returns a session if and only if the first six bytes are exactly
    "GIF89a" and bit 7 of the packed byte of the logical screen descriptor
    (the eleventh byte) is set; otherwise it returns [NULL]. *)
Theorem gd_open_gif_accepts :
  forall (f : File) (heap : list gd_Entry) (w0 : GifClass),
    fpos f = 0 -> content f <> [] ->
    length (gif_buf w0) = 1024%nat ->
    exists r w,
      gd_open_gif f heap w0 = Ok (r, w)
      /\ (r <> None <->
          map byte_to_Z (firstn 6 (content f)) = [71; 73; 70; 56; 57; 97]
          /\ (10 < length (content f))%nat
          /\ Z.testbit (byte_to_Z (nth 10 (content f) x00)) 7 = true).
Proof.
  intros f heap w0 Hp Hne Hb.
  destruct (le_lt_dec 11 (length (content f))) as [Hl|Hl].
  - destruct (reader_at_open_reads f w0 Hp Hl) as (w11 & E11 & S11).
    destruct (gd_open_gif_by_header f heap w0 w11 _ E11 S11)
      as (r & w & Eo & Hr).
    exists r, w; split; [exact Eo|].
    rewrite Hr, firstn_map, firstn_firstn; simpl Nat.min.
    change (nth 10 (map byte_to_Z (firstn 11 (content f))) 0)
      with (nth 10 (map byte_to_Z (firstn 11 (content f))) (byte_to_Z x00)).
    rewrite (map_nth byte_to_Z (firstn 11 (content f)) x00 10).
    rewrite nth_firstn; simpl (10 <? 11)%nat.
    split; [intros [H1 H2]|intros (H1 & _ & H2)]; repeat split; auto.
  - assert (Hs : (1 <= length (content f) <= 10)%nat).
    { destruct (content f); [congruence|simpl in *; lia]. }
    destruct (reader_at_open_wraps f w0 Hp Hs Hb) as (w11 & E11 & S11).
    destruct (gd_open_gif_by_header f heap w0 w11 _ E11 S11)
      as (r & w & Eo & Hr).
    exists r, w; split; [exact Eo|].
    rewrite Hr; split; [|intros (_ & H & _); lia].
    intros [H6 H7]; exfalso.
    destruct (content f)
      as [|b0 [|b1 [|b2 [|b3 [|b4 [|b5 [|b6 [|b7 [|b8 [|b9 [|b10 rest]]]]]]]]]]];
      simpl in Hs; try lia; simpl in H6, H7;
      inversion H6;
      first [ congruence
            | repeat match goal with
                     | E : byte_to_Z _ = _ |- _ => rewrite E in H7; clear E
                     end;
              discriminate H7 ].
Qed.

Lemma gd_open_gif_accepts_witness :
  exists r w,
    gd_open_gif (mkFile one_frame 0) [] fresh_GifClass = Ok (r, w)
    /\ (r <> None <->
        map byte_to_Z (firstn 6 (content (mkFile one_frame 0)))
        = [71; 73; 70; 56; 57; 97]
        /\ (10 < length (content (mkFile one_frame 0)))%nat
        /\ Z.testbit (byte_to_Z (nth 10 (content (mkFile one_frame 0)) x00))
                     7 = true).
Proof.
  apply (gd_open_gif_accepts (mkFile one_frame 0) [] fresh_GifClass);
    [reflexivity|discriminate|reflexivity].
Defined.

(** C5, as stated, fails on the empty stream once the reader has served
    another file: [one_frame] is opened and played to its trailer, then an
    empty file is opened with the same [GifClass] object.  The refill reads
    nothing, the reader goes on through the bytes the buffer still holds,
    and [gd_open_gif] returns a session for a stream that has no byte. *)
Lemma open_succeeds_on_empty_stream :
  exists g0 w0 g1 fr1 w1 g2 fr2 w2 g3 w3,
    gd_open_gif (mkFile one_frame 0) [] fresh_GifClass = Ok (Some g0, w0)
    /\ gd_get_frame 100 g0 [9; 9; 9; 9] w0 = Ok (1, g1, fr1, w1)
    /\ gd_get_frame 100 g1 fr1 w1 = Ok (0, g2, fr2, w2)
    /\ gd_open_gif (mkFile [] 0) [] w2 = Ok (Some g3, w3)
    /\ map byte_to_Z (firstn 6 (content (mkFile [] 0)))
       <> [71; 73; 70; 56; 57; 97].
Proof.
  do 10 eexists.
  split; [vm_compute; reflexivity|].
  split; [vm_compute; reflexivity|].
  split; [vm_compute; reflexivity|].
  split; [vm_compute; reflexivity|discriminate].
Qed.

(** ** The dictionary *)

Lemma update_table_inv (iks clear : Z) (l l' : locals) (t t' : gd_Table) :
  1 <= iks <= 12 ->
  table_inv l t ->
  update_table iks clear l t = Ok (l', t') ->
  table_inv l' t'.
Proof.
  unfold update_table, table_inv; intros Hk [Hn Hf] H.
  destruct (key l =? clear).
  - injection H as <- <-; simpl.
    assert (B : 1 <= Z.shiftl 1 (iks - 1) <= 2048).
    { rewrite Z.shiftl_mul_pow2, Z.mul_1_l by lia.
      pose proof (Z.pow_pos_nonneg 2 (iks - 1) ltac:(lia) ltac:(lia)).
      split; [lia|].
      change 2048 with (2 ^ 11); apply Z.pow_le_mono_r; lia. }
    rewrite s16_small by lia; lia.
  - destruct (table_is_full l) eqn:Ef; simpl in H.
    + injection H as <- <-; rewrite Ef; split; [exact Hn|discriminate].
    + specialize (Hf eq_refl).
      unfold add_entry in H.
      destruct (zin (nentries t) TABLE_SIZE) eqn:Ez; [|discriminate].
      apply zin_spec in Ez; cbn [nentries] in H.
      rewrite (s16_small (nentries t + 1)) in H by lia.
      destruct (Z.eqb_spec (nentries t + 1) 0x1000) as [E|E];
        injection H as <- <-; cbn [nentries table_is_full].
      * split; [lia|discriminate].
      * split; [lia|intros _; lia].
Qed.

(** One turn of the decode loop keeps the entry count within the table:
    once 4096 entries are reached no entry is added until a clear code. *)
Lemma lzw_step_table_inv (fuel : nat) (interlace iks clear stop : Z)
      (gif : gd_GIF) (l : locals) (frame : list Z) (w w' : GifClass)
      (t : turn (list Z)) :
  1 <= iks <= 12 ->
  table_inv l (table gif) ->
  lzw_step fuel interlace iks clear stop gif l frame w = Ok (t, w') ->
  table_inv (turn_locals t) (table (turn_gif t)).
Proof.
  unfold lzw_step, lzw_step_with, bind, lift; intros Hk Hi H.
  destruct (update_table iks clear l (table gif)) as [[l1 t1]| |] eqn:Eu;
    try discriminate.
  pose proof (update_table_inv _ _ _ _ _ _ Hk Hi Eu) as Hi1.
  destruct (get_key _ _ _ _ w) as [[[[[k sl] sh] b] w2]| |] eqn:Eg;
    try discriminate.
  destruct (k =? clear); [injection H as <- <-; exact Hi1|].
  destruct (k =? stop); [injection H as <- <-; exact Hi1|].
  cbv beta iota zeta in H.
  cbn [table_is_full frm_off ret key_size] in H.
  destruct (zin k TABLE_SIZE); [|discriminate].
  destruct (emit_string_with store_pixel _ _ _ _ _ _ _) as [[e' f']| |];
    try discriminate.
  cbv beta iota zeta in H.
  destruct (patch_suffix _ _ _ _) as [t2| |] eqn:Ep; try discriminate.
  injection H as <- <-; simpl.
  assert (En : nentries t2 = nentries t1).
  { unfold patch_suffix in Ep.
    destruct (_ && _); [|injection Ep as <-; reflexivity].
    destruct (zin _ _); [|discriminate].
    injection Ep as <-; reflexivity. }
  unfold table_inv in *; simpl; rewrite En; exact Hi1.
Qed.

(** The set-up of a frame decode with minimum code size [m]: the clear
    code is [2^m], the stop code the next one, the first key is read with
    [m + 1] bits and the table starts at [2^m + 2] entries. *)
Lemma lzw_init_spec (gif gif0 : gd_GIF) (w w' : GifClass)
      (iks clear stop : Z) (l0 : locals) :
  lzw_init gif w = Ok (iks, clear, stop, gif0, l0, w') ->
  exists m w1,
    gif_buf_read w = Ok (m, w1)
    /\ 0 <= m <= 12
    /\ iks = m + 1 /\ clear = 2 ^ m /\ stop = 2 ^ m + 1
    /\ key_size l0 = m + 1
    /\ table_is_full l0 = false
    /\ nentries (table gif0) = 2 ^ m + 2
    /\ get_key (m + 1) 0 0 m w1
       = Ok (key l0, sub_len l0, shift l0, byte_ l0, w').
Proof.
  unfold lzw_init; intros H.
  apply bind_Ok in H; destruct H as (m & w1 & Em & H).
  apply bind_Ok in H; destruct H as (t & w2 & Et & H).
  apply lift_Ok in Et; destruct Et as [Et Ew]; simpl in Et, Ew; subst w2.
  apply bind_Ok in H; destruct H as ([[[k sl] sh] b] & w3 & Eg & H).
  apply mret_Ok in H; injection H as -> -> -> -> -> ->.
  pose proof (gif_buf_read_range _ _ _ Em) as Hm.
  unfold reset_table in Et.
  destruct (Z.ltb_spec 12 m); [discriminate|].
  injection Et as <-.
  assert (B : 1 <= 2 ^ m <= 4096).
  { pose proof (Z.pow_pos_nonneg 2 m ltac:(lia) ltac:(lia)).
    split; [lia|]. change 4096 with (2 ^ 12); apply Z.pow_le_mono_r; lia. }
  assert (Es : Z.shiftl 1 m = 2 ^ m)
    by (rewrite Z.shiftl_mul_pow2, Z.mul_1_l by lia; reflexivity).
  assert (Eu : u16 (m + 1) = m + 1) by (unfold u16; apply Z.mod_small; lia).
  rewrite Eu in *.
  exists m, w1; cbn [key_size table_is_full key sub_len shift byte_].
  split; [exact Em|split; [lia|split; [reflexivity|]]].
  rewrite Es; unfold u16; rewrite !Z.mod_small by lia.
  split; [reflexivity|split; [reflexivity|split; [reflexivity|]]].
  split; [reflexivity|split; [|exact Eg]].
  unfold set_table; cbn [table nentries].
  rewrite s16_small by lia; reflexivity.
Qed.

(** ** Evaluations *)

(** The embedding on a whole file: a 2x2 canvas with the global table
    [black; white] and one image block of pixels [0; 1; 1; 0].  The file
    opens, the first [gd_get_frame] returns 1 and leaves the four pixels,
    the palette is [0x0000; 0xFFFF], the delay is 0, and the second
    [gd_get_frame] returns 0. *)
Example one_frame_end_to_end :
  exists g0 w0 g1 w1 g2 w2,
    gd_open_gif (mkFile one_frame 0) [] fresh_GifClass = Ok (Some g0, w0)
    /\ width g0 = 2 /\ height g0 = 2
    /\ gd_get_frame 100 g0 [9; 9; 9; 9] w0 = Ok (1, g1, [0; 1; 1; 0], w1)
    /\ palette g1 = Gct /\ pal_len (gct g1) = 2
    /\ firstn 2 (colors (gct g1)) = [0x0000; 0xFFFF]
    /\ delay (gce g1) = 0
    /\ gd_get_frame 100 g1 [0; 1; 1; 0] w1 = Ok (0, g2, [0; 1; 1; 0], w2).
Proof.
  do 6 eexists.
  split; [vm_compute; reflexivity|].
  cbn [width height palette gct pal_len colors gce delay].
  split; [reflexivity|split; [reflexivity|]].
  split; [vm_compute; reflexivity|].
  cbn [width height palette gct pal_len colors gce delay].
  split; [reflexivity|split; [reflexivity|split; [reflexivity|]]].
  split; [reflexivity|vm_compute; reflexivity].
Qed.

(** C8.  [interlaced_line_index] at heights 2, 3 and 4: the second pass is
    given one row although the frame has no row 4, so linear row 1 is sent
    to row 4, outside the frame, and the rows returned are not the
    four-pass order (nor a permutation of the rows of the frame).  At height
    1 and at every height from 5 to 128 the rows returned are the four-pass
    order. *)
Theorem interlaced_line_index_low_heights :
  interlaced_line_index 2 1 = 4
  /\ map (interlaced_line_index 2) (rows 2) = [0; 4]
  /\ four_pass_order 2 = [0; 1]
  /\ map (interlaced_line_index 3) (rows 3) = [0; 4; 2]
  /\ four_pass_order 3 = [0; 2; 1]
  /\ map (interlaced_line_index 4) (rows 4) = [0; 4; 2; 1]
  /\ four_pass_order 4 = [0; 2; 1; 3]
  /\ interlace_agrees 1 = true
  /\ forallb interlace_agrees (map (fun h => Z.of_nat h + 5) (seq 0 124))
     = true.
Proof. vm_compute; repeat split; reflexivity. Qed.

(** Where [gif_buf_seek] leaves the file when the skip goes past the
    buffered bytes: short of [file_pos + len] by the bytes that were still
    unread in the buffer. *)
Lemma gif_buf_seek_past_buffer (len : Z) (w : GifClass) :
  gif_buf_last_idx w - gif_buf_idx w < len ->
  0 <= file_pos w + len - (gif_buf_last_idx w - gif_buf_idx w) ->
  exists w',
    gif_buf_seek len w = Ok (true, w')
    /\ gif_buf_idx w' = gif_buf_last_idx w'
    /\ file_pos w' = s16 (file_pos w + len)
    /\ fpos (fd w')
       = file_pos w + len - (gif_buf_last_idx w - gif_buf_idx w).
Proof.
  intros Hr Hp; unfold gif_buf_seek.
  destruct (Z.ltb_spec (gif_buf_last_idx w - gif_buf_idx w) len); [|lia].
  eexists; split; [reflexivity|].
  cbn [gif_buf_idx gif_buf_last_idx file_pos fd].
  repeat split; unfold File_seek.
  destruct (Z.ltb_spec (file_pos w + len
                        - (gif_buf_last_idx w - gif_buf_idx w)) 0);
    [lia|reflexivity].
Qed.

(** A skip that stays within the buffered bytes moves the index only. *)
Lemma gif_buf_seek_in_buffer (len : Z) (w : GifClass) :
  len <= gif_buf_last_idx w - gif_buf_idx w ->
  gif_buf_seek len w
  = Ok (true, mkGifClass (fd w) (gif_buf w) (gif_buf_last_idx w)
                         (s16 (gif_buf_idx w + len))
                         (s16 (file_pos w + len))).
Proof.
  intros Hr; unfold gif_buf_seek.
  destruct (Z.ltb_spec (gif_buf_last_idx w - gif_buf_idx w) len); [lia|].
  reflexivity.
Qed.

(** C3.  A skip past the end of the buffered bytes while some are still
    unread: 1000 bytes of a 2000-byte file are consumed, 24 remain in the
    buffer, and [gif_buf_seek 100] seeks the file to offset 1076, not to
    1000 + 100; the position counter says 1100 and the next byte read is the
    one at offset 1076. *)
Theorem gif_buf_seek_short_of_target :
  match gif_buf_read_into 1000 (reader_on (ramp 2000)) with
  | Ok (_, w1) =>
      file_pos w1 = 1000
      /\ gif_buf_last_idx w1 - gif_buf_idx w1 = 24
      /\ match gif_buf_seek 100 w1 with
         | Ok (_, w2) =>
             file_pos w2 = 1100
             /\ gif_buf_idx w2 = gif_buf_last_idx w2
             /\ fpos (fd w2) = 1076
             /\ match gif_buf_read w2 with
                | Ok (b, _) =>
                    b = byte_to_Z (nth 1076 (ramp 2000) x00)
                    /\ b <> byte_to_Z (nth 1100 (ramp 2000) x00)
                | _ => False
                end
         | _ => False
         end
  | _ => False
  end.
Proof. vm_compute; repeat split; discriminate. Qed.

(** C6.  The decode of [cleared_frame], minimum code size 2: key just read,
    key size and entry count after each turn of the loop.  The third turn
    brings the count to 8 and reads a clear code; the fourth resets key size
    and count, reads the next key with 3 bits and then raises the key size
    to 4, the flag set by the third turn being still up.  The following key
    is read with 4 bits while the count is 7, and is no key of the
    stream; the decode of the frame ends in a store or a look-up out of
    bounds. *)
Theorem key_size_after_clear :
  map cleared_after [0; 1; 2; 3; 4; 5]%nat
  = [Some (4, 3, 6); Some (0, 3, 6); Some (1, 3, 7); Some (4, 3, 8);
     Some (1, 4, 6); Some (8, 4, 7)]
  /\ read_image_data 100 (fst cleared_at_data) 0 [9; 9; 9; 9]
                     (snd cleared_at_data) = Undef.
Proof. vm_compute; split; reflexivity. Qed.


(** * Further properties of the decoder *)

(** ** The reader on buffered bytes *)

Lemma s16_add_l (a b : Z) : s16 (s16 a + b) = s16 (a + b).
Proof.
  unfold s16. f_equal.
  replace ((a + 32768) mod 65536 - 32768 + b + 32768)
    with ((a + 32768) mod 65536 + b) by lia.
  rewrite Z.add_mod_idemp_l by lia. f_equal. lia.
Qed.

Lemma s16_range (z : Z) : -32768 <= s16 z < 32768.
Proof. unfold s16. pose proof (Z.mod_pos_bound (z + 32768) 65536). lia. Qed.

Lemma advance_advance (a b : Z) (w : GifClass) :
  advance a (advance b w) = advance (b + a) w.
Proof.
  unfold advance. cbn [fd gif_buf gif_buf_last_idx gif_buf_idx file_pos].
  rewrite s16_add_l. f_equal; [lia | f_equal; lia].
Qed.

Lemma advance_0 (w : GifClass) :
  -32768 <= file_pos w < 32768 -> advance 0 w = w.
Proof.
  intros H. destruct w as [f b l i p]. unfold advance.
  cbn [fd gif_buf gif_buf_last_idx gif_buf_idx file_pos] in *.
  rewrite Z.add_0_r, Z.add_0_r, s16_small by lia. reflexivity.
Qed.

Lemma buffered_bytes (bs : list Z) (w : GifClass) :
  buffered bs w -> Forall (fun b => 0 <= b < 256) bs.
Proof.
  intros (_ & _ & _ & _ & E). rewrite <- E.
  apply Forall_forall. intros x Hx. apply in_map_iff in Hx.
  destruct Hx as (y & <- & _). apply byte_to_Z_range.
Qed.

Lemma buffered_length (bs : list Z) (w : GifClass) :
  buffered bs w ->
  (length bs <= length (gif_buf w) - Z.to_nat (gif_buf_idx w))%nat.
Proof.
  intros (_ & H0 & _ & _ & E).
  apply (f_equal (@length Z)) in E.
  rewrite length_map, length_firstn, length_skipn in E. lia.
Qed.

Lemma buffered_cons (b : Z) (bs : list Z) (w : GifClass) :
  buffered (b :: bs) w ->
  gif_buf_read w = Ok (b, advance 1 w) /\ buffered bs (advance 1 w).
Proof.
  intros H. pose proof (buffered_length _ _ H) as HL.
  destruct H as (Hp & H0 & H1 & H2 & E).
  cbn [length] in *. unfold GIF_BUF_SIZE in *.
  assert (Hi : (Z.to_nat (gif_buf_idx w) < length (gif_buf w))%nat) by lia.
  rewrite (skipn_nth_cons x00 _ _ Hi) in E.
  cbn [firstn map] in E. injection E as Eb Ebs.
  split.
  - unfold gif_buf_read, refill.
    destruct (gif_buf_idx w =? gif_buf_last_idx w) eqn:Q;
      [apply Z.eqb_eq in Q; lia |].
    replace (zin (gif_buf_idx w) GIF_BUF_SIZE) with true
      by (symmetry; apply zin_spec; unfold GIF_BUF_SIZE; lia).
    unfold znth. rewrite Eb. unfold advance.
    rewrite s16_small by lia. reflexivity.
  - unfold buffered, advance, GIF_BUF_SIZE.
    cbn [fd gif_buf gif_buf_last_idx gif_buf_idx file_pos].
    split; [apply s16_range |].
    repeat split; try lia.
    replace (Z.to_nat (gif_buf_idx w + 1)) with (S (Z.to_nat (gif_buf_idx w)))
      by lia.
    exact Ebs.
Qed.

Lemma firstn_plus {A : Type} (a b : nat) :
  forall l : list A, firstn (a + b) l = firstn a l ++ firstn b (skipn a l).
Proof.
  induction a as [|a IH]; intros [|x l]; cbn; try reflexivity.
  - now rewrite firstn_nil.
  - now rewrite IH.
Qed.

Lemma app_same_length {A : Type} (a c : list A) :
  forall b d, length a = length c -> a ++ b = c ++ d -> a = c /\ b = d.
Proof.
  revert c. induction a as [|x a IH]; intros [|y c] b d L E;
    cbn in *; try discriminate.
  - now split.
  - injection E as -> E. destruct (IH c b d) as (-> & ->); auto.
Qed.

Lemma buffered_app (xs ys : list Z) (w : GifClass) :
  buffered (xs ++ ys) w ->
  buffered xs w /\ buffered ys (advance (Z.of_nat (length xs)) w).
Proof.
  intros H. pose proof (buffered_length _ _ H) as HL.
  destruct H as (Hp & H0 & H1 & H2 & E).
  rewrite length_app in *.
  rewrite firstn_plus, map_app in E.
  apply app_same_length in E;
    [| rewrite length_map, length_firstn, length_skipn; lia].
  destruct E as (E1 & E2).
  split.
  - unfold buffered. repeat split; try lia. exact E1.
  - unfold buffered, advance.
    cbn [fd gif_buf gif_buf_last_idx gif_buf_idx file_pos].
    split; [apply s16_range |].
    repeat split; try lia.
    rewrite <- E2 at 2. rewrite skipn_skipn.
    replace (Z.to_nat (gif_buf_idx w + Z.of_nat (length xs)))
      with (length xs + Z.to_nat (gif_buf_idx w))%nat by lia.
    reflexivity.
Qed.

Lemma buffered_seek (n : Z) (bs : list Z) (w : GifClass) :
  buffered bs w -> 0 <= n <= Z.of_nat (length bs) ->
  gif_buf_seek n w = Ok (true, advance n w).
Proof.
  intros (Hp & H0 & H1 & H2 & _) Hn. unfold GIF_BUF_SIZE in *.
  rewrite gif_buf_seek_in_buffer by lia.
  unfold advance. rewrite s16_small by lia. reflexivity.
Qed.

Lemma buffered_read_into (bs : list Z) :
  forall w : GifClass,
    buffered bs w ->
    gif_buf_read_into (length bs) w
    = Ok (bs, advance (Z.of_nat (length bs)) w).
Proof.
  induction bs as [|b bs IH]; intros w H.
  - cbn [length gif_buf_read_into]. unfold mret.
    destruct H as (Hp & _). now rewrite advance_0.
  - destruct (buffered_cons _ _ _ H) as (R & H').
    cbn [length gif_buf_read_into].
    rewrite (bind_run _ _ _ _ _ R), (bind_run _ _ _ _ _ (IH _ H')).
    unfold mret. rewrite advance_advance. do 3 f_equal. lia.
Qed.

Lemma buffered_read16 (lo hi : Z) (bs : list Z) (w : GifClass) :
  buffered (lo :: hi :: bs) w ->
  gif_buf_read16 w = Ok (lo + 256 * hi, advance 2 w)
  /\ buffered bs (advance 2 w).
Proof.
  intros H. pose proof (buffered_bytes _ _ H) as B.
  inversion B as [|? ? Blo B']; subst. inversion B' as [|? ? Bhi _]; subst.
  destruct (buffered_cons _ _ _ H) as (R1 & H1).
  destruct (buffered_cons _ _ _ H1) as (R2 & H2).
  rewrite advance_advance in R2, H2. change (1 + 1) with 2 in *.
  split; [| exact H2].
  unfold gif_buf_read16.
  rewrite (bind_run _ _ _ _ _ R1), (bind_run _ _ _ _ _ R2).
  unfold mret, u16. rewrite Z.shiftl_mul_pow2 by lia.
  change (2 ^ 8) with 256. rewrite Z.mod_small by lia.
  do 2 f_equal. lia.
Qed.


Lemma bind_mret {A B : Type} (a : A) (k : A -> M B) (w : GifClass) :
  bind (mret a) k w = k a w.
Proof. reflexivity. Qed.

Lemma bind_bind {A B C : Type} (m : M A) (k1 : A -> M B) (k2 : B -> M C)
      (w : GifClass) :
  bind (bind m k1) k2 w = bind m (fun a => bind (k1 a) k2) w.
Proof. unfold bind. destruct (m w) as [[a w1]| |]; reflexivity. Qed.

Lemma bind_Undef {A B : Type} (m : M A) (k : A -> M B) (w : GifClass) :
  m w = Undef -> bind m k w = Undef.
Proof. unfold bind. now intros ->. Qed.

Lemma bind_NoFuel {A B : Type} (m : M A) (k : A -> M B) (w : GifClass) :
  m w = NoFuel -> bind m k w = NoFuel.
Proof. unfold bind. now intros ->. Qed.


Lemma buffered_skip (n : nat) (bs : list Z) (w : GifClass) :
  buffered bs w -> (n <= length bs)%nat ->
  gif_buf_seek (Z.of_nat n) w = Ok (true, advance (Z.of_nat n) w)
  /\ buffered (skipn n bs) (advance (Z.of_nat n) w).
Proof.
  intros H Hn. split.
  - apply (buffered_seek _ bs); [exact H | lia].
  - rewrite <- (firstn_skipn n bs) in H.
    apply buffered_app in H. destruct H as (_ & H).
    rewrite length_firstn in H.
    replace (Nat.min n (length bs)) with n in H by lia. exact H.
Qed.

(** X: a skip inside the buffer is the same as reading the bytes and dropping
    them. *)
Theorem gif_buf_seek_as_reads (bs : list Z) (w : GifClass) :
  buffered bs w ->
  gif_buf_seek (Z.of_nat (length bs)) w
  = (gif_buf_read_into (length bs) ;;; mret true) w.
Proof.
  intros H.
  rewrite (bind_run _ _ _ _ _ (buffered_read_into _ _ H)).
  unfold mret. apply (buffered_seek _ bs); [exact H | lia].
Qed.

Ltac buffered_now :=
  unfold buffered; repeat split;
  try (vm_compute; reflexivity); try (vm_compute; discriminate).

Lemma gif_buf_seek_as_reads_witness :
  gif_buf_seek (Z.of_nat (length [1; 2; 3])) (loaded [1; 2; 3; 4])
  = (gif_buf_read_into (length [1; 2; 3]) ;;; mret true) (loaded [1; 2; 3; 4]).
Proof.
  apply (gif_buf_seek_as_reads [1; 2; 3] (loaded [1; 2; 3; 4])).
  buffered_now.
Defined.



(** ** Extension blocks *)

Lemma sub_blocks_length (blocks : list (list Z)) :
  (1 <= length (sub_blocks blocks))%nat.
Proof. destruct blocks; cbn; lia. Qed.

Lemma discard_sub_blocks_buffered (blocks : list (list Z)) :
  forall (rest : list Z) (fuel : nat) (w : GifClass),
    Forall (fun d => (1 <= length d <= 255)%nat) blocks ->
    buffered (sub_blocks blocks ++ rest) w ->
    (length blocks < fuel)%nat ->
    discard_sub_blocks fuel w
    = Ok (tt, advance (Z.of_nat (length (sub_blocks blocks))) w)
    /\ buffered rest (advance (Z.of_nat (length (sub_blocks blocks))) w).
Proof.
  induction blocks as [|d t IH]; intros rest fuel w HF HB Hf.
  - destruct fuel as [|fuel]; [cbn in Hf; lia |].
    cbn [sub_blocks app length] in *.
    destruct (buffered_cons _ _ _ HB) as (R & HB1).
    cbn [discard_sub_blocks]. rewrite (bind_run _ _ _ _ _ R).
    destruct (buffered_skip 0 _ _ HB1) as (S0 & HB2); [lia |].
    cbn [skipn] in HB2. change (Z.of_nat 0) with 0 in *.
    rewrite (bind_run _ _ _ _ _ S0). cbn [Z.eqb]. unfold mret.
    rewrite advance_advance in *. change (1 + 0) with 1 in *.
    split; [reflexivity | exact HB2].
  - destruct fuel as [|fuel]; [cbn in Hf; lia |].
    inversion HF as [|? ? Hd HF']; subst.
    cbn [sub_blocks app length] in *.
    destruct (buffered_cons _ _ _ HB) as (R & HB1).
    cbn [discard_sub_blocks]. rewrite (bind_run _ _ _ _ _ R).
    rewrite <- app_assoc in HB1.
    destruct (buffered_skip (length d) _ _ HB1) as (S1 & HB2);
      [rewrite length_app; lia |].
    rewrite (bind_run _ _ _ _ _ S1).
    destruct (Z.of_nat (length d) =? 0) eqn:Q; [apply Z.eqb_eq in Q; lia |].
    rewrite skipn_app, skipn_all, Nat.sub_diag in HB2. cbn [app skipn] in HB2.
    destruct (IH rest fuel _ HF' HB2) as (D & HB3); [lia |].
    rewrite D. rewrite !advance_advance in *.
    rewrite length_app.
    replace (Z.of_nat (S (length d + length (sub_blocks t))))
      with (1 + Z.of_nat (length d) + Z.of_nat (length (sub_blocks t)))
      by lia.
    split; [do 3 f_equal; lia |].
    replace (1 + Z.of_nat (length d) + Z.of_nat (length (sub_blocks t)))
      with (1 + (Z.of_nat (length d) + Z.of_nat (length (sub_blocks t))))
      by lia.
    exact HB3.
Qed.

(** X: [discard_sub_blocks] consumes a buffered chain of sub-blocks up to
    and including its terminator, and nothing after it. *)
Theorem discard_sub_blocks_chain :
  forall (blocks : list (list Z)) (rest : list Z) (fuel : nat)
         (w : GifClass),
    Forall (fun d => (1 <= length d <= 255)%nat) blocks ->
    buffered (sub_blocks blocks ++ rest) w ->
    (length blocks < fuel)%nat ->
    discard_sub_blocks fuel w
    = (gif_buf_read_into (length (sub_blocks blocks)) ;;; mret tt) w
    /\ exists w', discard_sub_blocks fuel w = Ok (tt, w')
                  /\ buffered rest w'.
Proof.
  intros blocks rest fuel w HF HB Hf.
  destruct (discard_sub_blocks_buffered _ _ _ _ HF HB Hf) as (D & HB').
  split; [| eauto].
  apply buffered_app in HB. destruct HB as (HB & _).
  rewrite (bind_run _ _ _ _ _ (buffered_read_into _ _ HB)). exact D.
Qed.

Lemma discard_sub_blocks_chain_witness :
  discard_sub_blocks 5 (loaded (sub_blocks [[1; 2]; [3]] ++ [59]))
  = (gif_buf_read_into (length (sub_blocks [[1; 2]; [3]])) ;;; mret tt)
      (loaded (sub_blocks [[1; 2]; [3]] ++ [59]))
  /\ exists w',
       discard_sub_blocks 5 (loaded (sub_blocks [[1; 2]; [3]] ++ [59]))
       = Ok (tt, w')
       /\ buffered [59] w'.
Proof.
  apply (discard_sub_blocks_chain [[1; 2]; [3]] [59] 5
           (loaded (sub_blocks [[1; 2]; [3]] ++ [59]))).
  - repeat constructor.
  - buffered_now.
  - cbn. lia.
Defined.










(** X: [read_ext] takes nothing but the label of an extension it does not
    know, so the bytes of that extension are read as the next blocks: unless
    its first byte is 0 or one of the three block introducers,
    [gd_get_frame] returns -1 with session and buffer as they were. *)
Theorem unknown_extension_parse_error :
  forall (fuel : nat) (gif : gd_GIF) (frame : list Z) (w : GifClass)
         (label s : Z) (rest : list Z),
    known_label label = false ->
    s <> 0 -> s <> 44 -> s <> 59 -> s <> 33 ->
    buffered (33 :: label :: s :: rest) w ->
    (forall n, read_ext n gif (advance 1 w) = Ok (gif, advance 2 w))
    /\ gd_get_frame (S (S fuel)) gif frame w
       = Ok (-1, gif, frame, advance 3 w).
Proof.
  intros fuel gif frame w label s rest Hk s0 s44 s59 s33 H.
  destruct (buffered_cons _ _ _ H) as (R1 & H1).
  destruct (buffered_cons _ _ _ H1) as (R2 & H2).
  destruct (buffered_cons _ _ _ H2) as (R3 & H3).
  rewrite !advance_advance in *.
  change (1 + 1) with 2 in *. change (2 + 1) with 3 in *.
  unfold known_label in Hk.
  apply orb_false_iff in Hk. destruct Hk as (Hk & k4).
  apply orb_false_iff in Hk. destruct Hk as (Hk & k3).
  apply orb_false_iff in Hk. destruct Hk as (k1 & k2).
  assert (X : forall n, read_ext n gif (advance 1 w) = Ok (gif, advance 2 w)).
  { intros n. unfold read_ext. rewrite (bind_run _ _ _ _ _ R2).
    rewrite k1, k2, k3, k4. reflexivity. }
  split; [exact X |].
  unfold gd_get_frame. cbn [gd_get_frame_with].
  rewrite (bind_run _ _ _ _ _ R1). cbn [Z.eqb Pos.eqb].
  rewrite bind_mret. cbn [Z.eqb Pos.eqb].
  rewrite (bind_run _ _ _ _ _ (X _)).
  cbn [gd_get_frame_with].
  rewrite (bind_run _ _ _ _ _ R3).
  destruct (s =? 0) eqn:Q0; [apply Z.eqb_eq in Q0; contradiction |].
  rewrite bind_mret.
  destruct (s =? 44) eqn:Q1; [apply Z.eqb_eq in Q1; contradiction |].
  destruct (s =? 59) eqn:Q2; [apply Z.eqb_eq in Q2; contradiction |].
  destruct (s =? 33) eqn:Q3; [apply Z.eqb_eq in Q3; contradiction |].
  reflexivity.
Qed.

Lemma unknown_extension_parse_error_witness :
  (forall n, read_ext n zero_GIF (advance 1 (loaded unknown_block))
             = Ok (zero_GIF, advance 2 (loaded unknown_block)))
  /\ gd_get_frame 2 zero_GIF [9; 9; 9; 9] (loaded unknown_block)
     = Ok (-1, zero_GIF, [9; 9; 9; 9], advance 3 (loaded unknown_block)).
Proof.
  apply (unknown_extension_parse_error 0 zero_GIF [9; 9; 9; 9]
           (loaded unknown_block) 0x55 2 [7; 7; 0; 59]);
    try discriminate.
  - reflexivity.
  - buffered_now.
Defined.

(** ** The position counter *)



(** ** What [gd_open_gif] leaves in the session *)

Lemma buffered_at_open (n : nat) (f : File) (w0 : GifClass) :
  fpos f = 0 -> (n <= length (content f))%nat -> (n <= 1024)%nat ->
  buffered (map byte_to_Z (firstn n (content f)))
           (refill (reader_at_open f w0)).
Proof.
  intros Hp Hl Hn. rewrite (refill_at_open f w0 Hp).
  change (Z.to_nat GIF_BUF_SIZE) with 1024%nat.
  unfold buffered, GIF_BUF_SIZE.
  cbn [fd gif_buf gif_buf_last_idx gif_buf_idx file_pos].
  rewrite length_map, !length_firstn.
  split; [lia |]. split; [lia |]. split; [lia |]. split; [lia |].
  change (Z.to_nat 0) with 0%nat. cbn [skipn].
  replace (Nat.min n (length (content f))) with n by lia.
  rewrite firstn_app, length_firstn.
  replace (n - Nat.min 1024 (length (content f)))%nat with 0%nat by lia.
  rewrite firstn_O, app_nil_r, firstn_firstn.
  replace (Nat.min n 1024) with n by lia. reflexivity.
Qed.

Lemma refill_at_open_idem (f : File) (w0 : GifClass) :
  fpos f = 0 -> content f <> [] ->
  refill (refill (reader_at_open f w0)) = refill (reader_at_open f w0).
Proof.
  intros Hp Hc. rewrite (refill_at_open f w0 Hp).
  unfold refill at 1. cbn [gif_buf_idx gif_buf_last_idx].
  destruct (Z.eqb_spec 0
              (Z.of_nat (length (firstn (Z.to_nat GIF_BUF_SIZE) (content f)))))
    as [E |]; [| reflexivity].
  exfalso. rewrite length_firstn in E.
  change (Z.to_nat GIF_BUF_SIZE) with 1024%nat in E.
  destruct (content f); [now apply Hc | cbn [length] in E; lia].
Qed.


(** The run of a successful [gd_open_gif] on a stream of at least twelve
    bytes. *)
Lemma gd_open_gif_walk (f : File) (heap : list gd_Entry) (w0 w : GifClass)
      (g : gd_GIF) :
  fpos f = 0 -> (12 <= length (content f))%nat ->
  gd_open_gif f heap w0 = Ok (Some g, w) ->
  exists (c6 c7 c8 c9 x c11 : byte) (asp : Z) (pal : gd_Palette)
         (w13 : GifClass),
    skipn 6 (firstn 12 (content f)) = [c6; c7; c8; c9; x; c11]
    /\ gif_buf_read (advance 12 (refill (reader_at_open f w0)))
       = Ok (asp, w13)
    /\ read_palette zero_palette
                    (Z.shiftl 1 (Z.land (byte_to_Z x) 0x07 + 1)) w13
       = Ok (pal, w)
    /\ g = mkGIF (file_pos w) (byte_to_Z c6 + 256 * byte_to_Z c7)
                 (byte_to_Z c8 + 256 * byte_to_Z c9)
                 (Z.land (Z.shiftr (byte_to_Z x) 4) 7 + 1) 0
                 (mkGCE 0 0 0 0 0) Gct zero_palette pal 0 0 0 0
                 (byte_to_Z c11) (new_table heap) false.
Proof.
  intros Hp Hl H.
  assert (Hc : content f <> [])
    by (destruct (content f); [cbn in Hl; lia | discriminate]).
  pose proof (refill_at_open_idem f w0 Hp Hc) as Ei.
  pose proof (buffered_at_open 12 f w0 Hp Hl ltac:(lia)) as HB.
  set (hd := firstn 12 (content f)) in *.
  assert (Lh : length hd = 12%nat)
    by (unfold hd; rewrite length_firstn; lia).
  clearbody hd.
  destruct hd as [|c0 [|c1 [|c2 [|c3 [|c4 [|c5 [|c6 [|c7 [|c8 [|c9 [|x
                    [|c11 [|]]]]]]]]]]]]]; try discriminate Lh.
  clear Lh. cbn [map] in HB.
  set (w1 := refill (reader_at_open f w0)) in *.
  destruct (buffered_app [byte_to_Z c0; byte_to_Z c1; byte_to_Z c2] _ _ HB)
    as (B3 & HB3).
  pose proof (buffered_read_into _ _ B3) as R3.
  destruct (buffered_app [byte_to_Z c3; byte_to_Z c4; byte_to_Z c5] _ _ HB3)
    as (B6 & HB6).
  pose proof (buffered_read_into _ _ B6) as R6.
  cbn [length] in R3, R6, HB3, HB6.
  change (Z.of_nat 3) with 3 in *.
  destruct (buffered_read16 _ _ _ _ HB6) as (R8 & HB8).
  destruct (buffered_read16 _ _ _ _ HB8) as (R10 & HB10).
  destruct (buffered_cons _ _ _ HB10) as (R11 & HB11).
  destruct (buffered_cons _ _ _ HB11) as (R12 & HB12).
  rewrite !advance_advance in *.
  change (3 + 3) with 6 in *. change (6 + 2) with 8 in *.
  change (8 + 2) with 10 in *. change (10 + 1) with 11 in *.
  change (11 + 1) with 12 in *.
  unfold w1 in R3. rewrite gif_buf_read_into_refill in R3 by exact Ei.
  fold w1 in R3.
  unfold gd_open_gif in H. fold (reader_at_open f w0) in H.
  rewrite (bind_run _ _ _ _ _ R3) in H.
  destruct (list_eq_dec Z.eq_dec _ [71; 73; 70]) as [_ |];
    cbv beta iota delta [negb] in H;
    [| apply mret_Ok in H; discriminate H].
  rewrite (bind_run _ _ _ _ _ R6) in H.
  destruct (list_eq_dec Z.eq_dec _ [56; 57; 97]) as [_ |];
    cbv beta iota delta [negb] in H;
    [| apply mret_Ok in H; discriminate H].
  rewrite (bind_run _ _ _ _ _ R8), (bind_run _ _ _ _ _ R10),
    (bind_run _ _ _ _ _ R11) in H.
  destruct (Z.land (byte_to_Z x) 128 =? 0);
    [apply mret_Ok in H; discriminate H |].
  rewrite (bind_run _ _ _ _ _ R12) in H.
  step H. rename a into asp, w2 into w13, E into Ra.
  step H. rename a into pal, w2 into w14, E into Rp.
  assert (W : w = w14) by congruence. subst w14.
  exists c6, c7, c8, c9, x, c11, asp, pal, w13.
  split; [reflexivity |]. split; [exact Ra |]. split; [exact Rp |].
  congruence.
Qed.




Lemma znth_map_bytes (k : Z) (n a : nat) (l : list byte) :
  0 <= k < Z.of_nat n ->
  znth k (map byte_to_Z (firstn n (skipn a l))) 0
  = byte_to_Z (nth (a + Z.to_nat k) l x00).
Proof.
  intros Hk. unfold znth.
  change 0 with (byte_to_Z x00) at 1. rewrite map_nth, nth_firstn.
  destruct (Nat.ltb_spec (Z.to_nat k) n); [| lia].
  now rewrite nth_skipn.
Qed.

(** X: on a stream that holds its whole global colour table,
    [gd_open_gif] leaves in entry [i] of the table the RGB565 value of the
    three stream bytes at offset [13 + 3 * i]. *)
Theorem gd_open_gif_global_table :
  forall (f : File) (heap : list gd_Entry) (w0 w : GifClass) (g : gd_GIF),
    fpos f = 0 ->
    gd_open_gif f heap w0 = Ok (Some g, w) ->
    (13 + 3 * Z.to_nat (pal_len (gct g)) <= length (content f))%nat ->
    forall i : nat,
      0 <= Z.of_nat i < pal_len (gct g) ->
      let c := fun j => byte_to_Z (nth j (content f) x00) in
      znth (Z.of_nat i) (colors (gct g)) 0
      = rgb565 (c (13 + 3 * i)%nat) (c (13 + 3 * i + 1)%nat)
               (c (13 + 3 * i + 2)%nat).
Proof.
  intros f heap w0 w g Hp H Hl i Hi c.
  destruct (gd_open_gif_walk f heap w0 w g Hp ltac:(lia) H)
    as (c6 & c7 & c8 & c9 & x & c11 & asp & pal & w13 & _ & Ra & Rp & ->).
  cbn [gct] in *.
  pose proof (gct_size_bound x) as Hg.
  set (sz := Z.shiftl 1 (Z.land (byte_to_Z x) 7 + 1)) in *.
  unfold read_palette in Rp.
  apply read_palette_loop_spec in Rp; [| lia | lia | reflexivity].
  destruct Rp as (bs & Rp & _ & _ & _ & Lp & _ & Hcol).
  cbn [pal_len] in Lp. rewrite s16_small in Lp by lia.
  rewrite Lp in *.
  set (n := Z.to_nat sz) in *.
  pose proof (buffered_at_open (12 + (1 + 3 * n)) f w0 Hp
                ltac:(lia) ltac:(lia)) as HB.
  rewrite firstn_plus, map_app in HB.
  apply buffered_app in HB. destruct HB as (_ & HB).
  rewrite length_map, length_firstn in HB.
  replace (Nat.min 12 (length (content f))) with 12%nat in HB by lia.
  change (Z.of_nat 12) with 12 in HB.
  rewrite firstn_plus, map_app in HB.
  assert (L12 : (12 < length (content f))%nat) by lia.
  rewrite (skipn_nth_cons x00 _ _ L12) in HB at 1.
  cbn [firstn map app] in HB.
  destruct (buffered_cons _ _ _ HB) as (Ra' & HB13).
  assert (E13 : w13 = advance 1 (advance 12 (refill (reader_at_open f w0))))
    by congruence.
  subst w13. clear Ra'.
  rewrite skipn_skipn in HB13. change (1 + 12)%nat with 13%nat in HB13.
  pose proof (buffered_read_into _ _ HB13) as Rp'.
  rewrite length_map, length_firstn, length_skipn in Rp'.
  replace (Nat.min (3 * n) (length (content f) - 13)) with (3 * n)%nat
    in Rp' by lia.
  assert (Ebs : bs = map byte_to_Z (firstn (3 * n) (skipn 13 (content f))))
    by congruence.
  subst bs. clear Rp'.
  specialize (Hcol (Z.of_nat i) ltac:(lia)).
  rewrite Z.add_0_l in Hcol. rewrite Hcol.
  rewrite !znth_map_bytes by lia.
  unfold c. f_equal; f_equal; f_equal; lia.
Qed.

Lemma gd_open_gif_global_table_witness :
  znth (Z.of_nat 1) (colors (gct (fst opened))) 0 = rgb565 255 255 255.
Proof.
  apply (gd_open_gif_global_table (mkFile one_frame 0) [] fresh_GifClass
           (snd opened) (fst opened) eq_refl
           ltac:(vm_compute; reflexivity) ltac:(vm_compute; lia) 1%nat).
  vm_compute. split; [discriminate | reflexivity].
Defined.

(** ** The dictionary: root entries *)

Lemma pow2_bounds (m : Z) : 0 <= m <= 12 -> 1 <= 2 ^ m <= 4096.
Proof.
  intros H. pose proof (Z.pow_pos_nonneg 2 m ltac:(lia) ltac:(lia)).
  split; [lia |]. change 4096 with (2 ^ 12). apply Z.pow_le_mono_r; lia.
Qed.

Lemma reset_table_loop_spec (n : nat) :
  forall (key : Z) (es : list gd_Entry),
    0 <= key -> key + Z.of_nat n <= Z.of_nat (length es) ->
    length (reset_table_loop n key es) = length es
    /\ forall j, 0 <= j ->
         znth j (reset_table_loop n key es) zero_entry
         = if (key <=? j) && (j <? key + Z.of_nat n) then root_entry j
           else znth j es zero_entry.
Proof.
  induction n as [|n IH]; intros key es Hk Hl.
  - cbn [reset_table_loop]. split; [reflexivity |]. intros j Hj.
    destruct (Z.leb_spec key j), (Z.ltb_spec j (key + Z.of_nat 0));
      cbn [andb]; try reflexivity; lia.
  - cbn [reset_table_loop].
    destruct (IH (key + 1) (zupd key (mkEntry 1 0xFFF (u8 key)) es))
      as (L & V); [lia | rewrite zupd_length; lia |].
    rewrite zupd_length in L. split; [exact L |]. intros j Hj.
    rewrite (V j Hj).
    destruct (Z.leb_spec (key + 1) j), (Z.ltb_spec j (key + 1 + Z.of_nat n)),
      (Z.leb_spec key j), (Z.ltb_spec j (key + Z.of_nat (S n)));
      cbn [andb]; try reflexivity; try lia;
      try (rewrite znth_zupd_other by lia; reflexivity).
    assert (j = key) by lia. subst j.
    rewrite znth_zupd_same by lia. reflexivity.
Qed.

Lemma shiftl_1 (m : Z) : 0 <= m -> Z.shiftl 1 m = 2 ^ m.
Proof. intros H. now rewrite Z.shiftl_mul_pow2, Z.mul_1_l by lia. Qed.

(** X: [reset_table] on a table of 4096 entries: for a key size of at most
    12 it writes the single-pixel entry of [k mod 256] at every index
    [k < 2^key_size], leaves the other entries as they were and sets the
    entry count to [2^key_size + 2]; a larger key size stores past the end
    of the table. *)
Theorem reset_table_roots :
  forall (t : gd_Table) (key_size : Z),
    length (entries t) = 4096%nat -> 0 <= key_size ->
    (12 < key_size -> reset_table t key_size = Undef)
    /\ (key_size <= 12 ->
        exists t',
          reset_table t key_size = Ok t'
          /\ nentries t' = 2 ^ key_size + 2
          /\ length (entries t') = 4096%nat
          /\ (forall k, 0 <= k < 2 ^ key_size ->
                znth k (entries t') zero_entry = mkEntry 1 0xFFF (k mod 256))
          /\ (forall k, 2 ^ key_size <= k ->
                znth k (entries t') zero_entry
                = znth k (entries t) zero_entry)).
Proof.
  intros t ks L H0. unfold reset_table. split.
  - intros H. destruct (Z.ltb_spec 12 ks); [reflexivity | lia].
  - intros H. destruct (Z.ltb_spec 12 ks); [lia |].
    pose proof (pow2_bounds ks ltac:(lia)) as B.
    rewrite shiftl_1 by lia.
    destruct (reset_table_loop_spec (Z.to_nat (2 ^ ks)) 0 (entries t))
      as (L' & V); [lia | lia |].
    eexists. split; [reflexivity |]. cbn [nentries entries].
    split; [apply s16_small; lia |]. split; [congruence |]. split.
    + intros k Hk. rewrite V by lia.
      destruct (Z.leb_spec 0 k), (Z.ltb_spec k (0 + Z.of_nat (Z.to_nat (2 ^ ks))));
        cbn [andb]; try lia. reflexivity.
    + intros k Hk. rewrite V by lia.
      destruct (Z.leb_spec 0 k), (Z.ltb_spec k (0 + Z.of_nat (Z.to_nat (2 ^ ks))));
        cbn [andb]; try lia; reflexivity.
Qed.

Lemma reset_table_roots_witness :
  (12 < 2 -> reset_table (new_table []) 2 = Undef)
  /\ (2 <= 12 ->
      exists t',
        reset_table (new_table []) 2 = Ok t'
        /\ nentries t' = 2 ^ 2 + 2
        /\ length (entries t') = 4096%nat
        /\ (forall k, 0 <= k < 2 ^ 2 ->
              znth k (entries t') zero_entry = mkEntry 1 0xFFF (k mod 256))
        /\ (forall k, 2 ^ 2 <= k ->
              znth k (entries t') zero_entry
              = znth k (entries (new_table [])) zero_entry)).
Proof.
  apply (reset_table_roots (new_table []) 2).
  - vm_compute. reflexivity.
  - lia.
Defined.

Lemma reset_table_establishes (t t' : gd_Table) (m : Z) :
  length (entries t) = 4096%nat -> 0 <= m ->
  reset_table t m = Ok t' -> m <= 12 /\ roots m t' /\ nentries t' = 2 ^ m + 2.
Proof.
  intros L H0 H. unfold reset_table in H.
  destruct (Z.ltb_spec 12 m); [discriminate |].
  pose proof (pow2_bounds m ltac:(lia)) as B.
  rewrite shiftl_1 in H by lia.
  destruct (reset_table_loop_spec (Z.to_nat (2 ^ m)) 0 (entries t))
    as (L' & V); [lia | lia |].
  injection H as <-. split; [lia |]. unfold roots. cbn [nentries entries].
  rewrite s16_small by lia.
  split; [| reflexivity].
  split; [congruence |]. split; [lia |].
  intros k Hk. rewrite V by lia.
  destruct (Z.leb_spec 0 k), (Z.ltb_spec k (0 + Z.of_nat (Z.to_nat (2 ^ m))));
    cbn [andb]; try lia. reflexivity.
Qed.

Lemma update_table_roots (m : Z) (l l' : locals) (t t' : gd_Table) :
  0 <= m <= 12 -> roots m t ->
  update_table (m + 1) (2 ^ m) l t = Ok (l', t') ->
  roots m t'.
Proof.
  intros Hm (L & N & R) H. pose proof (pow2_bounds m Hm) as B.
  unfold update_table in H.
  destruct (key l =? 2 ^ m).
  - injection H as _ <-. unfold roots. cbn [nentries entries].
    replace (m + 1 - 1) with m by lia.
    rewrite shiftl_1, s16_small by lia.
    split; [exact L |]. split; [lia | exact R].
  - destruct (negb (table_is_full l)); [| injection H as _ <-; now split].
    unfold add_entry in H.
    destruct (zin (nentries t) TABLE_SIZE) eqn:Ez; [| discriminate].
    apply zin_spec in Ez. unfold TABLE_SIZE in Ez. cbn [nentries] in H.
    rewrite (s16_small (nentries t + 1)) in H by lia.
    assert (R' : roots m
                   (mkTable (nentries t + 1)
                      (zupd (nentries t)
                         (mkEntry (str_len l + 1) (u16 (key l))
                                  (u8 (suffix (entry l))))
                         (entries t)))).
    { unfold roots. cbn [nentries entries]. rewrite zupd_length.
      split; [exact L |]. split; [lia |].
      intros k Hk. rewrite znth_zupd_other by lia. now apply R. }
    destruct (nentries t + 1 =? 4096); injection H as _ <-; exact R'.
Qed.

Lemma patch_suffix_roots (m k : Z) (full : bool) (e : gd_Entry)
      (t t' : gd_Table) :
  0 <= m -> roots m t -> patch_suffix k full e t = Ok t' -> roots m t'.
Proof.
  intros Hm (L & N & R) H.
  pose proof (Z.pow_pos_nonneg 2 m ltac:(lia) Hm) as P.
  unfold patch_suffix in H.
  destruct (_ && _); [| injection H as <-; now split].
  destruct (zin _ _); [| discriminate].
  injection H as <-. unfold roots. cbn [nentries entries].
  rewrite zupd_length. split; [exact L |]. split; [exact N |].
  intros j Hj. rewrite znth_zupd_other by lia. now apply R.
Qed.

Section RootsOfADecode.

Variable F : Type.
Variable store : gd_GIF -> Z -> Z -> Z -> Z -> F -> outcome F.

Lemma lzw_step_with_roots (fuel : nat) (interlace m : Z) (gif : gd_GIF)
      (l : locals) (frame : F) (w w' : GifClass) (t : turn F) :
  0 <= m <= 12 -> roots m (table gif) ->
  lzw_step_with store fuel interlace (m + 1) (2 ^ m) (2 ^ m + 1) gif l
                frame w = Ok (t, w') ->
  roots m (table (turn_gif t)).
Proof.
  unfold lzw_step_with, bind, lift. intros Hm Hr H.
  destruct (update_table _ _ l (table gif)) as [[l1 t1]| |] eqn:Eu;
    try discriminate.
  pose proof (update_table_roots _ _ _ _ _ Hm Hr Eu) as Hr1.
  destruct (get_key _ _ _ _ w) as [[[[[k sl] sh] b] w2]| |] eqn:Eg;
    try discriminate.
  destruct (k =? 2 ^ m); [injection H as <- <-; exact Hr1 |].
  destruct (k =? 2 ^ m + 1); [injection H as <- <-; exact Hr1 |].
  cbv beta iota zeta in H.
  cbn [table_is_full frm_off ret key_size] in H.
  destruct (zin k TABLE_SIZE); [| discriminate].
  destruct (emit_string_with store _ _ _ _ _ _ _) as [[e' f']| |];
    try discriminate.
  cbv beta iota zeta in H.
  destruct (patch_suffix _ _ _ _) as [t2| |] eqn:Ep; try discriminate.
  injection H as <- <-. cbn [turn_gif set_table table].
  apply (patch_suffix_roots m _ _ _ _ _ (proj1 Hm) Hr1 Ep).
Qed.

Lemma lzw_loop_with_roots (interlace m : Z) (fuel : nat) :
  forall (gif gif' : gd_GIF) (l l' : locals) (frame frame' : F)
         (w w' : GifClass),
    0 <= m <= 12 -> roots m (table gif) ->
    lzw_loop_with store fuel interlace (m + 1) (2 ^ m) (2 ^ m + 1) gif l
                  frame w = Ok (gif', l', frame', w') ->
    roots m (table gif').
Proof.
  induction fuel as [|fuel IH]; intros gif gif' l l' frame frame' w w' Hm Hr H;
    [discriminate |].
  cbn [lzw_loop_with] in H. step H.
  pose proof (lzw_step_with_roots _ _ _ _ _ _ _ _ _ Hm Hr E) as Hr1.
  destruct a as [g1 l1 f1 | g1 l1 f1]; cbn [turn_gif] in Hr1.
  - exact (IH _ _ _ _ _ _ _ _ Hm Hr1 H).
  - apply mret_Ok in H. injection H as <- _ _ _. exact Hr1.
Qed.

End RootsOfADecode.

Lemma lzw_init_roots (gif gif0 : gd_GIF) (w w' : GifClass)
      (iks clear stop : Z) (l0 : locals) :
  length (entries (table gif)) = 4096%nat ->
  lzw_init gif w = Ok (iks, clear, stop, gif0, l0, w') ->
  exists m w1,
    gif_buf_read w = Ok (m, w1)
    /\ 0 <= m <= 12
    /\ iks = m + 1 /\ clear = 2 ^ m /\ stop = 2 ^ m + 1
    /\ roots m (table gif0)
    /\ nentries (table gif0) = 2 ^ m + 2
    /\ table_is_full l0 = false
    /\ frm_off l0 = 0.
Proof.
  unfold lzw_init. intros L H.
  step H. rename a into m, w0 into w1, E into Em.
  step H. rename a into t, w0 into w2, E into Et.
  apply lift_Ok in Et. destruct Et as (Et & Ew). cbn [fst snd] in Et, Ew.
  subst w2.
  step H. destruct a as [[[k sl] sh] b]. rename w0 into w3, E into Eg.
  apply mret_Ok in H.
  pose proof (gif_buf_read_range _ _ _ Em) as Hm.
  destruct (reset_table_establishes _ _ _ L (proj1 Hm) Et) as (Hm' & Hr & Hn).
  pose proof (pow2_bounds m ltac:(lia)) as B.
  assert (Es : Z.shiftl 1 m = 2 ^ m) by (apply shiftl_1; lia).
  assert (E1 : iks = u16 (m + 1)) by congruence.
  assert (E2 : clear = u16 (Z.shiftl 1 m)) by congruence.
  assert (E3 : stop = u16 (u16 (Z.shiftl 1 m) + 1)) by congruence.
  assert (E4 : gif0 = set_table gif t) by congruence.
  assert (E5 : l0 = mkLocals k (u16 (m + 1)) sl sh b false 0 zero_entry 0 0)
    by congruence.
  subst iks clear stop gif0 l0. clear H.
  rewrite Es. unfold u16. rewrite !Z.mod_small by lia.
  exists m, w1. cbn [set_table table table_is_full frm_off].
  repeat split; try assumption; try lia; apply Hr.
Qed.

Lemma lzw_loop_table_inv (interlace iks clear stop : Z) (fuel : nat) :
  forall (gif gif' : gd_GIF) (l l' : locals) (frame frame' : list Z)
         (w w' : GifClass),
    1 <= iks <= 12 -> table_inv l (table gif) ->
    lzw_loop fuel interlace iks clear stop gif l frame w
    = Ok (gif', l', frame', w') ->
    table_inv l' (table gif').
Proof.
  induction fuel as [|fuel IH]; intros gif gif' l l' frame frame' w w' Hk Hi H;
    [discriminate |].
  unfold lzw_loop in H. cbn [lzw_loop_with] in H. step H.
  pose proof (lzw_step_table_inv _ _ _ _ _ _ _ _ _ _ _ Hk Hi E) as Hi1.
  destruct a as [g1 l1 f1 | g1 l1 f1]; cbn [turn_gif turn_locals] in Hi1.
  - exact (IH _ _ _ _ _ _ _ _ Hk Hi1 H).
  - apply mret_Ok in H. injection H as <- <- _ _. exact Hi1.
Qed.

(** X: through a whole frame decode the dictionary keeps its single-pixel
    entries: when [read_image_data] returns, the table still holds at every
    index below the clear code the entry [reset_table] stored there, its
    entry count is beyond the stop code, and for a minimum code size of at
    most 11 the count is within the 4096 entries of the table. *)
Theorem read_image_data_keeps_roots :
  forall (fuel : nat) (gif gif' : gd_GIF) (interlace r : Z)
         (frame frame' : list Z) (w w' : GifClass),
    length (entries (table gif)) = 4096%nat ->
    read_image_data fuel gif interlace frame w = Ok (r, gif', frame', w') ->
    exists m w1,
      gif_buf_read w = Ok (m, w1)
      /\ 0 <= m <= 12
      /\ length (entries (table gif')) = 4096%nat
      /\ (forall k, 0 <= k < 2 ^ m ->
            znth k (entries (table gif')) zero_entry
            = mkEntry 1 0xFFF (k mod 256))
      /\ 2 ^ m + 2 <= nentries (table gif')
      /\ (m <= 11 -> nentries (table gif') <= 4096).
Proof.
  intros fuel gif gif' interlace r frame frame' w w' L H.
  unfold read_image_data, read_image_data_with in H.
  step H. destruct a as [[[[iks clear] stop] gif0] l0].
  rename w0 into w1, E into Ei.
  step H. destruct a as [[g1 l1] f1]. rename w0 into w2, E into El.
  step H. apply mret_Ok in H.
  assert (Eg : gif' = set_processed g1 true) by congruence. subst gif'.
  clear H.
  destruct (lzw_init_roots _ _ _ _ _ _ _ _ L Ei)
    as (m & wm & Em & Hm & -> & -> & -> & Hr & Hn & Hf & _).
  pose proof (lzw_loop_with_roots _ _ _ _ _ _ _ _ _ _ _ _ _ Hm Hr El)
    as (L1 & N1 & R1).
  exists m, wm. cbn [set_processed table].
  split; [exact Em |]. split; [exact Hm |]. split; [exact L1 |].
  split; [exact R1 |]. split; [exact N1 |].
  intros Hm11.
  assert (Hi : table_inv l0 (table gif0)).
  { pose proof (pow2_bounds m Hm) as B.
    assert (2 ^ m <= 2048)
      by (change 2048 with (2 ^ 11); apply Z.pow_le_mono_r; lia).
    unfold table_inv. rewrite Hn. lia. }
  assert (Hk : 1 <= m + 1 <= 12) by lia.
  apply (lzw_loop_table_inv _ _ _ _ _ _ _ _ _ _ _ _ _ Hk Hi El).
Qed.

Lemma read_image_data_keeps_roots_witness :
  exists m w1,
    gif_buf_read (snd plain_at_second) = Ok (m, w1)
    /\ 0 <= m <= 12
    /\ length (entries (table (fst plain_after_second))) = 4096%nat
    /\ (forall k, 0 <= k < 2 ^ m ->
          znth k (entries (table (fst plain_after_second))) zero_entry
          = mkEntry 1 0xFFF (k mod 256))
    /\ 2 ^ m + 2 <= nentries (table (fst plain_after_second))
    /\ (m <= 11 -> nentries (table (fst plain_after_second)) <= 4096).
Proof.
  apply (read_image_data_keeps_roots 100 (fst plain_at_second)
           (fst plain_after_second) 0 0 [0; 1; 1; 0] [1; 1; 1; 1]
           (snd plain_at_second) (snd plain_after_second)).
  - vm_compute. reflexivity.
  - vm_compute. reflexivity.
Defined.

(** X: a key below the clear code stands for the single pixel of that
    index: the turn of the decode loop that reads it emits exactly one
    pixel, of index [key mod 256], at the linear position the decode has
    reached, stores it under the guard of the store, and moves on by one
    position. *)
Theorem lzw_step_literal :
  forall (fuel : nat) (interlace m : Z) (gif : gd_GIF) (l : locals)
         (frame : list Z) (w w' : GifClass) (t : turn (list Z)),
    0 <= m <= 12 -> roots m (table gif) ->
    lzw_step fuel interlace (m + 1) (2 ^ m) (2 ^ m + 1) gif l frame w
    = Ok (t, w') ->
    0 <= key (turn_locals t) < 2 ^ m ->
    (forall tr,
        lzw_step_with log_pixel fuel interlace (m + 1) (2 ^ m) (2 ^ m + 1)
                      gif l tr w
        = Ok (with_frame t
                (tr ++ [(frm_off l, key (turn_locals t) mod 256)]), w'))
    /\ turn_frame t
       = put gif interlace (tindex (gce gif)) frame
             (frm_off l, key (turn_locals t) mod 256)
    /\ frm_off (turn_locals t) = frm_off l + 1
    /\ str_len (turn_locals t) = 1
    /\ exists g l', t = Continue g l' (turn_frame t).
Proof.
  intros fuel interlace m gif l frame w w' t Hm Hr H Hk.
  pose proof (pow2_bounds m Hm) as B.
  unfold lzw_step, lzw_step_with, bind, lift in *.
  destruct (update_table _ _ l (table gif)) as [[l1 t1]| |] eqn:Eu;
    try discriminate.
  pose proof (update_table_roots _ _ _ _ _ Hm Hr Eu) as (L1 & N1 & R1).
  assert (Fo : frm_off l1 = frm_off l).
  { unfold update_table in Eu.
    destruct (key l =? 2 ^ m); [injection Eu as <- _; reflexivity |].
    destruct (negb (table_is_full l)); [| injection Eu as <- _; reflexivity].
    destruct (add_entry _ _ _ _) as [[r0 t0]| |]; try discriminate.
    destruct (nentries t0 =? 4096); injection Eu as <- _; reflexivity. }
  destruct (get_key _ _ _ _ w) as [[[[[k sl] sh] b] w2]| |] eqn:Eg;
    try discriminate.
  destruct (Z.eqb_spec k (2 ^ m)) as [Ec | Ec].
  { injection H as <- <-. cbn [turn_locals key] in Hk. lia. }
  destruct (Z.eqb_spec k (2 ^ m + 1)) as [Es | Es].
  { injection H as <- <-. cbn [turn_locals key] in Hk. lia. }
  cbv beta iota zeta in H |- *.
  cbn [table_is_full frm_off ret key_size] in H |- *.
  destruct (zin k TABLE_SIZE) eqn:Ez; [| discriminate].
  assert (Kk : 0 <= k < 2 ^ m).
  { destruct (emit_string_with store_pixel _ _ _ _ _ _ _) as [[e2 f2]| |];
      try discriminate.
    cbv beta iota zeta in H.
    destruct (patch_suffix _ _ _ _); try discriminate.
    injection H as <- _. exact Hk. }
  destruct fuel as [|fuel]; [discriminate |].
  cbn [emit_string_with] in H |- *.
  rewrite (R1 k Kk) in *. unfold root_entry in *.
  cbn [len prefix suffix] in *.
  change (4095 =? 4095) with true in *. cbv beta iota in *.
  replace (frm_off l1 + 1 - 1) with (frm_off l) in * by lia.
  destruct (store_pixel _ _ _ _ _ _) as [f1| |] eqn:Est; try discriminate.
  cbv beta iota zeta in H.
  destruct (patch_suffix _ _ _ _) as [t2| |] eqn:Ep; try discriminate.
  injection H as <- <-. cbn [turn_locals turn_frame key frm_off str_len].
  apply store_pixel_Ok in Est. destruct Est as (Est & _).
  rewrite (put_view gif _ _ _ _ _ (same_view_set_table gif t1)) in Est.
  unfold u8 in *. split.
  - intros tr. unfold log_pixel. cbv beta iota zeta. rewrite Ep.
    reflexivity.
  - split; [exact Est |]. split; [lia |]. split; [reflexivity |].
    do 2 eexists. reflexivity.
Qed.

Lemma lzw_step_literal_witness :
  (forall tr,
      lzw_step_with log_pixel 100 0 (2 + 1) (2 ^ 2) (2 ^ 2 + 1)
                    (fst (fst literal_turn_start))
                    (snd (fst literal_turn_start)) tr
                    (snd literal_turn_start)
      = Ok (with_frame (fst literal_turn_end)
              (tr ++ [(frm_off (snd (fst literal_turn_start)),
                       key (turn_locals (fst literal_turn_end)) mod 256)]),
            snd literal_turn_end))
  /\ turn_frame (fst literal_turn_end)
     = put (fst (fst literal_turn_start)) 0
           (tindex (gce (fst (fst literal_turn_start)))) [9; 9; 9; 9]
           (frm_off (snd (fst literal_turn_start)),
            key (turn_locals (fst literal_turn_end)) mod 256)
  /\ frm_off (turn_locals (fst literal_turn_end))
     = frm_off (snd (fst literal_turn_start)) + 1
  /\ str_len (turn_locals (fst literal_turn_end)) = 1
  /\ exists g l',
       fst literal_turn_end
       = Continue g l' (turn_frame (fst literal_turn_end)).
Proof.
  apply (lzw_step_literal 100 0 2 (fst (fst literal_turn_start))
           (snd (fst literal_turn_start)) [9; 9; 9; 9]
           (snd literal_turn_start) (snd literal_turn_end)
           (fst literal_turn_end)).
  - lia.
  - unfold roots. split; [vm_compute; reflexivity |].
    split; [vm_compute; discriminate |].
    intros k Hk. change (2 ^ 2) with 4 in Hk.
    assert (K : k = 0 \/ k = 1 \/ k = 2 \/ k = 3) by lia.
    destruct K as [-> | [-> | [-> | ->]]]; vm_compute; reflexivity.
  - vm_compute. reflexivity.
  - vm_compute. split; [discriminate | reflexivity].
Defined.

(** ** The code reader *)

Lemma lor_shiftl_add (a x r : Z) :
  0 <= r -> 0 <= a < 2 ^ r -> Z.lor a (Z.shiftl x r) = a + 2 ^ r * x.
Proof.
  intros Hr Ha.
  assert (L : Z.land a (Z.shiftl x r) = 0).
  { apply Z.bits_inj'. intros i Hi.
    rewrite Z.land_spec, Z.bits_0.
    destruct (Z.lt_ge_cases i r) as [Lt | Ge].
    - rewrite Z.shiftl_spec_low by lia. apply andb_false_r.
    - replace (Z.testbit a i) with false; [reflexivity |].
      symmetry. apply Z.testbit_false; [lia |].
      rewrite Z.div_small; [reflexivity |].
      split; [lia |].
      apply Z.lt_le_trans with (2 ^ r); [lia |].
      apply Z.pow_le_mono_r; lia. }
  pose proof (Z.add_lor_land a (Z.shiftl x r)) as E.
  rewrite L, Z.add_0_r in E. rewrite E.
  rewrite Z.shiftl_mul_pow2 by lia. lia.
Qed.

Lemma last_default {A : Type} (d d' : A) (l : list A) :
  forall x, last (x :: l) d = last (x :: l) d'.
Proof.
  induction l as [|y t IH]; intros x; [reflexivity |].
  change (last (y :: t) d = last (y :: t) d'). apply IH.
Qed.

Lemma last_cons {A : Type} (b d : A) (ds : list A) :
  last (b :: ds) d = last ds b.
Proof.
  destruct ds as [|x t]; [reflexivity |].
  change (last (x :: t) d = last (x :: t) b). apply last_default.
Qed.

Lemma next_data_byte_range (sub_len sl b : Z) (w w' : GifClass) :
  next_data_byte sub_len w = Ok (sl, b, w') -> 0 <= b < 256.
Proof.
  unfold next_data_byte. intros H. step H. step H.
  apply mret_Ok in H.
  assert (b = a0) by congruence. subst a0.
  apply (gif_buf_read_range _ _ _ E0).
Qed.

(** The loop of [get_key] from a byte boundary on. *)
Lemma get_key_loop_aligned (ks shift : Z) (n : nat) :
  forall (r key sub_len byte_ : Z) (w : GifClass),
    0 <= shift -> 0 <= r <= ks -> ks <= 16 ->
    (shift + r) mod 8 = 0 ->
    0 <= key < 2 ^ r ->
    (Z.to_nat (ks - r) < n)%nat ->
    get_key_loop n ks r key sub_len shift byte_ w
    = (' (ds, sl) <- data_bytes (Z.to_nat ((ks - r + 7) / 8)) sub_len ;;
       mret (u16 (key + 2 ^ r * le_value ds), sl, last ds byte_)) w.
Proof.
  induction n as [|n IH]; intros r key sub_len byte_ w Hs Hr Hk Ha Hkey Hn;
    [lia |].
  cbn [get_key_loop].
  assert (P16 : 2 ^ r <= 65536).
  { change 65536 with (2 ^ 16). apply Z.pow_le_mono_r; lia. }
  destruct (Z.ltb_spec r ks) as [Lt | Ge].
  - rewrite Z.rem_mod_nonneg by lia. rewrite Ha. cbn [Z.eqb].
    assert (Nd : Z.to_nat ((ks - r + 7) / 8)
                 = S (Z.to_nat ((ks - (r + 8) + 7) / 8))).
    { replace (ks - r + 7) with ((ks - (r + 8) + 7) + 1 * 8) by lia.
      rewrite Z.div_add by lia.
      assert (0 <= (ks - (r + 8) + 7) / 8)
        by (apply Z.div_pos; lia).
      lia. }
    rewrite Nd. cbn [data_bytes].
    fold (next_data_byte sub_len). rewrite bind_bind.
    destruct (next_data_byte sub_len w) as [[[sl b] w1]| |] eqn:En;
      [| now rewrite !(bind_Undef _ _ _ En)
       | now rewrite !(bind_NoFuel _ _ _ En)].
    pose proof (next_data_byte_range _ _ _ _ _ En) as Hb.
    rewrite !(bind_run _ _ _ _ _ En).
    cbv beta iota zeta.
    assert (Eb : u16 (Z.shiftr b 0) = b).
    { rewrite Z.shiftr_0_r. unfold u16. apply Z.mod_small. lia. }
    rewrite Eb, lor_shiftl_add by lia.
    destruct (Z.le_gt_cases (ks - r) 8) as [Last | More].
    + rewrite Z.min_l by lia. replace (r + (ks - r)) with ks by lia.
      replace ((ks - (r + 8) + 7) / 8) with 0
        by (symmetry; apply Z.div_small; lia).
      cbn [Z.to_nat data_bytes].
      destruct n as [|n]; [lia |].
      cbn [get_key_loop]. rewrite Z.ltb_irrefl.
      unfold bind, mret. cbn [le_value last].
      rewrite Z.mul_0_r, Z.add_0_r. reflexivity.
    + rewrite Z.min_r by lia.
      assert (P8 : 2 ^ (r + 8) = 2 ^ r * 256)
        by (rewrite Z.pow_add_r by lia; reflexivity).
      assert (2 ^ (r + 8) <= 65536).
      { change 65536 with (2 ^ 16). apply Z.pow_le_mono_r; lia. }
      replace (u16 (key + 2 ^ r * b)) with (key + 2 ^ r * b)
        by (unfold u16; rewrite Z.mod_small by nia; reflexivity).
      rewrite IH; try lia.
      * rewrite bind_bind.
        destruct (data_bytes (Z.to_nat ((ks - (r + 8) + 7) / 8)) sl w1)
          as [[[ds sl'] w2]| |] eqn:Ed;
          [| now rewrite !(bind_Undef _ _ _ Ed)
           | now rewrite !(bind_NoFuel _ _ _ Ed)].
        rewrite !(bind_run _ _ _ _ _ Ed). rewrite bind_mret.
        unfold mret. cbn [le_value]. rewrite last_cons.
        replace (key + 2 ^ r * b + 2 ^ (r + (8 - 0)) * le_value ds)
          with (key + 2 ^ r * (b + 256 * le_value ds)); [reflexivity |].
        replace (r + (8 - 0)) with (r + 8) by lia. rewrite P8. ring.
      * replace (shift + (r + (8 - 0))) with (shift + r + 1 * 8) by lia.
        rewrite Z.mod_add by lia. exact Ha.
      * replace (r + (8 - 0)) with (r + 8) by lia. rewrite P8. nia.
  - assert (r = ks) by lia. subst r.
    replace ((ks - ks + 7) / 8) with 0
      by (rewrite Z.sub_diag; reflexivity).
    cbn [Z.to_nat data_bytes]. unfold bind, mret. cbn [le_value last].
    rewrite Z.mul_0_r, Z.add_0_r. unfold u16.
    rewrite Z.mod_small by lia. reflexivity.
Qed.

Lemma bind_congr {A B : Type} (m m' : M A) (k : A -> M B) (w : GifClass) :
  m w = m' w -> bind m k w = bind m' k w.
Proof. unfold bind. now intros ->. Qed.

Lemma key_mask (x ks : Z) :
  0 <= ks <= 16 ->
  u16 (Z.land (u16 x) (Z.shiftl 1 ks - 1)) = x mod 2 ^ ks.
Proof.
  intros H.
  replace (Z.shiftl 1 ks - 1) with (Z.ones ks)
    by (rewrite Z.ones_equiv, shiftl_1 by lia; lia).
  rewrite Z.land_ones by lia. unfold u16.
  change 65536 with (2 ^ 16).
  rewrite (Z.mod_mod_divide x (2 ^ 16) (2 ^ ks)).
  - apply Z.mod_small.
    pose proof (Z.mod_pos_bound x (2 ^ ks) ltac:(lia)).
    assert (2 ^ ks <= 2 ^ 16) by (apply Z.pow_le_mono_r; lia). lia.
  - exists (2 ^ (16 - ks)). rewrite <- Z.pow_add_r by lia. f_equal. lia.
Qed.

(** X: [get_key] loads the data bytes the key needs beyond the bits left
    of the current byte, and returns the [key_size] bits that follow the
    [shift] bits already taken, least significant bit first; [shift]
    moves on by [key_size] modulo 8 and the last byte loaded becomes the
    current one. *)
Theorem get_key_reads_bits :
  forall (key_size sub_len shift byte_ : Z) (w : GifClass),
    1 <= key_size <= 16 -> 0 <= shift < 8 -> 0 <= byte_ < 256 ->
    get_key key_size sub_len shift byte_ w
    = (' (ds, sl) <- data_bytes (bytes_needed key_size shift) sub_len ;;
       mret (bits_left shift byte_ ds mod 2 ^ key_size, sl,
             (shift + key_size) mod 8, last ds byte_)) w.
Proof.
  intros ks sub_len shift byte_ w Hk Hs Hb.
  unfold get_key. destruct (Z.ltb_spec 30 ks); [lia |].
  assert (Eu : u8 (Z.rem (shift + ks) 8) = (shift + ks) mod 8).
  { rewrite Z.rem_mod_nonneg by lia. unfold u8. apply Z.mod_small.
    pose proof (Z.mod_pos_bound (shift + ks) 8 ltac:(lia)). lia. }
  rewrite Eu. unfold bytes_needed, bits_available, bits_left.
  destruct (Z.eqb_spec shift 0) as [-> | Hs0].
  - rewrite (bind_congr _ _ _ _
               (get_key_loop_aligned ks 0 (S (Z.to_nat ks)) 0 0 sub_len byte_
                  w ltac:(lia) ltac:(lia) ltac:(lia) eq_refl ltac:(lia)
                  ltac:(lia))).
    rewrite !Z.sub_0_r, bind_bind.
    destruct (data_bytes (Z.to_nat ((ks + 7) / 8)) sub_len w)
      as [[[ds sl] w1]| |] eqn:Ed;
      [| now rewrite !(bind_Undef _ _ _ Ed)
       | now rewrite !(bind_NoFuel _ _ _ Ed)].
    rewrite !(bind_run _ _ _ _ _ Ed), bind_mret. unfold mret.
    rewrite key_mask by lia.
    rewrite Z.add_0_l, Z.pow_0_r, Z.mul_1_l. reflexivity.
  - assert (Ek : u16 (Z.lor 0 (Z.shiftl (u16 (Z.shiftr byte_ shift)) 0))
                 = byte_ / 2 ^ shift).
    { rewrite Z.shiftl_0_r, Z.lor_0_l, Z.shiftr_div_pow2 by lia.
      assert (0 <= byte_ / 2 ^ shift <= byte_).
      { split; [apply Z.div_pos; lia |].
        apply Z.div_le_upper_bound; [lia |].
        pose proof (Z.pow_pos_nonneg 2 shift ltac:(lia) ltac:(lia)). nia. }
      unfold u16. rewrite !(Z.mod_small (byte_ / 2 ^ shift)) by lia.
      reflexivity. }
    assert (Pk : 0 <= byte_ / 2 ^ shift < 2 ^ (8 - shift)).
    { split; [apply Z.div_pos; lia |].
      apply Z.div_lt_upper_bound; [lia |].
      rewrite <- Z.pow_add_r by lia.
      replace (shift + (8 - shift)) with 8 by lia. change (2 ^ 8) with 256.
      lia. }
    cbn [get_key_loop].
    destruct (Z.ltb_spec 0 ks); [| lia].
    rewrite Z.add_0_r, Z.rem_mod_nonneg, Z.mod_small by lia.
    destruct (Z.eqb_spec shift 0); [lia |].
    rewrite bind_bind, bind_mret. cbv beta iota zeta.
    rewrite Ek, Z.sub_0_r, Z.add_0_l.
    destruct (Z.le_gt_cases ks (8 - shift)) as [Fit | More].
    + rewrite Z.min_l by lia.
      replace ((ks - (8 - shift) + 7) / 8) with 0
        by (symmetry; apply Z.div_small; lia).
      cbn [Z.to_nat data_bytes].
      destruct (Z.to_nat ks) as [|fuel] eqn:En; [lia |].
      cbn [get_key_loop]. rewrite Z.ltb_irrefl.
      rewrite !bind_mret. unfold mret. cbn [le_value last].
      rewrite Z.mul_0_r, Z.add_0_r.
      replace (byte_ / 2 ^ shift) with (u16 (byte_ / 2 ^ shift)) at 1.
      * rewrite key_mask by lia. reflexivity.
      * unfold u16. apply Z.mod_small.
        assert (2 ^ (8 - shift) <= 2 ^ 16) by (apply Z.pow_le_mono_r; lia).
        change (2 ^ 16) with 65536 in *. lia.
    + rewrite Z.min_r by lia.
      rewrite (bind_congr _ _ _ _
                 (get_key_loop_aligned ks shift (Z.to_nat ks) (8 - shift)
                    (byte_ / 2 ^ shift) sub_len byte_ w ltac:(lia)
                    ltac:(lia) ltac:(lia)
                    ltac:(replace (shift + (8 - shift)) with 8 by lia;
                          reflexivity)
                    Pk ltac:(lia))).
      rewrite bind_bind.
      destruct (data_bytes (Z.to_nat ((ks - (8 - shift) + 7) / 8)) sub_len w)
        as [[[ds sl] w1]| |] eqn:Ed;
        [| now rewrite !(bind_Undef _ _ _ Ed)
         | now rewrite !(bind_NoFuel _ _ _ Ed)].
      rewrite !(bind_run _ _ _ _ _ Ed), bind_mret. unfold mret.
      rewrite key_mask by lia. reflexivity.
Qed.

Lemma get_key_reads_bits_witness :
  get_key 3 2 6 0x44 (loaded [0x02; 0x05])
  = (' (ds, sl) <- data_bytes (bytes_needed 3 6) 2 ;;
     mret (bits_left 6 0x44 ds mod 2 ^ 3, sl, (6 + 3) mod 8, last ds 0x44))
      (loaded [0x02; 0x05]).
Proof.
  apply (get_key_reads_bits 3 2 6 0x44 (loaded [0x02; 0x05])); lia.
Defined.

(** X: the data bytes [get_key] loads are the bytes of the sub-blocks in
    order, the size bytes taken out.  With [cur] the bytes left of the
    current sub-block and [blocks] the sub-blocks after it, the next [n]
    data bytes are the first [n] bytes of [cur ++ concat blocks], and the
    reader is left in a state of the same form on what remains. *)
Theorem data_bytes_of_sub_blocks :
  forall (n : nat) (cur : list Z) (blocks : list (list Z)) (rest : list Z)
         (w : GifClass),
    Forall (fun d => (1 <= length d <= 255)%nat) blocks ->
    (length cur <= 255)%nat ->
    buffered (cur ++ sub_blocks blocks ++ rest) w ->
    (n <= length (cur ++ concat blocks))%nat ->
    exists (cur' : list Z) (blocks' : list (list Z)) (w' : GifClass),
      data_bytes n (Z.of_nat (length cur)) w
      = Ok (firstn n (cur ++ concat blocks), Z.of_nat (length cur'), w')
      /\ cur' ++ concat blocks' = skipn n (cur ++ concat blocks)
      /\ Forall (fun d => (1 <= length d <= 255)%nat) blocks'
      /\ (length cur' <= 255)%nat
      /\ buffered (cur' ++ sub_blocks blocks' ++ rest) w'.
Proof.
  induction n as [|n IH]; intros cur blocks rest w HF Hc HB Hn.
  - exists cur, blocks, w. cbn [data_bytes firstn skipn].
    split; [reflexivity |]. split; [reflexivity |].
    split; [exact HF |]. split; [exact Hc | exact HB].
  - cbn [data_bytes]. unfold next_data_byte.
    destruct cur as [|c cur1].
    + destruct blocks as [|d t]; [cbn in Hn; lia |].
      inversion HF as [|? ? Hd HF']; subst.
      destruct d as [|c d1]; [cbn in Hd; lia |].
      cbn [app sub_blocks concat length] in *.
      rewrite <- !app_assoc in *. cbn [app] in *.
      destruct (buffered_cons _ _ _ HB) as (R1 & HB1).
      destruct (buffered_cons _ _ _ HB1) as (R2 & HB2).
      destruct (IH d1 t rest _ HF' ltac:(lia) HB2) as
        (cur' & blocks' & w' & D & E & F' & C' & B');
        [rewrite length_app in *; cbn [length] in Hn; lia |].
      exists cur', blocks', w'.
      change (Z.of_nat 0 =? 0) with true. cbv beta iota.
      rewrite !bind_bind, (bind_run _ _ _ _ _ R1).
      rewrite !bind_bind, (bind_run _ _ _ _ _ R2).
      rewrite !bind_mret. cbv beta iota zeta.
      replace (u8 (Z.of_nat (S (length d1)) - 1)) with (Z.of_nat (length d1))
        by (unfold u8; rewrite Z.mod_small; lia).
      rewrite (bind_run _ _ _ _ _ D).
      split; [reflexivity |].
      split; [exact E |]. split; [exact F' |]. split; [exact C' | exact B'].
    + cbn [app length] in *.
      destruct (buffered_cons _ _ _ HB) as (R1 & HB1).
      destruct (IH cur1 blocks rest _ HF ltac:(lia) HB1) as
        (cur' & blocks' & w' & D & E & F' & C' & B'); [lia |].
      exists cur', blocks', w'.
      destruct (Z.eqb_spec (Z.of_nat (S (length cur1))) 0); [lia |].
      rewrite !bind_bind, bind_mret, !bind_bind, (bind_run _ _ _ _ _ R1).
      rewrite !bind_mret. cbv beta iota zeta.
      replace (u8 (Z.of_nat (S (length cur1)) - 1))
        with (Z.of_nat (length cur1))
        by (unfold u8; rewrite Z.mod_small; lia).
      rewrite (bind_run _ _ _ _ _ D).
      split; [reflexivity |].
      split; [exact E |]. split; [exact F' |]. split; [exact C' | exact B'].
Qed.

Lemma data_bytes_of_sub_blocks_witness :
  exists cur' blocks' w',
    data_bytes 3 (Z.of_nat (length [7]))
               (loaded ([7] ++ sub_blocks [[8; 9]; [10]] ++ [59]))
    = Ok (firstn 3 ([7] ++ concat [[8; 9]; [10]]),
          Z.of_nat (length cur'), w')
    /\ cur' ++ concat blocks' = skipn 3 ([7] ++ concat [[8; 9]; [10]])
    /\ Forall (fun d => (1 <= length d <= 255)%nat) blocks'
    /\ (length cur' <= 255)%nat
    /\ buffered (cur' ++ sub_blocks blocks' ++ [59]) w'.
Proof.
  apply (data_bytes_of_sub_blocks 3 [7] [[8; 9]; [10]] [59]
           (loaded ([7] ++ sub_blocks [[8; 9]; [10]] ++ [59]))).
  - repeat constructor.
  - cbn. lia.
  - buffered_now.
  - cbn. lia.
Defined.

(** ** Interlacing: the rows as a permutation *)

Lemma interlaced_line_index_passes (h y : Z) :
  5 <= h < 32768 -> 0 <= y < h ->
  let p1 := (h - 1) / 8 + 1 in
  let p2 := (h - 5) / 8 + 1 in
  let p3 := (h - 3) / 4 + 1 in
  interlaced_line_index h y
  = if y <? p1 then y * 8
    else if y - p1 <? p2 then (y - p1) * 8 + 4
    else if y - p1 - p2 <? p3 then (y - p1 - p2) * 4 + 2
    else (y - p1 - p2 - p3) * 2 + 1.
Proof.
  intros Hh Hy. unfold interlaced_line_index. cbv zeta.
  rewrite !Z.quot_div_nonneg by lia.
  rewrite (s16_small ((h - 1) / 8 + 1))
    by (Z.div_mod_to_equations; lia).
  destruct (Z.ltb_spec y ((h - 1) / 8 + 1)).
  { apply s16_small. Z.div_mod_to_equations; lia. }
  rewrite (s16_small (y - _)) by (Z.div_mod_to_equations; lia).
  rewrite (s16_small ((h - 5) / 8 + 1)) by (Z.div_mod_to_equations; lia).
  destruct (Z.ltb_spec (y - ((h - 1) / 8 + 1)) ((h - 5) / 8 + 1)).
  { apply s16_small. Z.div_mod_to_equations; lia. }
  rewrite (s16_small (y - _ - _)) by (Z.div_mod_to_equations; lia).
  rewrite (s16_small ((h - 3) / 4 + 1)) by (Z.div_mod_to_equations; lia).
  destruct (Z.ltb_spec (y - ((h - 1) / 8 + 1) - ((h - 5) / 8 + 1))
                       ((h - 3) / 4 + 1)).
  { apply s16_small. Z.div_mod_to_equations; lia. }
  rewrite (s16_small (y - _ - _ - _)) by (Z.div_mod_to_equations; lia).
  apply s16_small. Z.div_mod_to_equations; lia.
Qed.

(** X: for a frame of one row or of at least five rows
    [interlaced_line_index] permutes the rows: every linear row is sent to
    a row of the frame, and no two linear rows to the same one. *)
Theorem interlaced_line_index_permutes :
  forall h : Z,
    h = 1 \/ 5 <= h < 32768 ->
    (forall y, 0 <= y < h -> 0 <= interlaced_line_index h y < h)
    /\ (forall y1 y2,
          0 <= y1 < h -> 0 <= y2 < h ->
          interlaced_line_index h y1 = interlaced_line_index h y2 ->
          y1 = y2).
Proof.
  intros h Hh. split.
  - intros y Hy. now apply interlaced_line_index_range.
  - intros y1 y2 H1 H2. destruct Hh as [-> | Hh]; [lia |].
    rewrite !interlaced_line_index_passes by lia. cbv zeta.
    destruct (Z.ltb_spec y1 ((h - 1) / 8 + 1));
      [| destruct (Z.ltb_spec (y1 - ((h - 1) / 8 + 1)) ((h - 5) / 8 + 1));
         [| destruct (Z.ltb_spec (y1 - ((h - 1) / 8 + 1) - ((h - 5) / 8 + 1))
                                 ((h - 3) / 4 + 1))]];
      (destruct (Z.ltb_spec y2 ((h - 1) / 8 + 1));
       [| destruct (Z.ltb_spec (y2 - ((h - 1) / 8 + 1)) ((h - 5) / 8 + 1));
          [| destruct (Z.ltb_spec (y2 - ((h - 1) / 8 + 1)
                                   - ((h - 5) / 8 + 1))
                                  ((h - 3) / 4 + 1))]]);
      lia.
Qed.

Lemma interlaced_line_index_permutes_witness :
  (forall y, 0 <= y < 5 -> 0 <= interlaced_line_index 5 y < 5)
  /\ (forall y1 y2,
        0 <= y1 < 5 -> 0 <= y2 < 5 ->
        interlaced_line_index 5 y1 = interlaced_line_index 5 y2 ->
        y1 = y2).
Proof.
  apply (interlaced_line_index_permutes 5). right. lia.
Defined.

(** ** What a frame decode leaves of the session *)

Section FieldsOfADecode.

Variable F : Type.
Variable store : gd_GIF -> Z -> Z -> Z -> Z -> F -> outcome F.

Lemma lzw_step_with_fields (fuel : nat) (interlace iks clear stop : Z)
      (gif : gd_GIF) (l : locals) (frame : F) (w w' : GifClass) (t : turn F) :
  lzw_step_with store fuel interlace iks clear stop gif l frame w
  = Ok (t, w') ->
  exists tb, turn_gif t = set_table gif tb.
Proof.
  unfold lzw_step_with, bind, lift. intros H.
  destruct (update_table _ _ l (table gif)) as [[l1 t1]| |];
    try discriminate.
  destruct (get_key _ _ _ _ w) as [[[[[k sl] sh] b] w2]| |];
    try discriminate.
  destruct (k =? clear); [injection H as <- _; now exists t1 |].
  destruct (k =? stop); [injection H as <- _; now exists t1 |].
  cbv beta iota zeta in H.
  destruct (zin k TABLE_SIZE); [| discriminate].
  destruct (emit_string_with store _ _ _ _ _ _ _) as [[e' f']| |];
    try discriminate.
  cbv beta iota zeta in H.
  destruct (patch_suffix _ _ _ _) as [t2| |]; try discriminate.
  injection H as <- _. now exists t2.
Qed.

Lemma lzw_loop_with_fields (interlace iks clear stop : Z) (fuel : nat) :
  forall (gif gif' : gd_GIF) (l l' : locals) (frame frame' : F)
         (w w' : GifClass),
    lzw_loop_with store fuel interlace iks clear stop gif l frame w
    = Ok (gif', l', frame', w') ->
    exists tb, gif' = set_table gif tb.
Proof.
  induction fuel as [|fuel IH]; intros gif gif' l l' frame frame' w w' H;
    [discriminate |].
  cbn [lzw_loop_with] in H. step H.
  destruct (lzw_step_with_fields _ _ _ _ _ _ _ _ _ _ _ E) as (t1 & E1).
  destruct a as [g1 l1 f1 | g1 l1 f1]; cbn [turn_gif] in E1; subst g1.
  - destruct (IH _ _ _ _ _ _ _ _ H) as (t2 & ->). now exists t2.
  - apply mret_Ok in H. injection H as -> _ _ _. now exists t1.
Qed.

Lemma read_image_data_with_fields (fuel : nat) (gif gif' : gd_GIF)
      (interlace r : Z) (frame frame' : F) (w w' : GifClass) :
  read_image_data_with store fuel gif interlace frame w
  = Ok (r, gif', frame', w') ->
  exists tb, gif' = set_processed (set_table gif tb) true.
Proof.
  unfold read_image_data_with. intros H.
  step H. destruct a as [[[[iks clear] stop] gif0] l0].
  step H. destruct a as [[g1 l1] f1].
  step H. apply mret_Ok in H.
  assert (Eg : gif' = set_processed g1 true) by congruence. subst gif'.
  destruct (lzw_loop_with_fields _ _ _ _ _ _ _ _ _ _ _ _ _ E0) as (t1 & ->).
  unfold lzw_init in E.
  apply bind_Ok in E. destruct E as (m & wm & _ & E).
  apply bind_Ok in E. destruct E as (t0 & wt & _ & E).
  apply bind_Ok in E. destruct E as ([[[k sl] sh] b] & wk & _ & E).
  apply mret_Ok in E.
  assert (Eg : gif0 = set_table gif t0) by congruence. subst gif0.
  now exists t1.
Qed.

End FieldsOfADecode.






(** ** What pulling a frame leaves of the session *)

Lemma same_canvas_refl (g : gd_GIF) : same_canvas g g.
Proof. unfold same_canvas. tauto. Qed.

Lemma same_canvas_trans (g1 g2 g3 : gd_GIF) :
  same_canvas g1 g2 -> same_canvas g2 g3 -> same_canvas g1 g3.
Proof. unfold same_canvas. intuition congruence. Qed.

Lemma read_ext_fields (fuel : nat) (gif gif' : gd_GIF) (w w' : GifClass) :
  read_ext fuel gif w = Ok (gif', w') ->
  gif' = gif \/ (exists c, gif' = set_gce gif c)
  \/ exists n, gif' = set_loop_count gif n.
Proof.
  unfold read_ext. intros H.
  apply bind_Ok in H. destruct H as (label & w1 & El & H).
  destruct (label =? 0x01).
  { unfold read_plain_text_ext in H. step H. step H.
    apply mret_Ok in H. injection H as -> _. auto. }
  destruct (label =? 0xF9).
  { apply read_graphic_control_ext_keeps in H. auto. }
  destruct (label =? 0xFE).
  { unfold read_comment_ext in H. step H.
    apply mret_Ok in H. injection H as -> _. auto. }
  destruct (label =? 0xFF).
  { apply read_application_ext_keeps in H. destruct H; auto. }
  apply mret_Ok in H. injection H as -> _. auto.
Qed.

Lemma read_image_canvas (fuel : nat) (gif gif' : gd_GIF) (r : Z)
      (frame frame' : list Z) (w w' : GifClass) :
  read_image fuel gif frame w = Ok (r, gif', frame', w') ->
  same_canvas gif gif' /\ loop_count gif' = loop_count gif.
Proof.
  unfold read_image, read_image_with. intros H.
  step H. step H. step H. step H. step H.
  apply bind_Ok in H. destruct H as (gif2 & wp & Ep & H).
  destruct (read_image_data_with_fields _ _ _ _ _ _ _ _ _ _ _ H) as (tb & ->).
  destruct (Z.land _ 128 =? 0).
  - apply mret_Ok in Ep. injection Ep as -> _.
    unfold same_canvas. cbn. tauto.
  - apply bind_Ok in Ep. destruct Ep as (p & wq & _ & Ep).
    apply mret_Ok in Ep. injection Ep as -> _.
    unfold same_canvas. cbn. tauto.
Qed.

Lemma gd_get_frame_canvas (fuel : nat) :
  forall (gif gif' : gd_GIF) (r : Z) (frame frame' : list Z)
         (w w' : GifClass),
    gd_get_frame fuel gif frame w = Ok (r, gif', frame', w') ->
    same_canvas gif gif'.
Proof.
  induction fuel as [|fuel IH]; intros gif gif' r frame frame' w w' H;
    [discriminate |].
  apply gd_get_frame_inv in H.
  destruct H as (sep & w1 & _ & [(_ & g1 & f1 & w2 & Ei & E)
                               | [(_ & E) | [(_ & g1 & w2 & Ee & H)
                                            | (_ & _ & _ & E)]]]).
  - injection E as _ -> _ _. apply (read_image_canvas _ _ _ _ _ _ _ _ Ei).
  - injection E as _ -> _ _. apply same_canvas_refl.
  - apply IH in H. apply (same_canvas_trans _ g1); [| exact H].
    apply read_ext_fields in Ee.
    destruct Ee as [-> | [(c & ->) | (n & ->)]];
      unfold same_canvas; cbn; tauto.
  - injection E as _ -> _ _. apply same_canvas_refl.
Qed.

(** X: pulling a frame never changes what the session got when it was
    opened: the canvas size, the colour depth, the background index, the
    global table and the rewind anchor.  A call that decodes no frame
    (result 0 or -1) leaves the caller's buffer as it was. *)
Theorem gd_get_frame_keeps_canvas :
  forall (fuel : nat) (gif gif' : gd_GIF) (r : Z) (frame frame' : list Z)
         (w w' : GifClass),
    gd_get_frame fuel gif frame w = Ok (r, gif', frame', w') ->
    width gif' = width gif /\ height gif' = height gif
    /\ depth gif' = depth gif /\ bgindex gif' = bgindex gif
    /\ gct gif' = gct gif /\ anim_start gif' = anim_start gif
    /\ length frame' = length frame
    /\ (r = 1 \/ r = 0 \/ r = -1)
    /\ (r <> 1 -> frame' = frame).
Proof.
  intros fuel gif gif' r frame frame' w w' H.
  pose proof (gd_get_frame_canvas _ _ _ _ _ _ _ _ H)
    as (Hw & Hh & Hd & Hb & Ha & Hg).
  repeat (split; [assumption |]).
  destruct (gd_get_frame_log _ _ _ _ _ _ _ _ H) as (tr & il & _ & _ & _ & L).
  split; [exact L |].
  clear - H. revert gif gif' r frame frame' w w' H.
  induction fuel as [|fuel IH]; intros gif gif' r frame frame' w w' H;
    [discriminate |].
  apply gd_get_frame_inv in H.
  destruct H as (sep & w1 & _ & [(_ & g1 & f1 & w2 & Ei & E)
                               | [(_ & E) | [(_ & g1 & w2 & Ee & H)
                                            | (_ & _ & _ & E)]]]).
  - injection E as -> _ _ _. split; [auto | congruence].
  - injection E as -> _ -> _. split; [auto | reflexivity].
  - apply IH in H. exact H.
  - injection E as -> _ -> _. split; [auto | reflexivity].
Qed.

Lemma gd_get_frame_keeps_canvas_witness :
  width (fst first_pulled) = width (fst opened)
  /\ height (fst first_pulled) = height (fst opened)
  /\ depth (fst first_pulled) = depth (fst opened)
  /\ bgindex (fst first_pulled) = bgindex (fst opened)
  /\ gct (fst first_pulled) = gct (fst opened)
  /\ anim_start (fst first_pulled) = anim_start (fst opened)
  /\ length [0; 1; 1; 0] = length [9; 9; 9; 9]
  /\ (1 = 1 \/ 1 = 0 \/ 1 = -1)
  /\ (1 <> 1 -> [0; 1; 1; 0] = [9; 9; 9; 9]).
Proof.
  apply (gd_get_frame_keeps_canvas 100 (fst opened) (fst first_pulled) 1
           [9; 9; 9; 9] [0; 1; 1; 0] (snd opened) (snd first_pulled)).
  vm_compute. reflexivity.
Defined.

(** ** The player *)




